(** * A persistent red-black tree (package [tree], file tree/tree.go)

    Shallow embedding of the Go package and the properties of its
    operations.  Go pointers to immutable nodes are modelled as finite trees
    whose nodes carry the address they were allocated at; every [&node{...}]
    of the source draws a fresh address from an allocation counter, so that
    "the same node" and "an equal copy" are told apart.  A nil-pointer
    dereference is the outcome [Panic]; recursion is bounded by fuel. *)

From Stdlib Require Import ZArith List Lia Bool Sorted Arith.
Import ListNotations.
Local Open Scope Z_scope.

(** ** Outcomes and the allocation monad *)

Inductive outcome (A : Type) : Type :=
| Ok (a : A)
| Panic
| OutOfFuel.
Arguments Ok {A} a.
Arguments Panic {A}.
Arguments OutOfFuel {A}.

(** A computation reads the next free address and returns the new one. *)
Definition M (A : Type) : Type := nat -> outcome (A * nat).

Definition ret {A} (a : A) : M A := fun k => Ok (a, k).
Definition bind {A B} (m : M A) (f : A -> M B) : M B :=
  fun k => match m k with
           | Ok (a, k') => f a k'
           | Panic => Panic
           | OutOfFuel => OutOfFuel
           end.
Definition panic {A} : M A := fun _ => Panic.
Definition out_of_fuel {A} : M A := fun _ => OutOfFuel.

Declare Scope go_scope.
Delimit Scope go_scope with go.
Notation "x <- m ;; k" := (bind m (fun x => k))
  (at level 61, m at next level, right associativity) : go_scope.
Local Open Scope go_scope.

(** The value of a computation started at address [k], forgetting the
    final counter. *)
Definition value {A} (r : outcome (A * nat)) : outcome A :=
  match r with
  | Ok (a, _) => Ok a
  | Panic => Panic
  | OutOfFuel => OutOfFuel
  end.

(** ** Colors: [type color bool], [red = true], [black = false] *)

Definition color := bool.
Definition red : color := true.
Definition black : color := false.

Section Tree.

Variable T : Type.

(** [type Compare[T any] func(this, that T) int] *)
Definition Compare := T -> T -> Z.

(** [*node[T]]: [Nil] is the nil pointer, [Node a item c left right] the
    node allocated at address [a]. *)
Inductive node : Type :=
| Nil
| Node (addr : nat) (item : T) (c : color) (left right : node).

Definition alloc (item : T) (c : color) (left right : node) : M node :=
  fun k => Ok (Node k item c left right, S k).

(** [func (n node[T]) copyWithEntry(item T) *node[T]]: value receiver, so the
    call through a nil pointer dereferences it. *)
Definition copyWithEntry (n : node) (item : T) : M node :=
  match n with
  | Nil => panic
  | Node _ _ c l r => alloc item c l r
  end.

Definition copyWithLeft (n : node) (left : node) : M node :=
  match n with
  | Nil => panic
  | Node _ x c _ r => alloc x c left r
  end.

Definition copyWithRight (n : node) (right : node) : M node :=
  match n with
  | Nil => panic
  | Node _ x c l _ => alloc x c l right
  end.

(** [func (n *node[T]) copyWithColor(c color) *node[T]]: reads [n.c] first. *)
Definition copyWithColor (n : node) (c : color) : M node :=
  match n with
  | Nil => panic
  | Node _ x c' l r => if Bool.eqb c' c then ret n else alloc x c l r
  end.

Definition newNode (item : T) : M node := alloc item red Nil Nil.

(** [balance]: the four cases are tried in the order of the source (top,
    left, right, bottom); the first that applies is taken. *)
Definition balance (n : node) : M node :=
  match n with
  | Nil => ret Nil
  | Node _ _ true _ _ => ret n
  | Node _ z false l r =>
    match l, r with
    | Node _ x true a (Node _ y true b c'), _ =>
        nl <- alloc x black a b ;;
        nr <- alloc z black c' r ;;
        alloc y red nl nr
    | Node _ y true (Node _ _ true _ _ as ll) c', _ =>
        nl <- copyWithColor ll black ;;
        nr <- alloc z black c' r ;;
        alloc y red nl nr
    | _, Node _ y true b (Node _ _ true _ _ as rr) =>
        nl <- alloc z black l b ;;
        nr <- copyWithColor rr black ;;
        alloc y red nl nr
    | _, Node _ y true (Node _ x true b c') d =>
        nl <- alloc z black l b ;;
        nr <- alloc y black c' d ;;
        alloc x red nl nr
    | _, _ => ret n
    end
  end.

(** [upsert]: merges the tree [inserting] into the tree [n]. *)
Fixpoint upsert (fuel : nat) (c : Compare) (n inserting : node) : M node :=
  match fuel with
  | O => out_of_fuel
  | S fuel =>
    match inserting with
    | Nil => ret n
    | Node _ ii _ il ir =>
      match n with
      | Nil => panic
      | Node _ ni _ nl nr =>
        let cmp := c ii ni in
        if cmp =? 0 then
          n1 <- copyWithEntry n ii ;;
          n2 <- upsert fuel c n1 ir ;;
          n3 <- balance n2 ;;
          n4 <- upsert fuel c n3 il ;;
          balance n4
        else if cmp =? -1 then
          match nl with
          | Nil => n1 <- copyWithLeft n inserting ;; balance n1
          | Node _ _ _ _ _ =>
            t <- copyWithRight inserting Nil ;;
            t' <- balance t ;;
            l' <- upsert fuel c nl t' ;;
            n1 <- copyWithLeft n l' ;;
            n2 <- balance n1 ;;
            upsert fuel c n2 ir
          end
        else
          match nr with
          | Nil => n1 <- copyWithRight n inserting ;; balance n1
          | Node _ _ _ _ _ =>
            t <- copyWithLeft inserting Nil ;;
            t' <- balance t ;;
            r' <- upsert fuel c nr t' ;;
            n1 <- copyWithRight n r' ;;
            n2 <- balance n1 ;;
            upsert fuel c n2 il
          end
      end
    end
  end.

(** [combinedChildren]: joins the two children of a removed node. *)
Definition combinedChildren (fuel : nat) (c : Compare) (n : node) : M node :=
  match n with
  | Nil => panic
  | Node _ _ _ Nil r => ret r
  | Node _ _ _ l r => upsert fuel c l r
  end.

Fixpoint intersection (fuel : nat) (c : Compare) (n intersecting : node)
  : M node :=
  match fuel with
  | O => out_of_fuel
  | S fuel =>
    match n, intersecting with
    | Nil, _ => ret Nil
    | _, Nil => ret Nil
    | Node _ ni _ nl nr, Node _ ii _ il ir =>
      let cmp := c ii ni in
      if cmp =? 0 then
        ri <- intersection fuel c nr ir ;;
        rightIntersection <- balance ri ;;
        li <- intersection fuel c nl il ;;
        leftIntersection <- balance li ;;
        n1 <- copyWithRight n rightIntersection ;;
        n2 <- balance n1 ;;
        n3 <- copyWithLeft n2 leftIntersection ;;
        balance n3
      else if cmp =? -1 then
        t <- copyWithRight intersecting Nil ;;
        t' <- balance t ;;
        leftIntersect <- intersection fuel c nl t' ;;
        match leftIntersect with
        | Nil => intersection fuel c n ir
        | Node _ _ _ _ _ =>
          rest <- intersection fuel c n ir ;;
          n1 <- copyWithRight leftIntersect rest ;;
          balance n1
        end
      else
        t <- copyWithLeft intersecting Nil ;;
        t' <- balance t ;;
        rightIntersect <- intersection fuel c nr t' ;;
        match rightIntersect with
        | Nil => intersection fuel c n il
        | Node _ _ _ _ _ =>
          rest <- intersection fuel c n il ;;
          n1 <- copyWithLeft rightIntersect rest ;;
          balance n1
        end
    end
  end.

Fixpoint subtract (fuel : nat) (c : Compare) (n subtracting : node) : M node :=
  match fuel with
  | O => out_of_fuel
  | S fuel =>
    match subtracting with
    | Nil => ret n
    | Node _ si _ sl sr =>
      match n with
      | Nil => panic
      | Node _ ni _ nl nr =>
        let cmp := c si ni in
        if cmp =? 0 then
          j <- combinedChildren fuel c n ;;
          j1 <- subtract fuel c j sr ;;
          subtract fuel c j1 sl
        else if cmp =? -1 then
          match nl with
          | Nil => ret n
          | Node _ _ _ _ _ =>
            t <- copyWithRight subtracting Nil ;;
            t' <- balance t ;;
            l' <- subtract fuel c nl t' ;;
            n1 <- copyWithLeft n l' ;;
            n2 <- balance n1 ;;
            subtract fuel c n2 sr
          end
        else
          match nr with
          | Nil => ret n
          | Node _ _ _ _ _ =>
            t <- copyWithLeft subtracting Nil ;;
            t' <- balance t ;;
            r' <- subtract fuel c nr t' ;;
            n1 <- copyWithRight n r' ;;
            n2 <- balance n1 ;;
            subtract fuel c n2 sl
          end
      end
    end
  end.

(** ** The public tree *)

Record RedBlackTree : Type := mkTree { compare : Compare; root : node }.

(** [*RedBlackTree[T]]: [None] is the nil pointer. *)
Definition treeptr := option RedBlackTree.

Definition NewRedBlack (compareFn : Compare) : treeptr :=
  Some (mkTree compareFn Nil).

Definition Upsert (fuel : nat) (r : treeptr) (item : T) : M treeptr :=
  match r with
  | None => panic
  | Some t =>
    match root t with
    | Nil =>
        n <- alloc item black Nil Nil ;;
        ret (Some (mkTree (compare t) n))
    | Node _ _ _ _ _ =>
        i <- newNode item ;;
        n <- upsert fuel (compare t) (root t) i ;;
        n' <- copyWithColor n black ;;
        ret (Some (mkTree (compare t) n'))
    end
  end.

Definition Delete (fuel : nat) (r : treeptr) (item : T) : M treeptr :=
  match r with
  | None => panic
  | Some t =>
    match root t with
    | Nil => ret r
    | Node _ _ _ _ _ =>
        i <- newNode item ;;
        n <- subtract fuel (compare t) (root t) i ;;
        n' <- copyWithColor n black ;;
        ret (Some (mkTree (compare t) n'))
    end
  end.

Definition Subtract (fuel : nat) (r other : treeptr) : M treeptr :=
  match r with
  | None => panic
  | Some t =>
    match root t with
    | Nil => ret r
    | Node _ _ _ _ _ =>
      match other with
      | None => panic
      | Some o =>
        n <- subtract fuel (compare t) (root t) (root o) ;;
        n' <- copyWithColor n black ;;
        ret (Some (mkTree (compare t) n'))
      end
    end
  end.

Definition Union (fuel : nat) (r other : treeptr) : M treeptr :=
  match r with
  | None => panic
  | Some t =>
    match root t with
    | Nil => ret other
    | Node _ _ _ _ _ =>
      match other with
      | None => panic
      | Some o =>
        n <- upsert fuel (compare t) (root t) (root o) ;;
        n' <- copyWithColor n black ;;
        ret (Some (mkTree (compare t) n'))
      end
    end
  end.

Definition Intersection (fuel : nat) (r other : treeptr) : M treeptr :=
  match r with
  | None => panic
  | Some t =>
    match root t with
    | Nil => ret None
    | Node _ _ _ _ _ =>
      match other with
      | None => panic
      | Some o =>
        n <- intersection fuel (compare t) (root t) (root o) ;;
        n' <- copyWithColor n black ;;
        ret (Some (mkTree (compare t) n'))
      end
    end
  end.

(** ** The iterator *)

Record nodeIterator : Type :=
  mkIter { unprocStack : list node; current : node }.

(** The loop of [Iterator]: walk down the left spine, appending every node
    left behind to the stack. *)
Fixpoint leftmost (n : node) (stack : list node) : nodeIterator :=
  match n with
  | Nil => mkIter stack n
  | Node _ _ _ l _ =>
    match l with
    | Nil => mkIter stack n
    | Node _ _ _ _ _ => leftmost l (stack ++ [n])
    end
  end.

Definition Iterator (r : treeptr) : outcome nodeIterator :=
  match r with
  | None => Panic
  | Some t =>
    match root t with
    | Nil => Ok (mkIter [] Nil)
    | Node _ _ _ _ _ => Ok (leftmost (root t) [])
    end
  end.

Variable zeroVal : T.

Definition Elem (it : nodeIterator) : T :=
  match current it with
  | Nil => zeroVal
  | Node _ x _ _ _ => x
  end.

Definition HasElem (it : nodeIterator) : bool :=
  match current it with
  | Nil => false
  | Node _ _ _ _ _ => true
  end.

(** The inner loop of [Next]: [for cursor != nil { push cursor; cursor =
    cursor.left }]. *)
Fixpoint pushSpine (cursor : node) (stack : list node) : list node :=
  match cursor with
  | Nil => stack
  | Node _ _ _ l _ => pushSpine l (stack ++ [cursor])
  end.

Definition Next (it : nodeIterator) : nodeIterator :=
  match current it with
  | Nil => it
  | Node _ _ _ _ r =>
    let stack := pushSpine r (unprocStack it) in
    if (1 <=? length stack)%nat
    then mkIter (removelast stack) (last stack Nil)
    else mkIter stack Nil
  end.

(** The loop the package documents for its callers:
    [for it := v.Iterator(); it.HasElem(); it.Next() { elem := it.Elem() }]. *)
Fixpoint drain (fuel : nat) (it : nodeIterator) : outcome (list T) :=
  match fuel with
  | O => OutOfFuel
  | S fuel =>
    if HasElem it then
      match drain fuel (Next it) with
      | Ok l => Ok (Elem it :: l)
      | Panic => Panic
      | OutOfFuel => OutOfFuel
      end
    else Ok []
  end.

Definition iterate (fuel : nat) (r : treeptr) : outcome (list T) :=
  match Iterator r with
  | Ok it => drain fuel it
  | Panic => Panic
  | OutOfFuel => OutOfFuel
  end.

End Tree.

Arguments Nil {T}.
Arguments Node {T} addr item c left right.
Arguments mkTree {T} compare root.
Arguments compare {T} r.
Arguments root {T} r.
Arguments mkIter {T} unprocStack current.
Arguments unprocStack {T} n.
Arguments current {T} n.
Arguments alloc {T}.
Arguments copyWithEntry {T}.
Arguments copyWithLeft {T}.
Arguments copyWithRight {T}.
Arguments copyWithColor {T}.
Arguments newNode {T}.
Arguments balance {T}.
Arguments upsert {T}.
Arguments combinedChildren {T}.
Arguments intersection {T}.
Arguments subtract {T}.
Arguments NewRedBlack {T}.
Arguments Upsert {T}.
Arguments Delete {T}.
Arguments Subtract {T}.
Arguments Union {T}.
Arguments Intersection {T}.
Arguments leftmost {T}.
Arguments Iterator {T}.
Arguments Elem {T}.
Arguments HasElem {T}.
Arguments pushSpine {T}.
Arguments Next {T}.
Arguments drain {T}.
Arguments iterate {T}.

(** ** The caller of example.go: integer keys *)

(** [func compare(a, b int) int] of example.go. *)
Definition compare_int (a b : Z) : Z :=
  if a <? b then -1 else if a =? b then 0 else 1.

(** A comparator that answers -2, 0 or +2. *)
Definition compare_twice (a b : Z) : Z := 2 * compare_int a b.

(** A comparator that answers -1, 0 or +7. *)
Definition compare_seven (a b : Z) : Z :=
  if a <? b then -1 else if a =? b then 0 else 7.

(** Inserting the items of a list one at a time into an empty tree, as the
    loops of example.go do. *)
Fixpoint upsertAll (fuel : nat) (r : treeptr Z) (items : list Z)
  : M (treeptr Z) :=
  match items with
  | [] => ret r
  | i :: rest => r' <- Upsert fuel r i ;; upsertAll fuel r' rest
  end.

Definition build (fuel : nat) (c : Compare Z) (items : list Z)
  : M (treeptr Z) :=
  upsertAll fuel (NewRedBlack c) items.

(** The tree the upserts 2, 1, 3 build from an empty heap; the next free
    address is then 5. *)
Definition tree213 : node Z :=
  Node 4 2 black (Node 1 1 red Nil Nil) (Node 3 3 red Nil Nil).

(** ** Observations on trees *)

Section Observations.

Context {T : Type}.

Fixpoint size (n : node T) : nat :=
  match n with
  | Nil => O
  | Node _ _ _ l r => S (size l + size r)
  end.

(** The items of a tree from left to right. *)
Fixpoint inorder (n : node T) : list T :=
  match n with
  | Nil => []
  | Node _ x _ l r => inorder l ++ x :: inorder r
  end.

Definition isRedNode (n : node T) : bool :=
  match n with
  | Node _ _ true _ _ => true
  | _ => false
  end.

(** Invariant 1: no red node has a red child. *)
Fixpoint noRedRed (n : node T) : bool :=
  match n with
  | Nil => true
  | Node _ _ c l r =>
    negb (c && (isRedNode l || isRedNode r)) && noRedRed l && noRedRed r
  end.

(** Invariant 2: the number of black nodes on every path from [n] to an
    empty child, when it is the same on all of them. *)
Fixpoint blackHeight (n : node T) : option nat :=
  match n with
  | Nil => Some O
  | Node _ _ c l r =>
    match blackHeight l, blackHeight r with
    | Some hl, Some hr =>
      if Nat.eqb hl hr then Some (if c then hl else S hl) else None
    | _, _ => None
    end
  end.

Definition equalBlackHeight (n : node T) : bool :=
  match blackHeight n with
  | Some _ => true
  | None => false
  end.

Fixpoint allItems (p : T -> bool) (n : node T) : bool :=
  match n with
  | Nil => true
  | Node _ x _ l r => p x && allItems p l && allItems p r
  end.

(** Invariant 3: every item is above all the items of its left subtree and
    below all those of its right subtree; "below" is a negative result of the
    comparator. *)
Definition below (c : Compare T) (a b : T) : Prop := c a b < 0.

Fixpoint ordered (c : Compare T) (n : node T) : bool :=
  match n with
  | Nil => true
  | Node _ x _ l r =>
    allItems (fun y => c y x <? 0) l && allItems (fun y => c x y <? 0) r
    && ordered c l && ordered c r
  end.

Definition validTree (t : RedBlackTree T) : bool :=
  noRedRed (root t) && equalBlackHeight (root t)
  && ordered (compare t) (root t).

(** An item occurs in a tree. *)
Fixpoint hasItem (x : T) (n : node T) : Prop :=
  match n with
  | Nil => False
  | Node _ y _ l r => y = x \/ hasItem x l \/ hasItem x r
  end.

(** What the node on top of the stack still owes the traversal: its own item
    and its right subtree. *)
Definition visit (n : node T) : list T :=
  match n with
  | Nil => []
  | Node _ x _ _ r => x :: inorder r
  end.

(** The items owed by a whole stack; the top of the stack is its last
    element. *)
Definition pending (stack : list (node T)) : list T :=
  flat_map visit (rev stack).

(** The items an iterator has not produced yet. *)
Definition remaining (it : nodeIterator T) : list T :=
  match current it with
  | Nil => []
  | Node _ _ _ _ _ => visit (current it) ++ pending (unprocStack it)
  end.

Definition nonNil (n : node T) : Prop := n <> Nil.

(** ** Sharing *)

(** [subtree s t]: the node [s] is [t] itself or lies below it. *)
Fixpoint subtree (s t : node T) : Prop :=
  s = t \/
  match t with
  | Nil => False
  | Node _ _ _ l r => subtree s l \/ subtree s r
  end.

(** The nodes [upsert] visits when it descends with the item [x]. *)
Fixpoint onPath (c : Compare T) (x : T) (n : node T) : list (node T) :=
  match n with
  | Nil => []
  | Node _ y _ l r =>
    n :: (if c x y =? 0 then []
          else if c x y =? -1 then onPath c x l else onPath c x r)
  end.

Definition nonNilList (n : node T) : list (node T) :=
  match n with
  | Nil => []
  | Node _ _ _ _ _ => [n]
  end.

(** The subtrees that hang off that path, from left to right. *)
Fixpoint offPath (c : Compare T) (x : T) (n : node T) : list (node T) :=
  match n with
  | Nil => []
  | Node _ y _ l r =>
    if c x y =? 0 then nonNilList l ++ nonNilList r
    else if c x y =? -1 then offPath c x l ++ nonNilList r
    else nonNilList l ++ offPath c x r
  end.

(** Every node of [n] was allocated before the counter reached [k]. *)
Fixpoint allocatedBelow (k : nat) (n : node T) : bool :=
  match n with
  | Nil => true
  | Node a _ _ l r =>
    (a <? k)%nat && allocatedBelow k l && allocatedBelow k r
  end.

(** [n] was allocated once the counter had reached [k]. *)
Definition isNew (k : nat) (n : node T) : Prop :=
  match n with
  | Nil => False
  | Node a _ _ _ _ => (k <= a)%nat
  end.

(** The topmost nodes of [n] allocated before [k], from left to right. *)
Fixpoint olds (k : nat) (n : node T) : list (node T) :=
  match n with
  | Nil => []
  | Node a _ _ l r => if (a <? k)%nat then [n] else olds k l ++ olds k r
  end.

Definition hasRedKid (n : node T) : bool :=
  match n with
  | Nil => false
  | Node _ _ _ l r => isRedNode l || isRedNode r
  end.

Definition redKidsNew (k : nat) (n : node T) : Prop :=
  match n with
  | Nil => True
  | Node _ _ _ l r =>
    (isRedNode l = true -> isNew k l) /\ (isRedNode r = true -> isNew k r)
  end.

(** A child that [balance] may take apart only if it and its red children
    are new. *)
Definition safeChild (k : nat) (n : node T) : Prop :=
  isRedNode n = true -> hasRedKid n = true -> isNew k n /\ redKidsNew k n.

(** The four restructurings of [balance], with the addresses of the three
    nodes it allocates from the counter [k]. *)
Inductive rotation (k : nat) : node T -> node T -> Prop :=
| rot_top a z la x p lra y q1 q2 r :
    rotation k
      (Node a z black (Node la x red p (Node lra y red q1 q2)) r)
      (Node (S (S k)) y red (Node k x black p q1) (Node (S k) z black q2 r))
| rot_left a z la y lla x p1 p2 q r :
    isRedNode q = false ->
    rotation k
      (Node a z black (Node la y red (Node lla x red p1 p2) q) r)
      (Node (S (S k)) y red (Node k x black p1 p2) (Node (S k) z black q r))
| rot_right a z l ra y p rra x q1 q2 :
    (isRedNode l = true -> hasRedKid l = false) ->
    rotation k
      (Node a z black l (Node ra y red p (Node rra x red q1 q2)))
      (Node (S (S k)) y red (Node k z black l p) (Node (S k) x black q1 q2))
| rot_bottom a z l ra y rla x p1 p2 q :
    (isRedNode l = true -> hasRedKid l = false) ->
    isRedNode q = false ->
    rotation k
      (Node a z black l (Node ra y red (Node rla x red p1 p2) q))
      (Node (S (S k)) x red (Node k z black l p1) (Node (S k) y black p2 q)).

End Observations.

(** Running a computation from an empty heap. *)
Definition run {A} (m : M A) : outcome A := value (m O).

(** A computation finishes: it returns a value that satisfies [P], or it
    stops in a nil dereference; it does not run out of fuel. *)
Definition finishes {A} (P : A -> Prop) (o : outcome (A * nat)) : Prop :=
  match o with
  | Ok (a, _) => P a
  | Panic => True
  | OutOfFuel => False
  end.

(** A computation returns a value that satisfies [P]. *)
Definition returns {A} (P : A -> Prop) (o : outcome (A * nat)) : Prop :=
  match o with
  | Ok (a, _) => P a
  | Panic => False
  | OutOfFuel => False
  end.

(** [extends o' o]: once the run [o] did not run out of fuel, the run [o']
    with more fuel has the same outcome. *)
Definition extends {A} (o' o : outcome A) : Prop :=
  o <> OutOfFuel -> o' = o.

(** With the fuel [bound] the run finishes, and with any more fuel its
    outcome is the same. *)
Definition finishesFrom {A} (P : A -> Prop) (f : nat -> outcome (A * nat))
  (bound : nat) : Prop :=
  finishes P (f bound) /\ forall d, f (bound + d)%nat = f bound.

(** With the fuel [bound] the run returns a value, and with any more fuel
    it returns the same. *)
Definition returnsFrom {A} (P : A -> Prop) (f : nat -> outcome (A * nat))
  (bound : nat) : Prop :=
  returns P (f bound) /\ forall d, f (bound + d)%nat = f bound.

(** The comparator that returns exactly -1, 0 or +1 with the sign of [c]. *)
Definition canonical {T} (c : Compare T) : Compare T :=
  fun a b => Z.sgn (c a b).

(** The root a public operation returns, without the comparator stored next
    to it. *)
Definition rootOf {T} (r : outcome (treeptr T * nat))
  : outcome (option (node T) * nat) :=
  match r with
  | Ok (Some t, k) => Ok (Some (root t), k)
  | Ok (None, k) => Ok (None, k)
  | Panic => Panic
  | OutOfFuel => OutOfFuel
  end.

(** Whether a computation returns a tree that satisfies the three
    invariants. *)
Definition validResult (m : M (treeptr Z)) : bool :=
  match run m with
  | Ok (Some t) => validTree t
  | _ => false
  end.

(** The items a caller reads from the tree a computation returns. *)
Definition contents (fuel : nat) (m : M (treeptr Z)) : outcome (list Z) :=
  match run m with
  | Ok t => iterate 0 fuel t
  | Panic => Panic
  | OutOfFuel => OutOfFuel
  end.

(** ** Further definitions *)

Section ExtraDefs.
Context {T : Type}.

(** A tree in which [balance] finds none of its four patterns. *)
Definition stable (t : node T) : Prop :=
  match t with
  | Node _ _ false l r =>
    (isRedNode l = true -> hasRedKid l = false) /\
    (isRedNode r = true -> hasRedKid r = false)
  | _ => True
  end.

(** Invariant 1 below the root: the root may be red with a red child. *)
Definition nearly (n : node T) : bool :=
  match n with
  | Nil => true
  | Node _ _ _ l r => noRedRed l && noRedRed r
  end.

(** The items of [n] from left to right once [upsert] has descended with
    the item [x]: [x] takes the place of the item the comparator finds
    equal, or the empty place the descent ends at. *)
Fixpoint inserted (c : Compare T) (x : T) (n : node T) : list T :=
  match n with
  | Nil => [x]
  | Node _ y _ l r =>
    if c x y =? 0 then inorder l ++ x :: inorder r
    else if c x y =? -1 then inserted c x l ++ y :: inorder r
    else inorder l ++ y :: inserted c x r
  end.

End ExtraDefs.

(** The laws of a comparator as the code reads it: zero is "equal", -1 is
    "less", anything else is "greater". *)
Record lawful {T : Type} (c : Compare T) : Prop := {
  law_minus_one : forall a b, below c a b -> c a b = -1;
  law_irrefl : forall a, ~ below c a a;
  law_trans : forall a b d, below c a b -> below c b d -> below c a d;
  law_greater : forall a b, c a b <> 0 -> c a b <> -1 -> below c b a;
  law_less : forall a b, below c a b -> c b a <> 0 /\ c b a <> -1;
  law_equal_left : forall a b d, c a b = 0 -> below c d b -> below c d a;
  law_equal_right : forall a b d, c a b = 0 -> below c b d -> below c a d
}.

Section Unused.

Context {T : Type}.

(** [withMaybeNewLeft] and [withMaybeNewRight]: no function of the package
    calls them.  [n.left] reads through the receiver. *)
Definition withMaybeNewLeft (fuel : nat) (c : Compare T) (n inserting : node T)
  : M (node T) :=
  match inserting with
  | Nil => ret n
  | Node _ _ _ _ _ =>
    match n with
    | Nil => panic
    | Node _ _ _ Nil _ =>
        n1 <- copyWithLeft n inserting ;;
        balance n1
    | Node _ _ _ l _ => upsert fuel c l inserting
    end
  end.

Definition withMaybeNewRight (fuel : nat) (c : Compare T) (n inserting : node T)
  : M (node T) :=
  match inserting with
  | Nil => ret n
  | Node _ _ _ _ _ =>
    match n with
    | Nil => panic
    | Node _ _ _ _ Nil =>
        n1 <- copyWithRight n inserting ;;
        balance n1
    | Node _ _ _ _ r => upsert fuel c r inserting
    end
  end.

End Unused.

(** The iterator after [i] calls of [Next]. *)
Definition advance {T} (i : nat) (it : nodeIterator T) : nodeIterator T :=
  Nat.iter i Next it.

(** Two more trees of the integer caller, at the addresses after those of
    [tree213]: the items 2, 3, 4, and the items 1 and 5 around them.  The
    next free address is then 10. *)
Definition tree234 : node Z :=
  Node 7 3 black (Node 5 2 red Nil Nil) (Node 6 4 red Nil Nil).

Definition tree15 : node Z :=
  Node 9 1 black Nil (Node 8 5 red Nil Nil).

(** The tree [Subtract] returns for the trees built from 9, 10, 7, 6, 1, 8
    and from 7, 4, 9, 6: the red node 8 has the red child 10.  The next free
    address is then 41. *)
Definition tree1_8_10 : node Z :=
  Node 40 1 black Nil (Node 38 8 red Nil (Node 1 10 red Nil Nil)).

(** * Properties *)

(** ** The iterator *)

Section IteratorFacts.

Context {T : Type}.
Variable zeroVal : T.

Lemma pending_push (s : list (node T)) (n : node T) :
  pending (s ++ [n]) = visit n ++ pending s.
Proof.
  unfold pending. rewrite rev_unit. simpl. reflexivity.
Qed.

Lemma leftmost_remaining (n : node T) :
  forall s, n <> Nil -> Forall nonNil s ->
    remaining (leftmost n s) = inorder n ++ pending s /\
    Forall nonNil (unprocStack (leftmost n s)).
Proof.
  induction n as [|a x c l IHl r _]; intros s Hn Hs.
  - contradiction.
  - destruct l as [|la lx lc ll lr].
    + simpl. split; [reflexivity | assumption].
    + change (leftmost (Node a x c (Node la lx lc ll lr) r) s)
        with (leftmost (Node la lx lc ll lr) (s ++ [Node a x c (Node la lx lc ll lr) r])).
      assert (Hs2 : Forall nonNil (s ++ [Node a x c (Node la lx lc ll lr) r])).
      { apply Forall_app. split; [assumption|].
        constructor; [discriminate | constructor]. }
      destruct (IHl _ ltac:(discriminate) Hs2) as [E W].
      * split; [|exact W].
        rewrite E, pending_push.
        change (inorder (Node a x c (Node la lx lc ll lr) r))
          with (inorder (Node la lx lc ll lr) ++ x :: inorder r).
        simpl visit. rewrite <- app_assoc. reflexivity.
Qed.

Lemma pushSpine_top (r : node T) :
  forall s, r <> Nil -> Forall nonNil s ->
    exists top s', pushSpine r s = s' ++ [top] /\ top <> Nil /\
      Forall nonNil s' /\
      visit top ++ pending s' = inorder r ++ pending s.
Proof.
  induction r as [|a x c l IHl rr _]; intros s Hr Hs.
  - contradiction.
  - simpl pushSpine. destruct l as [|la lx lc ll lr].
    + exists (Node a x c Nil rr), s. simpl. repeat split; assumption.
    + assert (Hs2 : Forall nonNil (s ++ [Node a x c (Node la lx lc ll lr) rr])).
      { apply Forall_app. split; [assumption|].
        constructor; [discriminate | constructor]. }
      destruct (IHl _ ltac:(discriminate) Hs2) as (top & s' & E & Ht & Hs' & Hv).
      * exists top, s'. repeat split; try assumption.
        rewrite Hv, pending_push.
        change (inorder (Node a x c (Node la lx lc ll lr) rr))
          with (inorder (Node la lx lc ll lr) ++ x :: inorder rr).
        simpl visit. rewrite <- app_assoc. reflexivity.
Qed.

Lemma nonempty_snoc (s : list (node T)) :
  s <> [] -> exists s' top, s = s' ++ [top].
Proof.
  intros H. exists (removelast s), (last s Nil).
  apply app_removelast_last. assumption.
Qed.

Lemma pop_snoc (s' : list (node T)) (top : node T) :
  (if (1 <=? length (s' ++ [top]))%nat
   then mkIter (removelast (s' ++ [top])) (last (s' ++ [top]) Nil)
   else mkIter (s' ++ [top]) Nil) = mkIter s' top.
Proof.
  rewrite length_app. simpl length.
  replace (length s' + 1)%nat with (S (length s')) by lia.
  change (1 <=? S (length s'))%nat with true. cbv iota.
  rewrite removelast_last, last_last. reflexivity.
Qed.

Lemma remaining_top (s' : list (node T)) (top : node T) :
  top <> Nil -> remaining (mkIter s' top) = visit top ++ pending s'.
Proof.
  intros H. destruct top; [contradiction H; reflexivity | reflexivity].
Qed.

Lemma Next_remaining (it : nodeIterator T) :
  Forall nonNil (unprocStack it) ->
  remaining (Next it) = tl (remaining it) /\
  Forall nonNil (unprocStack (Next it)).
Proof.
  destruct it as [stk cur]. cbn [unprocStack]. intros Hs.
  destruct cur as [|a x c l r].
  - split; [reflexivity | assumption].
  - unfold Next. cbn [current unprocStack].
    change (remaining (mkIter stk (Node a x c l r)))
      with (x :: inorder r ++ pending stk).
    cbn [tl].
    destruct r as [|ra rx rc rl rr].
    + cbn [pushSpine inorder app]. destruct stk as [|h t].
      * split; [reflexivity | constructor].
      * destruct (nonempty_snoc (h :: t) ltac:(discriminate)) as (s' & top & E).
        rewrite E in *. clear E.
        apply Forall_app in Hs. destruct Hs as [Hs' Ht].
        inversion Ht as [|? ? Htop _]; subst.
        rewrite pop_snoc. cbn [unprocStack].
        rewrite remaining_top, pending_push by exact Htop.
        split; [reflexivity | assumption].
    + destruct (pushSpine_top (Node ra rx rc rl rr) stk ltac:(discriminate) Hs)
        as (top & s' & E & Ht & Hs' & Hv).
      rewrite E, pop_snoc. cbn [unprocStack].
      rewrite remaining_top by exact Ht.
      split; [exact Hv | assumption].
Qed.

Lemma drain_remaining (fuel : nat) :
  forall it, Forall nonNil (unprocStack it) ->
    (length (remaining it) < fuel)%nat ->
    drain zeroVal fuel it = Ok (remaining it).
Proof.
  induction fuel as [|fuel IH]; intros it Hs Hlen.
  - lia.
  - cbn [drain]. destruct (Next_remaining it Hs) as [Hn Hs'].
    destruct it as [stk cur]. destruct cur as [|a x c l r].
    + reflexivity.
    + change (HasElem (mkIter stk (Node a x c l r))) with true. cbv iota.
      rewrite (IH _ Hs').
      * rewrite Hn. reflexivity.
      * rewrite Hn. revert Hlen.
        change (remaining (mkIter stk (Node a x c l r)))
          with (x :: inorder r ++ pending stk).
        cbn [tl length]. lia.
Qed.

Lemma inorder_length (n : node T) : length (inorder n) = size n.
Proof.
  induction n as [|a x c l IHl r IHr]; [reflexivity|].
  cbn [inorder size]. rewrite length_app. cbn [length]. lia.
Qed.

(** A fresh iterator produces the items of the tree from left to right. *)
Lemma iterate_inorder (c : Compare T) (n : node T) (fuel : nat) :
  (size n < fuel)%nat ->
  iterate zeroVal fuel (Some (mkTree c n)) = Ok (inorder n).
Proof.
  intros Hf. unfold iterate, Iterator. cbn [root].
  destruct n as [|a x col l r].
  - destruct fuel; [lia | reflexivity].
  - destruct (leftmost_remaining (Node a x col l r) [] ltac:(discriminate)
                ltac:(constructor)) as [E W].
    rewrite drain_remaining.
    + rewrite E. unfold pending. cbn [rev flat_map]. rewrite app_nil_r.
      reflexivity.
    + exact W.
    + rewrite E. unfold pending. cbn [rev flat_map]. rewrite app_nil_r.
      rewrite inorder_length. exact Hf.
Qed.

Lemma inorder_hasItem (x : T) (n : node T) :
  In x (inorder n) <-> hasItem x n.
Proof.
  induction n as [|a y c l IHl r IHr]; [reflexivity|].
  cbn [inorder hasItem]. rewrite in_app_iff. cbn [In].
  rewrite IHl, IHr. tauto.
Qed.

Lemma allItems_Forall (p : T -> bool) (n : node T) :
  allItems p n = true -> Forall (fun y => p y = true) (inorder n).
Proof.
  induction n as [|a y c l IHl r IHr]; cbn [allItems inorder].
  - constructor.
  - rewrite !andb_true_iff. intros [[Hy Hl] Hr].
    apply Forall_app. split; [auto|]. constructor; auto.
Qed.

Section Order.

Variable c : Compare T.
Hypothesis below_irrefl : forall a, ~ below c a a.
Hypothesis below_trans :
  forall a b d, below c a b -> below c b d -> below c a d.

Lemma StronglySorted_join (l1 l2 : list T) (x : T) :
  StronglySorted (below c) l1 -> StronglySorted (below c) l2 ->
  Forall (fun y => below c y x) l1 -> Forall (fun y => below c x y) l2 ->
  StronglySorted (below c) (l1 ++ x :: l2).
Proof.
  intros S1 S2 F1 F2. induction S1 as [|y l1 S1 IH Hy]; cbn [app].
  - constructor; assumption.
  - inversion F1 as [|? ? Hyx F1']; subst. constructor.
    + apply IH. assumption.
    + apply Forall_app. split; [assumption|]. constructor; [assumption|].
      eapply Forall_impl; [|exact F2]. cbv beta. intros z Hz.
      exact (below_trans _ _ _ Hyx Hz).
Qed.

Lemma ordered_StronglySorted (n : node T) :
  ordered c n = true -> StronglySorted (below c) (inorder n).
Proof.
  induction n as [|a x col l IHl r IHr]; cbn [ordered inorder].
  - constructor.
  - rewrite !andb_true_iff. intros [[[Hl Hr] Ol] Or].
    apply StronglySorted_join; auto.
    + eapply Forall_impl; [|exact (allItems_Forall _ _ Hl)]. cbv beta.
      intros y Hy. apply Z.ltb_lt. exact Hy.
    + eapply Forall_impl; [|exact (allItems_Forall _ _ Hr)]. cbv beta.
      intros y Hy. apply Z.ltb_lt. exact Hy.
Qed.

Lemma StronglySorted_NoDup (l : list T) :
  StronglySorted (below c) l -> NoDup l.
Proof.
  induction 1 as [|x l S IH Hx]; constructor; [|assumption].
  intros Hin. rewrite Forall_forall in Hx.
  exact (below_irrefl x (Hx x Hin)).
Qed.

End Order.

End IteratorFacts.

(** ** Comparators *)

Section Comparators.

Context {T : Type}.
Variables c c' : Compare T.
Hypothesis same_zero : forall a b, (c a b =? 0) = (c' a b =? 0).
Hypothesis same_minus_one : forall a b, (c a b =? -1) = (c' a b =? -1).

Lemma bind_ext {A B} (m m' : M A) (f g : A -> M B) (k : nat) :
  m k = m' k -> (forall a k', f a k' = g a k') ->
  bind m f k = bind m' g k.
Proof.
  intros Hm Hf. unfold bind. rewrite Hm.
  destruct (m' k) as [[a k']| |]; auto.
Qed.

Ltac ext_step IH :=
  repeat first
    [ reflexivity
    | apply IH
    | apply bind_ext; [try reflexivity; try apply IH | intros ? ?] ].

Lemma upsert_ext (fuel : nat) :
  forall n m k, upsert fuel c n m k = upsert fuel c' n m k.
Proof.
  induction fuel as [|fuel IH]; intros n m k; [reflexivity|].
  cbn [upsert]. destruct m as [|ma mi mc ml mr]; [reflexivity|].
  destruct n as [|na ni nc nl nr]; [reflexivity|].
  cbv zeta. rewrite same_zero, same_minus_one.
  destruct (c' mi ni =? 0); [ext_step IH|].
  destruct (c' mi ni =? -1).
  - destruct nl; ext_step IH.
  - destruct nr; ext_step IH.
Qed.

Lemma combinedChildren_ext (fuel : nat) (n : node T) (k : nat) :
  combinedChildren fuel c n k = combinedChildren fuel c' n k.
Proof.
  destruct n as [|a x col l r]; [reflexivity|].
  destruct l; [reflexivity|]. apply upsert_ext.
Qed.

Lemma subtract_ext (fuel : nat) :
  forall n m k, subtract fuel c n m k = subtract fuel c' n m k.
Proof.
  induction fuel as [|fuel IH]; intros n m k; [reflexivity|].
  cbn [subtract]. destruct m as [|ma mi mc ml mr]; [reflexivity|].
  destruct n as [|na ni nc nl nr]; [reflexivity|].
  cbv zeta. rewrite same_zero, same_minus_one.
  destruct (c' mi ni =? 0).
  - apply bind_ext; [apply combinedChildren_ext | intros ? ?]. ext_step IH.
  - destruct (c' mi ni =? -1).
    + destruct nl; ext_step IH.
    + destruct nr; ext_step IH.
Qed.

Lemma intersection_ext (fuel : nat) :
  forall n m k, intersection fuel c n m k = intersection fuel c' n m k.
Proof.
  induction fuel as [|fuel IH]; intros n m k; [reflexivity|].
  cbn [intersection]. destruct n as [|na ni nc nl nr]; [reflexivity|].
  destruct m as [|ma mi mc ml mr]; [reflexivity|].
  cbv zeta. rewrite same_zero, same_minus_one.
  destruct (c' mi ni =? 0); [ext_step IH|].
  destruct (c' mi ni =? -1).
  - apply bind_ext; [reflexivity | intros t k1].
    apply bind_ext; [reflexivity | intros t' k2].
    apply bind_ext; [apply IH | intros li k3]. destruct li; ext_step IH.
  - apply bind_ext; [reflexivity | intros t k1].
    apply bind_ext; [reflexivity | intros t' k2].
    apply bind_ext; [apply IH | intros ri k3]. destruct ri; ext_step IH.
Qed.

Lemma rootOf_bind_ext {A} (m m' : M A) (f g : A -> M (treeptr T)) (k : nat) :
  m k = m' k -> (forall a k', rootOf (f a k') = rootOf (g a k')) ->
  rootOf (bind m f k) = rootOf (bind m' g k).
Proof.
  intros Hm Hf. unfold bind. rewrite Hm.
  destruct (m' k) as [[a k']| |]; auto.
Qed.

Ltac root_step :=
  repeat first
    [ reflexivity
    | apply rootOf_bind_ext;
      [ first [ reflexivity | apply upsert_ext | apply subtract_ext
              | apply intersection_ext ]
      | intros ? ? ] ].

Lemma public_ext (fuel : nat) (n : node T) (x : T) (other : treeptr T)
  (k : nat) :
  rootOf (Upsert fuel (Some (mkTree c n)) x k)
  = rootOf (Upsert fuel (Some (mkTree c' n)) x k) /\
  rootOf (Delete fuel (Some (mkTree c n)) x k)
  = rootOf (Delete fuel (Some (mkTree c' n)) x k) /\
  rootOf (Union fuel (Some (mkTree c n)) other k)
  = rootOf (Union fuel (Some (mkTree c' n)) other k) /\
  rootOf (Subtract fuel (Some (mkTree c n)) other k)
  = rootOf (Subtract fuel (Some (mkTree c' n)) other k) /\
  rootOf (Intersection fuel (Some (mkTree c n)) other k)
  = rootOf (Intersection fuel (Some (mkTree c' n)) other k).
Proof.
  unfold Upsert, Delete, Union, Subtract, Intersection. cbn [root compare].
  destruct n as [|a y col l r]; [repeat split; root_step|].
  destruct other as [o|]; repeat split; root_step.
Qed.

End Comparators.

(** ** The rebalancing step *)

Section Balance.

Context {T : Type}.

Ltac rotation_side :=
  cbn; first [ reflexivity | discriminate | intros; reflexivity
             | intros; discriminate ].

(** [balance] returns its argument or one of the four restructurings, for
    which it allocates three nodes. *)
Lemma balance_cases (t : node T) (k : nat) :
  balance t k = Ok (t, k) \/
  exists B, rotation k t B /\ balance t k = Ok (B, S (S (S k))).
Proof.
  destruct t as [|a z [|] l r]; [left; reflexivity | left; reflexivity |].
  destruct l as [|la lx [|] [|lla llx [|] lll llr] [|lra lrx [|] lrl lrr]];
  destruct r as [|ra rx [|] [|rla rlx [|] rll rlr] [|rra rrx [|] rrl rrr]];
    first
      [ left; reflexivity
      | right; eexists; split;
        [ first [ apply rot_top
                | apply rot_left; rotation_side
                | apply rot_right; rotation_side
                | apply rot_bottom; rotation_side ]
        | reflexivity ] ].
Qed.

Lemma rotation_size (k : nat) (t B : node T) :
  rotation k t B -> size B = size t.
Proof.
  destruct 1; cbn [size]; lia.
Qed.

Lemma rotation_inorder (k : nat) (t B : node T) :
  rotation k t B -> inorder B = inorder t.
Proof.
  destruct 1; cbn [inorder]; repeat rewrite <- app_assoc; cbn [app];
    repeat rewrite <- app_assoc; reflexivity.
Qed.

Lemma balance_total (t : node T) (k : nat) :
  exists B k', balance t k = Ok (B, k') /\ size B = size t /\
               (k <= k')%nat /\ (t <> Nil -> B <> Nil).
Proof.
  destruct (balance_cases t k) as [E | (B & R & E)].
  - exists t, k. repeat split; auto.
  - exists B, (S (S (S k))). repeat split; auto.
    + apply (rotation_size _ _ _ R).
    + intros _. destruct R; discriminate.
Qed.

End Balance.

(** ** Structural sharing *)

Section Sharing.

Context {T : Type}.
Variable k0 : nat.

Lemma olds_allocated (n : node T) :
  allocatedBelow k0 n = true -> olds k0 n = nonNilList n.
Proof.
  destruct n as [|a x c l r]; [reflexivity|].
  cbn [allocatedBelow olds nonNilList]. rewrite !andb_true_iff.
  intros [[Ha _] _]. rewrite Ha. reflexivity.
Qed.

Lemma olds_new (a : nat) (x : T) (c : color) (l r : node T) :
  (k0 <= a)%nat -> olds k0 (Node a x c l r) = olds k0 l ++ olds k0 r.
Proof.
  intros H. cbn [olds]. apply Nat.ltb_ge in H. rewrite H. reflexivity.
Qed.

Lemma safeChild_old (n : node T) :
  noRedRed n = true -> safeChild k0 n.
Proof.
  destruct n as [|a x [|] l r]; unfold safeChild; cbn; try discriminate.
  intros H _ Hk. rewrite Hk in H. discriminate.
Qed.

Lemma balance_new (a : nat) (z : T) (col : color) (l r : node T) (k : nat) :
  (k0 <= a)%nat -> (k0 <= k)%nat ->
  (col = black -> safeChild k0 l /\ safeChild k0 r) ->
  (col = red -> redKidsNew k0 (Node a z col l r)) ->
  exists B k',
    balance (Node a z col l r) k = Ok (B, k') /\
    olds k0 B = olds k0 l ++ olds k0 r /\
    isNew k0 B /\ (isRedNode B = true -> redKidsNew k0 B) /\
    (k <= k')%nat.
Proof.
  intros Ha Hk Hblack Hred.
  destruct (balance_cases (Node a z col l r) k) as [E | (B & R & E)].
  - exists (Node a z col l r), k. split; [exact E|].
    split; [apply olds_new; exact Ha|]. split; [exact Ha|].
    split; [|lia]. destruct col; [intros _; apply Hred; reflexivity | discriminate].
  - exists B, (S (S (S k))). split; [exact E|].
    inversion R; subst; destruct (Hblack eq_refl) as [Sl Sr]; clear E.
    + destruct Sl as [Hla Hkids]; [reflexivity | cbn; apply orb_true_r |].
      destruct Hkids as [_ Hlra]. specialize (Hlra eq_refl).
      cbn [isNew] in Hla, Hlra.
      rewrite !olds_new by lia. rewrite <- !app_assoc.
      repeat split; try (cbn; lia); discriminate.
    + destruct Sl as [Hla Hkids]; [reflexivity | reflexivity |].
      destruct Hkids as [Hlla _]. specialize (Hlla eq_refl).
      cbn [isNew] in Hla, Hlla.
      rewrite !olds_new by lia. rewrite <- !app_assoc.
      repeat split; try (cbn; lia); discriminate.
    + destruct Sr as [Hra Hkids]; [reflexivity | cbn; apply orb_true_r |].
      destruct Hkids as [_ Hrra]. specialize (Hrra eq_refl).
      cbn [isNew] in Hra, Hrra.
      rewrite !olds_new by lia. rewrite <- !app_assoc.
      repeat split; try (cbn; lia); discriminate.
    + destruct Sr as [Hra Hkids]; [reflexivity | reflexivity |].
      destruct Hkids as [Hrla _]. specialize (Hrla eq_refl).
      cbn [isNew] in Hra, Hrla.
      rewrite !olds_new by lia. rewrite <- !app_assoc.
      repeat split; try (cbn; lia); discriminate.
Qed.

Lemma bind_ok {A B} (m : M A) (f : A -> M B) (k k1 : nat) (a : A) :
  m k = Ok (a, k1) -> bind m f k = f a k1.
Proof. intros E. unfold bind. rewrite E. reflexivity. Qed.

Lemma noRedRed_kid (n : node T) :
  noRedRed n = true -> isRedNode n = true -> hasRedKid n = false.
Proof.
  destruct n as [|a y [|] l r]; cbn; try discriminate.
  intros H _. destruct (isRedNode l || isRedNode r); [discriminate | reflexivity].
Qed.

Lemma balance_noop (a : nat) (z : T) (col : color) (l r : node T) (k : nat) :
  (isRedNode l = true -> hasRedKid l = false) ->
  (isRedNode r = true -> hasRedKid r = false) ->
  balance (Node a z col l r) k = Ok (Node a z col l r, k).
Proof.
  intros Hl Hr.
  destruct (balance_cases (Node a z col l r) k) as [E | (B & R & _)];
    [exact E|].
  exfalso. inversion R; subst.
  - specialize (Hl eq_refl). cbn in Hl. rewrite orb_true_r in Hl. discriminate.
  - specialize (Hl eq_refl). discriminate.
  - specialize (Hr eq_refl). cbn in Hr. rewrite orb_true_r in Hr. discriminate.
  - specialize (Hr eq_refl). discriminate.
Qed.

Lemma upsert_nil (fuel : nat) (c : Compare T) (n : node T) (k : nat) :
  (0 < fuel)%nat -> upsert fuel c n Nil k = Ok (n, k).
Proof. destruct fuel; [lia | reflexivity]. Qed.

Lemma allocatedBelow_mono (k k' : nat) (n : node T) :
  (k <= k')%nat -> allocatedBelow k n = true -> allocatedBelow k' n = true.
Proof.
  intros Hk. induction n as [|a y col l IHl r IHr]; [reflexivity|].
  cbn [allocatedBelow]. rewrite !andb_true_iff, !Nat.ltb_lt.
  intros [[Ha Hl] Hr]. repeat split; [lia | auto | auto].
Qed.

Lemma allocatedBelow_node (k a : nat) (y : T) (col : color) (l r : node T) :
  (a < k)%nat -> allocatedBelow k l = true -> allocatedBelow k r = true ->
  allocatedBelow k (Node a y col l r) = true.
Proof.
  intros Ha Hl Hr. cbn [allocatedBelow]. rewrite Hl, Hr.
  apply Nat.ltb_lt in Ha. rewrite Ha. reflexivity.
Qed.

Lemma allocatedBelow_kids (k a : nat) (y : T) (col : color) (l r : node T) :
  allocatedBelow k (Node a y col l r) = true ->
  allocatedBelow k l = true /\ allocatedBelow k r = true.
Proof.
  cbn [allocatedBelow]. rewrite !andb_true_iff. tauto.
Qed.

(** [balance] allocates from the counter only. *)
Lemma balance_allocated (t B : node T) (k k' : nat) :
  allocatedBelow k t = true -> balance t k = Ok (B, k') ->
  allocatedBelow k' B = true.
Proof.
  intros Ht E. destruct (balance_cases t k) as [E' | (B' & R & E')];
    rewrite E' in E; inversion E; subst; clear E; [exact Ht|].
  destruct R;
    repeat match goal with
           | H : allocatedBelow _ (Node _ _ _ _ _) = true |- _ =>
               apply allocatedBelow_kids in H; destruct H
           end;
    repeat (apply allocatedBelow_node; [lia | |]);
    (eapply allocatedBelow_mono; [|eassumption]); lia.
Qed.

Lemma redKidsNew_node (a : nat) (y : T) (nc : color) (l r : node T) :
  (nc = red -> isRedNode l = true -> isNew k0 l) ->
  (nc = red -> isRedNode r = true -> isNew k0 r) ->
  isRedNode (Node a y nc l r) = true -> redKidsNew k0 (Node a y nc l r).
Proof.
  intros Hl Hr Hred. destruct nc; [|discriminate].
  split; [apply Hl | apply Hr]; reflexivity.
Qed.

Variable c : Compare T.
Variable x : T.

Lemma upsert_leaf (fuel : nat) :
  forall (n : node T) (a k : nat),
    (size n < fuel)%nat -> n <> Nil ->
    noRedRed n = true -> allocatedBelow k0 n = true ->
    (k0 <= a)%nat -> (k0 <= k)%nat ->
    exists R k',
      upsert fuel c n (Node a x red Nil Nil) k = Ok (R, k') /\
      olds k0 R = offPath c x n /\
      isNew k0 R /\ (isRedNode R = true -> redKidsNew k0 R) /\
      (k <= k')%nat.
Proof.
  induction fuel as [|fuel IH]; intros n a k Hf Hn Hrr Hold Ha Hk; [lia|].
  destruct n as [|na ni nc nl nr]; [contradiction|].
  cbn [size] in Hf.
  cbn [noRedRed] in Hrr. rewrite !andb_true_iff in Hrr.
  destruct Hrr as [[Hc Hrl] Hrr].
  cbn [allocatedBelow] in Hold. rewrite !andb_true_iff in Hold.
  destruct Hold as [[_ Hol] Hor].
  assert (Hkids : nc = red -> isRedNode nl = false /\ isRedNode nr = false).
  { intros ->. cbn in Hc. destruct (isRedNode nl), (isRedNode nr);
      try discriminate. split; reflexivity. }
  assert (Hf0 : (0 < fuel)%nat) by lia.
  unfold red. cbn [upsert offPath]. cbv zeta.
  destruct (c x ni =? 0) eqn:E0; [|destruct (c x ni =? -1) eqn:E1].
  - (* the item is found: the node is copied with the new item *)
    exists (Node k x nc nl nr), (S k).
    erewrite bind_ok by reflexivity.
    erewrite bind_ok by (apply upsert_nil; exact Hf0).
    erewrite bind_ok
      by (apply balance_noop; apply noRedRed_kid; assumption).
    erewrite bind_ok by (apply upsert_nil; exact Hf0).
    split; [apply balance_noop; apply noRedRed_kid; assumption|].
    rewrite olds_new, !olds_allocated by assumption.
    split; [reflexivity|]. split; [exact Hk|]. split; [|lia].
    apply redKidsNew_node; intros Hnc Hr; destruct (Hkids Hnc) as [E1 E2];
      rewrite ?E1, ?E2 in Hr; discriminate.
  - (* descent to the left *)
    destruct nl as [|la lx lc ll lr].
    + exists (Node k ni nc (Node a x true Nil Nil) nr), (S k).
      erewrite bind_ok by reflexivity.
      split; [apply balance_noop;
              [intros _; reflexivity | apply noRedRed_kid; assumption]|].
      rewrite olds_new by assumption. rewrite (olds_new a) by assumption.
      rewrite (olds_allocated nr) by assumption.
      split; [reflexivity|]. split; [exact Hk|]. split; [|lia].
      apply redKidsNew_node; intros Hnc Hr; [exact Ha|].
      destruct (Hkids Hnc) as [_ E]. rewrite E in Hr. discriminate.
    + erewrite bind_ok by reflexivity.
      erewrite bind_ok by reflexivity.
      destruct (IH (Node la lx lc ll lr) k (S k)) as (L & k1 & EL & OL & NL & PL & Hk1);
        [cbn [size] in *; lia | discriminate | assumption | assumption
        | assumption | lia |].
      unfold red in EL. erewrite bind_ok by exact EL.
      erewrite bind_ok by reflexivity.
      destruct (balance_new k1 ni nc L nr (S k1) ltac:(lia) ltac:(lia))
        as (B & k2 & EB & OB & NB & PB & Hk2).
      * intros _. split; [|apply safeChild_old; assumption].
        intros HrL _. split; [exact NL | exact (PL HrL)].
      * intros Hnc. split; [intros _; exact NL|].
        intros Hr. destruct (Hkids Hnc) as [_ E]. rewrite E in Hr. discriminate.
      * exists B, k2. erewrite bind_ok by exact EB.
        split; [apply upsert_nil; exact Hf0|].
        rewrite OB, OL. rewrite ?(olds_allocated nr), ?(olds_allocated nl) by assumption.
        split; [reflexivity|]. split; [exact NB|]. split; [exact PB | lia].
  - (* descent to the right *)
    destruct nr as [|ra rx rc rl rr].
    + exists (Node k ni nc nl (Node a x true Nil Nil)), (S k).
      erewrite bind_ok by reflexivity.
      split; [apply balance_noop;
              [apply noRedRed_kid; assumption | intros _; reflexivity]|].
      rewrite olds_new by assumption. rewrite (olds_new a) by assumption.
      rewrite (olds_allocated nl) by assumption. cbn [olds app offPath].
      rewrite !app_nil_r.
      split; [reflexivity|]. split; [exact Hk|]. split; [|lia].
      apply redKidsNew_node; intros Hnc Hr; [|exact Ha].
      destruct (Hkids Hnc) as [E _]. rewrite E in Hr. discriminate.
    + erewrite bind_ok by reflexivity.
      erewrite bind_ok by reflexivity.
      destruct (IH (Node ra rx rc rl rr) k (S k)) as (L & k1 & EL & OL & NL & PL & Hk1);
        [cbn [size] in *; lia | discriminate | assumption | assumption
        | assumption | lia |].
      unfold red in EL. erewrite bind_ok by exact EL.
      erewrite bind_ok by reflexivity.
      destruct (balance_new k1 ni nc nl L (S k1) ltac:(lia) ltac:(lia))
        as (B & k2 & EB & OB & NB & PB & Hk2).
      * intros _. split; [apply safeChild_old; assumption|].
        intros HrL _. split; [exact NL | exact (PL HrL)].
      * intros Hnc. split; [|intros _; exact NL].
        intros Hr. destruct (Hkids Hnc) as [E _]. rewrite E in Hr. discriminate.
      * exists B, k2. erewrite bind_ok by exact EB.
        split; [apply upsert_nil; exact Hf0|].
        rewrite OB, OL. rewrite ?(olds_allocated nr), ?(olds_allocated nl) by assumption.
        split; [reflexivity|]. split; [exact NB|]. split; [exact PB | lia].
Qed.

Lemma subtree_refl (n : node T) : subtree n n.
Proof. destruct n; left; reflexivity. Qed.

Lemma subtree_Nil (s : node T) : subtree s Nil -> s = Nil.
Proof. intros [E | []]. exact E. Qed.

Lemma subtree_trans (s m n : node T) :
  subtree s m -> subtree m n -> subtree s n.
Proof.
  intros Hsm. induction n as [|a y col l IHl r IHr]; intros Hmn.
  - apply subtree_Nil in Hmn. subst m. exact Hsm.
  - destruct Hmn as [E | [Hl | Hr]].
    + subst m. exact Hsm.
    + right. left. apply IHl. exact Hl.
    + right. right. apply IHr. exact Hr.
Qed.

Lemma nonNilList_In (s n : node T) : In s (nonNilList n) -> s = n /\ n <> Nil.
Proof.
  destruct n; cbn; [intros [] | intros [E | []]].
  subst s. split; [reflexivity | discriminate].
Qed.

Lemma In_nonNilList (n : node T) : n <> Nil -> In n (nonNilList n).
Proof.
  destruct n; [contradiction | left; reflexivity].
Qed.

Lemma olds_subtree (s n : node T) : In s (olds k0 n) -> subtree s n.
Proof.
  induction n as [|a y col l IHl r IHr]; cbn [olds]; [intros []|].
  destruct (a <? k0)%nat.
  - intros [E | []]. subst s. apply subtree_refl.
  - rewrite in_app_iff. intros [H | H]; right; [left | right]; auto.
Qed.

Lemma olds_cover (s n : node T) :
  s <> Nil -> subtree s n ->
  isNew k0 s \/ exists s', In s' (olds k0 n) /\ subtree s s'.
Proof.
  intros Hs. induction n as [|a y col l IHl r IHr]; intros Hsub.
  - apply subtree_Nil in Hsub. contradiction.
  - cbn [olds]. destruct (Nat.ltb_spec a k0) as [Hlt | Hge].
    + right. exists (Node a y col l r). split; [left; reflexivity | exact Hsub].
    + destruct Hsub as [E | [Hl | Hr]].
      * subst s. left. exact Hge.
      * destruct (IHl Hl) as [N | (s' & Hin & Hs')]; [left; exact N|].
        right. exists s'. split; [apply in_or_app; left; exact Hin | exact Hs'].
      * destruct (IHr Hr) as [N | (s' & Hin & Hs')]; [left; exact N|].
        right. exists s'. split; [apply in_or_app; right; exact Hin | exact Hs'].
Qed.

Lemma offPath_subtree (s n : node T) : In s (offPath c x n) -> subtree s n.
Proof.
  induction n as [|a y col l IHl r IHr]; cbn [offPath]; [intros []|].
  destruct (c x y =? 0); [|destruct (c x y =? -1)];
    rewrite in_app_iff; intros [H | H]; right.
  - left. apply nonNilList_In in H. destruct H as [-> _]. apply subtree_refl.
  - right. apply nonNilList_In in H. destruct H as [-> _]. apply subtree_refl.
  - left. auto.
  - right. apply nonNilList_In in H. destruct H as [-> _]. apply subtree_refl.
  - left. apply nonNilList_In in H. destruct H as [-> _]. apply subtree_refl.
  - right. auto.
Qed.

Lemma offPath_cover (s n : node T) :
  s <> Nil -> subtree s n -> ~ In s (onPath c x n) ->
  exists s', In s' (offPath c x n) /\ subtree s s'.
Proof.
  intros Hs. induction n as [|a y col l IHl r IHr]; intros Hsub Hpath.
  - apply subtree_Nil in Hsub. contradiction.
  - cbn [onPath offPath] in *.
    destruct Hsub as [E | Hsub]; [exfalso; apply Hpath; left; symmetry; exact E|].
    assert (Hkid : forall m, subtree s m -> exists s', In s' (nonNilList m) /\ subtree s s').
    { intros m Hm. exists m. split; [|exact Hm]. apply In_nonNilList.
      intros ->. apply subtree_Nil in Hm. contradiction. }
    destruct (c x y =? 0); [|destruct (c x y =? -1)]; destruct Hsub as [Hl | Hr].
    + destruct (Hkid l Hl) as (s' & Hin & Hs'). exists s'.
      split; [apply in_or_app; left; exact Hin | exact Hs'].
    + destruct (Hkid r Hr) as (s' & Hin & Hs'). exists s'.
      split; [apply in_or_app; right; exact Hin | exact Hs'].
    + destruct (IHl Hl) as (s' & Hin & Hs').
      { intros H. apply Hpath. right. exact H. }
      exists s'. split; [apply in_or_app; left; exact Hin | exact Hs'].
    + destruct (Hkid r Hr) as (s' & Hin & Hs'). exists s'.
      split; [apply in_or_app; right; exact Hin | exact Hs'].
    + destruct (Hkid l Hl) as (s' & Hin & Hs'). exists s'.
      split; [apply in_or_app; left; exact Hin | exact Hs'].
    + destruct (IHr Hr) as (s' & Hin & Hs').
      { intros H. apply Hpath. right. exact H. }
      exists s'. split; [apply in_or_app; right; exact Hin | exact Hs'].
Qed.

(** Forcing the root black keeps the old subtrees where they are. *)
Lemma copyWithColor_new (R : node T) (k : nat) :
  isNew k0 R -> (k0 <= k)%nat ->
  exists R' k', copyWithColor R black k = Ok (R', k') /\
                olds k0 R' = olds k0 R.
Proof.
  destruct R as [|a y [|] l r]; cbn [isNew]; [intros [] | |]; intros Ha Hk.
  - exists (Node k y black l r), (S k). split; [reflexivity|].
    rewrite !olds_new by assumption. reflexivity.
  - exists (Node a y false l r), k. split; reflexivity.
Qed.

End Sharing.

(** ** Allocation *)

Section Allocation.

Context {T : Type}.
Variable c : Compare T.

Lemma bind_inv {A B} (m : M A) (f : A -> M B) (k k' : nat) (b : B) :
  bind m f k = Ok (b, k') ->
  exists a k1, m k = Ok (a, k1) /\ f a k1 = Ok (b, k').
Proof.
  unfold bind. destruct (m k) as [[a k1]| |]; try discriminate.
  intros E. exists a, k1. split; [reflexivity | exact E].
Qed.

(** A node built at the counter from subtrees allocated below it. *)
Lemma alloc_allocated (x : T) (col : color) (l r R : node T) (k k' : nat) :
  allocatedBelow k l = true -> allocatedBelow k r = true ->
  alloc x col l r k = Ok (R, k') ->
  allocatedBelow k' R = true /\ (k <= k')%nat.
Proof.
  intros Hl Hr E. inversion E; subst. split; [|lia].
  apply allocatedBelow_node; [lia | |];
    (eapply allocatedBelow_mono; [|eassumption]); lia.
Qed.

Lemma balance_allocated_le (t B : node T) (k k' : nat) :
  allocatedBelow k t = true -> balance t k = Ok (B, k') ->
  allocatedBelow k' B = true /\ (k <= k')%nat.
Proof.
  intros Ht E. split; [exact (balance_allocated t B k k' Ht E)|].
  destruct (balance_cases t k) as [E' | (B' & _ & E')];
    rewrite E' in E; inversion E; lia.
Qed.

Lemma upsert_allocated (fuel : nat) :
  forall (n ins R : node T) (k k' : nat),
    allocatedBelow k n = true -> allocatedBelow k ins = true ->
    upsert fuel c n ins k = Ok (R, k') ->
    allocatedBelow k' R = true /\ (k <= k')%nat.
Proof.
  induction fuel as [|fuel IH]; intros n ins R k k' Hn Hi E; [discriminate|].
  cbn [upsert] in E.
  destruct ins as [|ia ii ic il ir].
  { inversion E; subst. split; [exact Hn | lia]. }
  destruct n as [|na ni nc nl nr]; [discriminate|].
  cbv zeta in E.
  destruct (allocatedBelow_kids _ _ _ _ _ _ Hn) as [Hnl Hnr].
  destruct (allocatedBelow_kids _ _ _ _ _ _ Hi) as [Hil Hir].
  assert (Hm : forall k1 k2 (t : node T), (k1 <= k2)%nat ->
            allocatedBelow k1 t = true -> allocatedBelow k2 t = true).
  { intros k1 k2 t. apply allocatedBelow_mono. }
  destruct (c ii ni =? 0); [|destruct (c ii ni =? -1)].
  - apply bind_inv in E. destruct E as (n1 & k1 & E1 & E).
    apply alloc_allocated in E1; [|assumption..]. destruct E1 as [A1 L1].
    apply bind_inv in E. destruct E as (n2 & k2 & E2 & E).
    apply IH in E2; [| exact A1 | apply (Hm k); [lia | assumption]].
    destruct E2 as [A2 L2].
    apply bind_inv in E. destruct E as (n3 & k3 & E3 & E).
    apply balance_allocated_le in E3; [|assumption]. destruct E3 as [A3 L3].
    apply bind_inv in E. destruct E as (n4 & k4 & E4 & E).
    apply IH in E4; [| exact A3 | apply (Hm k); [lia | assumption]].
    destruct E4 as [A4 L4].
    apply balance_allocated_le in E; [|assumption]. destruct E as [A5 L5].
    split; [exact A5 | lia].
  - destruct nl as [|la lx lc ll lr].
    + apply bind_inv in E. destruct E as (n1 & k1 & E1 & E).
      apply alloc_allocated in E1; [|assumption..]. destruct E1 as [A1 L1].
      apply balance_allocated_le in E; [|assumption]. destruct E as [A2 L2].
      split; [exact A2 | lia].
    + apply bind_inv in E. destruct E as (t & k1 & E1 & E).
      apply alloc_allocated in E1; [|assumption || reflexivity..].
      destruct E1 as [A1 L1].
      apply bind_inv in E. destruct E as (t' & k2 & E2 & E).
      apply balance_allocated_le in E2; [|assumption]. destruct E2 as [A2 L2].
      apply bind_inv in E. destruct E as (l' & k3 & E3 & E).
      apply IH in E3; [| apply (Hm k); [lia | assumption] | assumption].
      destruct E3 as [A3 L3].
      apply bind_inv in E. destruct E as (n1 & k4 & E4 & E).
      apply alloc_allocated in E4;
        [| assumption | apply (Hm k); [lia | assumption]].
      destruct E4 as [A4 L4].
      apply bind_inv in E. destruct E as (n2 & k5 & E5 & E).
      apply balance_allocated_le in E5; [|assumption]. destruct E5 as [A5 L5].
      apply IH in E; [| assumption | apply (Hm k); [lia | assumption]].
      destruct E as [A6 L6]. split; [exact A6 | lia].
  - destruct nr as [|ra rx rc rl rr].
    + apply bind_inv in E. destruct E as (n1 & k1 & E1 & E).
      apply alloc_allocated in E1; [|assumption..]. destruct E1 as [A1 L1].
      apply balance_allocated_le in E; [|assumption]. destruct E as [A2 L2].
      split; [exact A2 | lia].
    + apply bind_inv in E. destruct E as (t & k1 & E1 & E).
      apply alloc_allocated in E1; [|assumption || reflexivity..].
      destruct E1 as [A1 L1].
      apply bind_inv in E. destruct E as (t' & k2 & E2 & E).
      apply balance_allocated_le in E2; [|assumption]. destruct E2 as [A2 L2].
      apply bind_inv in E. destruct E as (r' & k3 & E3 & E).
      apply IH in E3; [| apply (Hm k); [lia | assumption] | assumption].
      destruct E3 as [A3 L3].
      apply bind_inv in E. destruct E as (n1 & k4 & E4 & E).
      apply alloc_allocated in E4;
        [| apply (Hm k); [lia | assumption] | assumption].
      destruct E4 as [A4 L4].
      apply bind_inv in E. destruct E as (n2 & k5 & E5 & E).
      apply balance_allocated_le in E5; [|assumption]. destruct E5 as [A5 L5].
      apply IH in E; [| assumption | apply (Hm k); [lia | assumption]].
      destruct E as [A6 L6]. split; [exact A6 | lia].
Qed.

End Allocation.

Section PublicAllocation.

Context {T : Type}.

Lemma copyWithColor_allocated (n R : node T) (col : color) (k k' : nat) :
  allocatedBelow k n = true -> copyWithColor n col k = Ok (R, k') ->
  allocatedBelow k' R = true /\ (k <= k')%nat.
Proof.
  intros Hn E. destruct n as [|a y c' l r]; [discriminate|].
  cbn [copyWithColor] in E. destruct (Bool.eqb c' col).
  - inversion E; subst. split; [exact Hn | lia].
  - destruct (allocatedBelow_kids _ _ _ _ _ _ Hn) as [Hl Hr].
    exact (alloc_allocated _ _ _ _ _ _ _ Hl Hr E).
Qed.

(** [Upsert] allocates its nodes from the counter: the tree it returns lies
    below the new counter. *)
Lemma Upsert_allocated (t r : RedBlackTree T) (x : T) (fuel k k' : nat) :
  allocatedBelow k (root t) = true ->
  Upsert fuel (Some t) x k = Ok (Some r, k') ->
  allocatedBelow k' (root r) = true /\ (k <= k')%nat.
Proof.
  intros Ht E. unfold Upsert in E. destruct (root t) as [|a y col l rr] eqn:Er.
  - apply bind_inv in E. destruct E as (n & k1 & E1 & E).
    apply alloc_allocated in E1; [|reflexivity..]. destruct E1 as [A1 L1].
    inversion E; subst. cbn [root]. split; assumption.
  - apply bind_inv in E. destruct E as (i & k1 & E1 & E).
    apply alloc_allocated in E1; [|reflexivity..]. destruct E1 as [A1 L1].
    apply bind_inv in E. destruct E as (n & k2 & E2 & E).
    apply upsert_allocated in E2;
      [| apply (allocatedBelow_mono k); [lia | exact Ht] | exact A1].
    destruct E2 as [A2 L2].
    apply bind_inv in E. destruct E as (n' & k3 & E3 & E).
    apply copyWithColor_allocated in E3; [|exact A2]. destruct E3 as [A3 L3].
    inversion E; subst. cbn [root]. split; [exact A3 | lia].
Qed.

End PublicAllocation.

(** ** Fuel *)

Section Fuel.

Context {T : Type}.
Variable c : Compare T.

Lemma bind_extends {A B} (m m' : M A) (f g : A -> M B) (k : nat) :
  extends (m' k) (m k) ->
  (forall a k1, extends (g a k1) (f a k1)) ->
  extends (bind m' g k) (bind m f k).
Proof.
  unfold extends, bind. intros Hm Hf H.
  destruct (m k) as [[a k1]| |] eqn:E.
  - rewrite Hm by discriminate. apply Hf. exact H.
  - rewrite Hm by discriminate. reflexivity.
  - contradiction H. reflexivity.
Qed.

Lemma extends_refl {A} (o : outcome A) : extends o o.
Proof. intros _. reflexivity. Qed.

Ltac fuel_step IH :=
  repeat first
    [ apply extends_refl
    | apply IH; lia
    | apply bind_extends; [| intros ? ?] ].

Lemma upsert_fuel (fuel : nat) :
  forall (fuel' : nat) (n ins : node T) (k : nat),
    (fuel <= fuel')%nat ->
    extends (upsert fuel' c n ins k) (upsert fuel c n ins k).
Proof.
  induction fuel as [|fuel IH]; intros fuel' n ins k Hf.
  - intros H. contradiction H. reflexivity.
  - destruct fuel' as [|fuel']; [lia|]. cbn [upsert].
    destruct ins as [|ia ii ic il ir]; [apply extends_refl|].
    destruct n as [|na ni nc nl nr]; [apply extends_refl|].
    cbv zeta. destruct (c ii ni =? 0); [|destruct (c ii ni =? -1)].
    + fuel_step IH.
    + destruct nl; fuel_step IH.
    + destruct nr; fuel_step IH.
Qed.

Lemma combinedChildren_fuel (fuel fuel' : nat) (n : node T) (k : nat) :
  (fuel <= fuel')%nat ->
  extends (combinedChildren fuel' c n k) (combinedChildren fuel c n k).
Proof.
  intros Hf. destruct n as [|a x col l r]; [apply extends_refl|].
  cbn [combinedChildren]. destruct l; [apply extends_refl|].
  apply upsert_fuel. exact Hf.
Qed.

Lemma subtract_fuel (fuel : nat) :
  forall (fuel' : nat) (n s : node T) (k : nat),
    (fuel <= fuel')%nat ->
    extends (subtract fuel' c n s k) (subtract fuel c n s k).
Proof.
  induction fuel as [|fuel IH]; intros fuel' n s k Hf.
  - intros H. contradiction H. reflexivity.
  - destruct fuel' as [|fuel']; [lia|]. cbn [subtract].
    destruct s as [|sa si sc sl sr]; [apply extends_refl|].
    destruct n as [|na ni nc nl nr]; [apply extends_refl|].
    cbv zeta. destruct (c si ni =? 0); [|destruct (c si ni =? -1)].
    + apply bind_extends; [apply combinedChildren_fuel; lia | intros ? ?].
      fuel_step IH.
    + destruct nl; fuel_step IH.
    + destruct nr; fuel_step IH.
Qed.

Lemma intersection_fuel (fuel : nat) :
  forall (fuel' : nat) (n m : node T) (k : nat),
    (fuel <= fuel')%nat ->
    extends (intersection fuel' c n m k) (intersection fuel c n m k).
Proof.
  induction fuel as [|fuel IH]; intros fuel' n m k Hf.
  - intros H. contradiction H. reflexivity.
  - destruct fuel' as [|fuel']; [lia|]. cbn [intersection].
    destruct n as [|na ni nc nl nr]; [apply extends_refl|].
    destruct m as [|ma mi mc ml mr]; [apply extends_refl|].
    cbv zeta. destruct (c mi ni =? 0); [|destruct (c mi ni =? -1)].
    + fuel_step IH.
    + apply bind_extends; [apply extends_refl | intros t k1].
      apply bind_extends; [apply extends_refl | intros t' k2].
      apply bind_extends; [apply IH; lia | intros li k3].
      destruct li; fuel_step IH.
    + apply bind_extends; [apply extends_refl | intros t k1].
      apply bind_extends; [apply extends_refl | intros t' k2].
      apply bind_extends; [apply IH; lia | intros ri k3].
      destruct ri; fuel_step IH.
Qed.

End Fuel.

Section PublicFuel.

Context {T : Type}.

Ltac public_step :=
  repeat first
    [ apply extends_refl
    | apply upsert_fuel; assumption
    | apply subtract_fuel; assumption
    | apply intersection_fuel; assumption
    | apply bind_extends; [| intros ? ?] ].

Lemma Upsert_fuel (fuel fuel' : nat) (r : treeptr T) (x : T) (k : nat) :
  (fuel <= fuel')%nat -> extends (Upsert fuel' r x k) (Upsert fuel r x k).
Proof.
  intros Hf. unfold Upsert. destruct r as [t|]; [|apply extends_refl].
  destruct (root t); public_step.
Qed.

Lemma Delete_fuel (fuel fuel' : nat) (r : treeptr T) (x : T) (k : nat) :
  (fuel <= fuel')%nat -> extends (Delete fuel' r x k) (Delete fuel r x k).
Proof.
  intros Hf. unfold Delete. destruct r as [t|]; [|apply extends_refl].
  destruct (root t); public_step.
Qed.

Lemma Union_fuel (fuel fuel' : nat) (r o : treeptr T) (k : nat) :
  (fuel <= fuel')%nat -> extends (Union fuel' r o k) (Union fuel r o k).
Proof.
  intros Hf. unfold Union. destruct r as [t|]; [|apply extends_refl].
  destruct (root t); [apply extends_refl|].
  destruct o; public_step.
Qed.

Lemma Subtract_fuel (fuel fuel' : nat) (r o : treeptr T) (k : nat) :
  (fuel <= fuel')%nat -> extends (Subtract fuel' r o k) (Subtract fuel r o k).
Proof.
  intros Hf. unfold Subtract. destruct r as [t|]; [|apply extends_refl].
  destruct (root t); [apply extends_refl|].
  destruct o; public_step.
Qed.

Lemma Intersection_fuel (fuel fuel' : nat) (r o : treeptr T) (k : nat) :
  (fuel <= fuel')%nat ->
  extends (Intersection fuel' r o k) (Intersection fuel r o k).
Proof.
  intros Hf. unfold Intersection. destruct r as [t|]; [|apply extends_refl].
  destruct (root t); [apply extends_refl|].
  destruct o; public_step.
Qed.

Lemma finishes_settled {A} (P : A -> Prop) (o : outcome (A * nat)) :
  finishes P o -> o <> OutOfFuel.
Proof. destruct o as [[a k]| |]; cbn; [discriminate | discriminate | tauto]. Qed.

Lemma returns_settled {A} (P : A -> Prop) (o : outcome (A * nat)) :
  returns P o -> o <> OutOfFuel.
Proof. destruct o as [[a k]| |]; cbn; [discriminate | tauto | tauto]. Qed.

Lemma finishesFrom_intro {A} (P : A -> Prop) (f : nat -> outcome (A * nat))
  (bound : nat) :
  finishes P (f bound) ->
  (forall fuel', (bound <= fuel')%nat -> extends (f fuel') (f bound)) ->
  finishesFrom P f bound.
Proof.
  intros Hfin Hext. split; [exact Hfin|]. intros d. apply Hext; [lia|].
  exact (finishes_settled P _ Hfin).
Qed.

Lemma returnsFrom_intro {A} (P : A -> Prop) (f : nat -> outcome (A * nat))
  (bound : nat) :
  returns P (f bound) ->
  (forall fuel', (bound <= fuel')%nat -> extends (f fuel') (f bound)) ->
  returnsFrom P f bound.
Proof.
  intros Hret Hext. split; [exact Hret|]. intros d. apply Hext; [lia|].
  exact (returns_settled P _ Hret).
Qed.

End PublicFuel.

(** ** Termination of the merge routines *)

Section Termination.

Context {T : Type}.
Variable c : Compare T.

Lemma bind_panic {A B} (m : M A) (f : A -> M B) (k : nat) :
  m k = Panic -> bind m f k = Panic.
Proof. intros E. unfold bind. rewrite E. reflexivity. Qed.

(** [upsert] on a receiver that is not nil returns a node, once the fuel
    exceeds twice the size of the inserted tree plus the size of the
    receiver; the result has at most the nodes of both. *)
Lemma upsert_total (fuel : nat) :
  forall (n ins : node T) (k : nat),
    n <> Nil -> (2 * size ins + size n < fuel)%nat ->
    exists R k', upsert fuel c n ins k = Ok (R, k') /\
                 R <> Nil /\ (size R <= size n + size ins)%nat.
Proof.
  induction fuel as [|fuel IH]; intros n ins k Hn Hf; [lia|].
  cbn [upsert].
  destruct ins as [|ia ii ic il ir].
  { exists n, k. split; [reflexivity|]. split; [exact Hn | lia]. }
  destruct n as [|na ni nc nl nr]; [contradiction|].
  cbv zeta. cbn [size] in Hf.
  destruct (c ii ni =? 0); [|destruct (c ii ni =? -1)].
  - erewrite bind_ok by reflexivity.
    destruct (IH (Node k ii nc nl nr) ir (S k)) as (n2 & k2 & E2 & N2 & S2);
      [discriminate | cbn [size]; lia |].
    erewrite bind_ok by exact E2.
    destruct (balance_total n2 k2) as (n3 & k3 & E3 & S3 & _ & N3).
    erewrite bind_ok by exact E3.
    destruct (IH n3 il k3) as (n4 & k4 & E4 & N4 & S4);
      [auto | cbn [size] in *; lia |].
    erewrite bind_ok by exact E4.
    destruct (balance_total n4 k4) as (R & k5 & E5 & S5 & _ & N5).
    exists R, k5. split; [exact E5|]. split; [auto|]. cbn [size] in *. lia.
  - destruct nl as [|la lx lc ll lr].
    + erewrite bind_ok by reflexivity.
      destruct (balance_total (Node k ni nc (Node ia ii ic il ir) nr) (S k))
        as (R & k1 & E1 & S1 & _ & N1).
      exists R, k1. split; [exact E1|]. split; [apply N1; discriminate|].
      cbn [size] in *. lia.
    + erewrite bind_ok by reflexivity.
      destruct (balance_total (Node k ii ic il Nil) (S k))
        as (t' & k1 & E1 & S1 & _ & N1).
      erewrite bind_ok by exact E1.
      destruct (IH (Node la lx lc ll lr) t' k1) as (l' & k2 & E2 & N2 & S2);
        [discriminate | cbn [size] in *; lia |].
      erewrite bind_ok by exact E2.
      erewrite bind_ok by reflexivity.
      destruct (balance_total (Node k2 ni nc l' nr) (S k2))
        as (n2 & k3 & E3 & S3 & _ & N3).
      erewrite bind_ok by exact E3.
      destruct (IH n2 ir k3) as (R & k4 & E4 & N4 & S4);
        [apply N3; discriminate | cbn [size] in *; lia |].
      exists R, k4. split; [exact E4|]. split; [exact N4|].
      cbn [size] in *. lia.
  - destruct nr as [|ra rx rc rl rr].
    + erewrite bind_ok by reflexivity.
      destruct (balance_total (Node k ni nc nl (Node ia ii ic il ir)) (S k))
        as (R & k1 & E1 & S1 & _ & N1).
      exists R, k1. split; [exact E1|]. split; [apply N1; discriminate|].
      cbn [size] in *. lia.
    + erewrite bind_ok by reflexivity.
      destruct (balance_total (Node k ii ic Nil ir) (S k))
        as (t' & k1 & E1 & S1 & _ & N1).
      erewrite bind_ok by exact E1.
      destruct (IH (Node ra rx rc rl rr) t' k1) as (r' & k2 & E2 & N2 & S2);
        [discriminate | cbn [size] in *; lia |].
      erewrite bind_ok by exact E2.
      erewrite bind_ok by reflexivity.
      destruct (balance_total (Node k2 ni nc nl r') (S k2))
        as (n2 & k3 & E3 & S3 & _ & N3).
      erewrite bind_ok by exact E3.
      destruct (IH n2 il k3) as (R & k4 & E4 & N4 & S4);
        [apply N3; discriminate | cbn [size] in *; lia |].
      exists R, k4. split; [exact E4|]. split; [exact N4|].
      cbn [size] in *. lia.
Qed.

(** [intersection] returns a node or nil once the fuel exceeds the sizes of
    the two trees together. *)
Lemma intersection_total (fuel : nat) :
  forall (n m : node T) (k : nat),
    (size n + size m < fuel)%nat ->
    exists R k', intersection fuel c n m k = Ok (R, k').
Proof.
  induction fuel as [|fuel IH]; intros n m k Hf; [lia|].
  cbn [intersection].
  destruct n as [|na ni nc nl nr]; [exists Nil, k; reflexivity|].
  destruct m as [|ma mi mc ml mr]; [exists Nil, k; reflexivity|].
  cbv zeta. cbn [size] in Hf.
  destruct (c mi ni =? 0); [|destruct (c mi ni =? -1)].
  - destruct (IH nr mr k) as (ri & k1 & E1); [lia|].
    erewrite bind_ok by exact E1.
    destruct (balance_total ri k1) as (rb & k2 & E2 & _).
    erewrite bind_ok by exact E2.
    destruct (IH nl ml k2) as (li & k3 & E3); [lia|].
    erewrite bind_ok by exact E3.
    destruct (balance_total li k3) as (lb & k4 & E4 & _).
    erewrite bind_ok by exact E4.
    erewrite bind_ok by reflexivity.
    destruct (balance_total (Node k4 ni nc nl rb) (S k4))
      as (n2 & k5 & E5 & _ & _ & N5).
    erewrite bind_ok by exact E5.
    destruct n2 as [|a2 x2 c2 l2 r2]; [contradiction N5; [discriminate | reflexivity]|].
    erewrite bind_ok by reflexivity.
    destruct (balance_total (Node k5 x2 c2 lb r2) (S k5)) as (R & k6 & E6 & _).
    exists R, k6. exact E6.
  - erewrite bind_ok by reflexivity.
    destruct (balance_total (Node k mi mc ml Nil) (S k))
      as (t' & k1 & E1 & S1 & _).
    erewrite bind_ok by exact E1.
    destruct (IH nl t' k1) as (li & k2 & E2); [cbn [size] in *; lia|].
    erewrite bind_ok by exact E2.
    destruct (IH (Node na ni nc nl nr) mr k2) as (rest & k3 & E3);
      [cbn [size]; lia|].
    destruct li as [|a1 x1 c1 l1 r1]; [exists rest, k3; exact E3|].
    erewrite bind_ok by exact E3.
    erewrite bind_ok by reflexivity.
    destruct (balance_total (Node k3 x1 c1 l1 rest) (S k3)) as (R & k4 & E4 & _).
    exists R, k4. exact E4.
  - erewrite bind_ok by reflexivity.
    destruct (balance_total (Node k mi mc Nil mr) (S k))
      as (t' & k1 & E1 & S1 & _).
    erewrite bind_ok by exact E1.
    destruct (IH nr t' k1) as (ri & k2 & E2); [cbn [size] in *; lia|].
    erewrite bind_ok by exact E2.
    destruct (IH (Node na ni nc nl nr) ml k2) as (rest & k3 & E3);
      [cbn [size]; lia|].
    destruct ri as [|a1 x1 c1 l1 r1]; [exists rest, k3; exact E3|].
    erewrite bind_ok by exact E3.
    erewrite bind_ok by reflexivity.
    destruct (balance_total (Node k3 x1 c1 rest r1) (S k3)) as (R & k4 & E4 & _).
    exists R, k4. exact E4.
Qed.

Lemma finishes_bind {A B} (Q : A -> Prop) (P : B -> Prop) (m : M A)
  (f : A -> M B) (k : nat) :
  finishes Q (m k) -> (forall a k', Q a -> finishes P (f a k')) ->
  finishes P (bind m f k).
Proof.
  unfold bind. destruct (m k) as [[a k']| |]; cbn; auto.
Qed.

Lemma finishes_weaken {A} (P Q : A -> Prop) (o : outcome (A * nat)) :
  finishes P o -> (forall a, P a -> Q a) -> finishes Q o.
Proof.
  destruct o as [[a k']| |]; cbn; auto.
Qed.

Lemma returns_finishes {A} (P : A -> Prop) (o : outcome (A * nat)) :
  returns P o -> finishes P o.
Proof.
  destruct o as [[a k']| |]; cbn; auto.
Qed.

Lemma combinedChildren_total (fuel : nat) (a : nat) (x : T) (col : color)
  (l r : node T) (k : nat) :
  (2 * size r + size l < fuel)%nat ->
  returns (fun j => (size j <= size l + size r)%nat)
    (combinedChildren fuel c (Node a x col l r) k).
Proof.
  intros Hf. cbn [combinedChildren]. destruct l as [|la lx lc ll lr].
  - cbn. lia.
  - destruct (upsert_total fuel (Node la lx lc ll lr) r k) as (j & k1 & E & _ & S);
      [discriminate | exact Hf |].
    rewrite E. exact S.
Qed.

(** [subtract] finishes once the fuel exceeds twice the size of the receiver
    plus the size of the subtracted tree; what it returns has at most the
    nodes of the receiver. *)
Lemma subtract_total (fuel : nat) :
  forall (n s : node T) (k : nat),
    (2 * size n + size s < fuel)%nat ->
    finishes (fun R => (size R <= size n)%nat) (subtract fuel c n s k).
Proof.
  induction fuel as [|fuel IH]; intros n s k Hf; [lia|].
  cbn [subtract].
  destruct s as [|sa si sc sl sr]; [cbn; lia|].
  destruct n as [|na ni nc nl nr]; [exact I|].
  cbv zeta. cbn [size] in Hf.
  destruct (c si ni =? 0); [|destruct (c si ni =? -1)].
  - apply (finishes_bind (fun j => (size j <= size nl + size nr)%nat)).
    { apply returns_finishes, combinedChildren_total. lia. }
    intros j kj Hj.
    apply (finishes_bind (fun j1 => (size j1 <= size j)%nat)).
    { apply IH. lia. }
    intros j1 k1 Hj1.
    apply (finishes_weaken (fun R => (size R <= size j1)%nat)).
    { apply IH. lia. }
    intros R HR. cbn [size]. lia.
  - destruct nl as [|la lx lc ll lr]; [cbn; lia|].
    erewrite bind_ok by reflexivity.
    destruct (balance_total (Node k si sc sl Nil) (S k))
      as (t' & k1 & E1 & S1 & _).
    erewrite bind_ok by exact E1.
    apply (finishes_bind (fun l' => (size l' <= size (Node la lx lc ll lr))%nat)).
    { apply IH. cbn [size] in *. lia. }
    intros l' k2 Hl. erewrite bind_ok by reflexivity.
    destruct (balance_total (Node k2 ni nc l' nr) (S k2))
      as (n2 & k3 & E3 & S3 & _).
    erewrite bind_ok by exact E3.
    apply (finishes_weaken (fun R => (size R <= size n2)%nat)).
    { apply IH. cbn [size] in *. lia. }
    intros R HR. cbn [size] in *. lia.
  - destruct nr as [|ra rx rc rl rr]; [cbn; lia|].
    erewrite bind_ok by reflexivity.
    destruct (balance_total (Node k si sc Nil sr) (S k))
      as (t' & k1 & E1 & S1 & _).
    erewrite bind_ok by exact E1.
    apply (finishes_bind (fun r' => (size r' <= size (Node ra rx rc rl rr))%nat)).
    { apply IH. cbn [size] in *. lia. }
    intros r' k2 Hr. erewrite bind_ok by reflexivity.
    destruct (balance_total (Node k2 ni nc nl r') (S k2))
      as (n2 & k3 & E3 & S3 & _).
    erewrite bind_ok by exact E3.
    apply (finishes_weaken (fun R => (size R <= size n2)%nat)).
    { apply IH. cbn [size] in *. lia. }
    intros R HR. cbn [size] in *. lia.
Qed.

Lemma copyWithColor_finishes (n : node T) (col : color) (k : nat) :
  finishes (fun _ => True) (copyWithColor n col k).
Proof.
  destruct n as [|a x c' l r]; [exact I|]. cbn [copyWithColor].
  destruct (Bool.eqb c' col); exact I.
Qed.

Lemma copyWithColor_returns (n : node T) (col : color) (k : nat) :
  n <> Nil -> returns (fun R => R <> Nil) (copyWithColor n col k).
Proof.
  destruct n as [|a x c' l r]; [contradiction|]. intros _.
  cbn [copyWithColor]. destruct (Bool.eqb c' col); cbn; discriminate.
Qed.

End Termination.

Section PublicTermination.

Context {T : Type}.

Lemma Upsert_total (t : RedBlackTree T) (x : T) (fuel k : nat) :
  (2 + size (root t) < fuel)%nat ->
  returns (fun r => r <> None) (Upsert fuel (Some t) x k).
Proof.
  intros Hf. destruct t as [c n]. unfold Upsert. cbn [root compare] in *.
  destruct n as [|a y col l r]; [cbn; discriminate|].
  erewrite bind_ok by reflexivity.
  destruct (upsert_total c fuel (Node a y col l r) (Node k x red Nil Nil) (S k))
    as (R & k1 & E & N & _); [discriminate | cbn [size] in *; lia |].
  erewrite bind_ok by exact E.
  pose proof (copyWithColor_returns R black k1 N) as HC.
  unfold bind. destruct (copyWithColor R black k1) as [[R' k2]| |];
    cbn in *; [discriminate | exact HC | exact HC].
Qed.

Lemma Union_total (t o : RedBlackTree T) (fuel k : nat) :
  (2 * size (root o) + size (root t) < fuel)%nat ->
  returns (fun r => r <> None) (Union fuel (Some t) (Some o) k).
Proof.
  intros Hf. destruct t as [c n]. unfold Union. cbn [root compare] in *.
  destruct n as [|a y col l r]; [cbn; discriminate|].
  destruct (upsert_total c fuel (Node a y col l r) (root o) k)
    as (R & k1 & E & N & _); [discriminate | exact Hf |].
  erewrite bind_ok by exact E.
  pose proof (copyWithColor_returns R black k1 N) as HC.
  unfold bind. destruct (copyWithColor R black k1) as [[R' k2]| |];
    cbn in *; [discriminate | exact HC | exact HC].
Qed.

Lemma recolor_finishes (c : Compare T) (m : M (node T)) (k : nat) :
  finishes (fun _ => True) (m k) ->
  finishes (fun _ : treeptr T => True)
    ((n <- m ;; n' <- copyWithColor n black ;; ret (Some (mkTree c n'))) k).
Proof.
  intros Hm.
  apply (finishes_bind (fun _ => True)); [exact Hm|]. intros n k1 _.
  apply (finishes_bind (fun _ => True)); [apply copyWithColor_finishes|].
  intros n' k2 _. exact I.
Qed.

Lemma Delete_finishes (t : RedBlackTree T) (x : T) (fuel k : nat) :
  (2 * size (root t) + 1 < fuel)%nat ->
  finishes (fun _ => True) (Delete fuel (Some t) x k).
Proof.
  intros Hf. destruct t as [c n]. unfold Delete. cbn [root compare] in *.
  destruct n as [|a y col l r]; [exact I|].
  erewrite bind_ok by reflexivity.
  apply recolor_finishes.
  apply (finishes_weaken (fun R => (size R <= size (Node a y col l r))%nat));
    [|auto].
  apply subtract_total. cbn [size] in *. lia.
Qed.

Lemma Subtract_finishes (t o : RedBlackTree T) (fuel k : nat) :
  (2 * size (root t) + size (root o) < fuel)%nat ->
  finishes (fun _ => True) (Subtract fuel (Some t) (Some o) k).
Proof.
  intros Hf. destruct t as [c n]. unfold Subtract. cbn [root compare] in *.
  destruct n as [|a y col l r]; [exact I|].
  apply recolor_finishes.
  apply (finishes_weaken (fun R => (size R <= size (Node a y col l r))%nat));
    [|auto].
  apply subtract_total. exact Hf.
Qed.

Lemma Intersection_finishes (t o : RedBlackTree T) (fuel k : nat) :
  (size (root t) + size (root o) < fuel)%nat ->
  finishes (fun _ => True) (Intersection fuel (Some t) (Some o) k).
Proof.
  intros Hf. destruct t as [c n]. unfold Intersection. cbn [root compare] in *.
  destruct n as [|a y col l r]; [exact I|].
  apply recolor_finishes.
  destruct (intersection_total c fuel (Node a y col l r) (root o) k Hf)
    as (R & k1 & E).
  rewrite E. exact I.
Qed.

End PublicTermination.

(** ** The caller's comparator *)

Lemma below_compare_int (a b : Z) : below compare_int a b <-> a < b.
Proof.
  unfold below, compare_int.
  destruct (Z.ltb_spec a b); destruct (Z.eqb_spec a b); lia.
Qed.

Lemma compare_int_irrefl (a : Z) : ~ below compare_int a a.
Proof. rewrite below_compare_int. lia. Qed.

Lemma compare_int_trans (a b d : Z) :
  below compare_int a b -> below compare_int b d -> below compare_int a d.
Proof. rewrite !below_compare_int. lia. Qed.

(** ** Rebalancing and the insertion of one item *)

Section BalanceFacts.

Context {T : Type}.

Ltac rotation_side :=
  cbn; first [ reflexivity | discriminate | intros; reflexivity
             | intros; discriminate ].

(** [balance] leaves a tree as it is exactly when none of the four patterns
    is there, and restructures it otherwise. *)
Lemma balance_spec (t : node T) (k : nat) :
  (balance t k = Ok (t, k) /\ stable t) \/
  exists B, rotation k t B /\ balance t k = Ok (B, S (S (S k))).
Proof.
  destruct t as [|a z [|] l r];
    [left; split; [reflexivity | exact I]
    | left; split; [reflexivity | exact I] |].
  destruct l as [|la lx [|] [|lla llx [|] lll llr] [|lra lrx [|] lrl lrr]];
  destruct r as [|ra rx [|] [|rla rlx [|] rll rlr] [|rra rrx [|] rrl rrr]];
    first
      [ left; split; [reflexivity | split; rotation_side]
      | right; eexists; split;
        [ first [ apply rot_top
                | apply rot_left; rotation_side
                | apply rot_right; rotation_side
                | apply rot_bottom; rotation_side ]
        | reflexivity ] ].
Qed.

Lemma rotation_blackHeight (k : nat) (t B : node T) :
  rotation k t B -> blackHeight B = blackHeight t.
Proof.
  destruct 1; cbn [blackHeight red black];
    repeat match goal with
           | |- context [blackHeight ?n] =>
               is_var n; destruct (blackHeight n)
           end;
    cbn; try reflexivity;
    repeat match goal with
           | |- context [Nat.eqb ?a ?b] =>
               destruct (Nat.eqb_spec a b); subst; cbn
           end;
    try reflexivity; try lia; try congruence.
Qed.

Lemma balance_inv (t B : node T) (k k' : nat) :
  balance t k = Ok (B, k') ->
  (B = t /\ k' = k /\ stable t) \/ (rotation k t B /\ k' = S (S (S k))).
Proof.
  intros E. destruct (balance_spec t k) as [[E' St] | (B' & R & E')];
    rewrite E' in E; inversion E; subst; auto.
Qed.

(** Every tree goes through [balance] with its items in the same order and
    with the same black height. *)
Lemma balance_keeps (t : node T) (k : nat) :
  exists B k', balance t k = Ok (B, k') /\
    inorder B = inorder t /\ size B = size t /\
    blackHeight B = blackHeight t /\
    (t <> Nil -> B <> Nil) /\ (k <= k' <= k + 3)%nat.
Proof.
  destruct (balance_spec t k) as [[E _] | (B & R & E)].
  - exists t, k. repeat split; auto; lia.
  - exists B, (S (S (S k))). split; [exact E|].
    split; [exact (rotation_inorder _ _ _ R)|].
    split; [exact (rotation_size _ _ _ R)|].
    split; [exact (rotation_blackHeight _ _ _ R)|].
    split; [intros _; destruct R; discriminate | lia].
Qed.

Lemma nearly_stable (n : node T) :
  nearly n = true -> (isRedNode n = true -> hasRedKid n = false) ->
  noRedRed n = true.
Proof.
  destruct n as [|a x [|] l r]; cbn; auto.
  - intros H Hk. rewrite (Hk eq_refl). exact H.
Qed.

Lemma noRedRed_nearly (n : node T) : noRedRed n = true -> nearly n = true.
Proof.
  destruct n as [|a x col l r]; cbn; [reflexivity|].
  rewrite !andb_true_iff. intros [[_ Hl] Hr]. auto.
Qed.

Ltac split_bools :=
  repeat match goal with
         | H : _ && _ = true |- _ =>
             apply andb_true_iff in H; destruct H
         end.

(** Under a black node with at most one child that has a red-red pair, and
    that only at its root, [balance] restores invariant 1. *)
Lemma balance_noRedRed (a : nat) (z : T) (l r B : node T) (k k' : nat) :
  nearly l = true -> nearly r = true ->
  noRedRed l = true \/ noRedRed r = true ->
  balance (Node a z black l r) k = Ok (B, k') ->
  noRedRed B = true.
Proof.
  intros Nl Nr Hone E.
  destruct (balance_inv _ _ _ _ E) as [(-> & _ & Sl & Sr) | [R _]].
  - cbn. rewrite (nearly_stable l Nl Sl), (nearly_stable r Nr Sr). reflexivity.
  - inversion R; subst; cbn in Nl, Nr; split_bools;
      cbn in *; split_bools;
      destruct Hone as [HO | HO]; cbn in HO;
      rewrite ?orb_true_r in HO; cbn in HO; try discriminate; split_bools;
      repeat match goal with
             | H : noRedRed _ = true |- _ => rewrite H; clear H
             end;
      reflexivity.
Qed.

End BalanceFacts.

Section UpsertFacts.

Context {T : Type}.
Variable c : Compare T.
Variable x : T.

Ltac split_bools :=
  repeat match goal with
         | H : _ && _ = true |- _ =>
             apply andb_true_iff in H; destruct H
         end.

Lemma noRedRed_inv (a : nat) (y : T) (col : color) (l r : node T) :
  noRedRed (Node a y col l r) = true ->
  negb (col && (isRedNode l || isRedNode r)) = true /\
  noRedRed l = true /\ noRedRed r = true.
Proof.
  cbn [noRedRed]. rewrite !andb_true_iff. tauto.
Qed.

Lemma upsert_nil_inv (fuel : nat) (n R : node T) (k k' : nat) :
  upsert fuel c n Nil k = Ok (R, k') -> R = n /\ k' = k.
Proof.
  destruct fuel; [discriminate|]. cbn. intros E. inversion E. auto.
Qed.

Lemma balance_inv_keeps (t B : node T) (k k' : nat) :
  balance t k = Ok (B, k') ->
  inorder B = inorder t /\ blackHeight B = blackHeight t /\
  size B = size t /\ (t <> Nil -> B <> Nil).
Proof.
  intros E. destruct (balance_keeps t k) as (B' & k1 & E' & H).
  rewrite E' in E. inversion E; subst. tauto.
Qed.

Lemma balance_valid_noop (t : node T) (k : nat) :
  noRedRed t = true -> balance t k = Ok (t, k).
Proof.
  destruct t as [|a z col l r]; [reflexivity|]. cbn [noRedRed].
  intros H. split_bools. apply balance_noop; apply noRedRed_kid; assumption.
Qed.

(** What [upsert] of a single red node does to a tree: the items, the black
    height, and invariant 1 up to the root. *)
Lemma upsert_leaf_props (fuel : nat) :
  forall (n R : node T) (a k k' : nat),
    n <> Nil ->
    upsert fuel c n (Node a x red Nil Nil) k = Ok (R, k') ->
    R <> Nil /\
    inorder R = inserted c x n /\
    blackHeight R = blackHeight n /\
    (noRedRed n = true ->
     nearly R = true /\ (isRedNode n = false -> noRedRed R = true)).
Proof.
  induction fuel as [|fuel IH]; intros n R a k k' Hn E; [discriminate|].
  destruct n as [|na ni nc nl nr]; [contradiction|].
  unfold red in E. cbn [upsert] in E. cbv zeta in E. cbn [inserted].
  destruct (c x ni =? 0); [|destruct (c x ni =? -1)].
  - apply bind_inv in E. destruct E as (n1 & k1 & E1 & E).
    cbn in E1. inversion E1; subst n1 k1; clear E1.
    apply bind_inv in E. destruct E as (n2 & k2 & E2 & E).
    apply upsert_nil_inv in E2. destruct E2 as [-> ->].
    apply bind_inv in E. destruct E as (n3 & k3 & E3 & E).
    apply bind_inv in E. destruct E as (n4 & k4 & E4 & E).
    apply upsert_nil_inv in E4. destruct E4 as [-> ->].
    pose proof (balance_inv_keeps _ _ _ _ E3) as (I3 & H3 & _ & N3).
    pose proof (balance_inv_keeps _ _ _ _ E) as (I4 & H4 & _ & N4).
    split; [apply N4, N3; discriminate|].
    split; [rewrite I4, I3; reflexivity|].
    split; [rewrite H4, H3; reflexivity|].
    intros Hv.
    assert (Hv1 : noRedRed (Node k x nc nl nr) = true) by exact Hv.
    rewrite (balance_valid_noop _ _ Hv1) in E3. inversion E3; subst n3 k3.
    rewrite (balance_valid_noop _ _ Hv1) in E. inversion E; subst R k'.
    split; [apply noRedRed_nearly; exact Hv1 | intros _; exact Hv1].
  - destruct nl as [|la lx lc ll lr].
    + apply bind_inv in E. destruct E as (n1 & k1 & E1 & E).
      cbn in E1. inversion E1; subst n1 k1; clear E1.
      pose proof (balance_inv_keeps _ _ _ _ E) as (I1 & H1 & _ & N1).
      split; [apply N1; discriminate|].
      split; [rewrite I1; reflexivity|].
      split; [rewrite H1; reflexivity|].
      intros Hv. apply noRedRed_inv in Hv. destruct Hv as (Hc & Hvl & Hvr).
      destruct nc.
      * cbn in E. inversion E; subst R k'. cbn.
        split; [assumption | discriminate].
      * assert (noRedRed R = true).
        { eapply balance_noRedRed; [| | | exact E];
            [reflexivity | apply noRedRed_nearly; assumption
            | right; assumption]. }
        split; [apply noRedRed_nearly; assumption | intros _; assumption].
    + apply bind_inv in E. destruct E as (t & k1 & E1 & E).
      cbn in E1. inversion E1; subst t k1; clear E1.
      apply bind_inv in E. destruct E as (t' & k2 & E2 & E).
      cbn in E2. inversion E2; subst t' k2; clear E2.
      apply bind_inv in E. destruct E as (l' & k3 & E3 & E).
      apply IH in E3; [|discriminate].
      destruct E3 as (NL & IL & HL & VL).
      apply bind_inv in E. destruct E as (n1 & k4 & E4 & E).
      cbn in E4. inversion E4; subst n1 k4; clear E4.
      apply bind_inv in E. destruct E as (n2 & k5 & E5 & E).
      apply upsert_nil_inv in E. destruct E as [-> ->].
      pose proof (balance_inv_keeps _ _ _ _ E5) as (I5 & H5 & _ & N5).
      split; [apply N5; discriminate|].
      split; [rewrite I5; cbn [inorder]; rewrite IL; reflexivity|].
      split; [rewrite H5; cbn [blackHeight]; rewrite HL; reflexivity|].
      intros Hv. apply noRedRed_inv in Hv. destruct Hv as (Hc & Hvl & Hvr).
      destruct (VL ltac:(assumption)) as [VL1 VL2].
      destruct nc.
      * cbn in E5. inversion E5; subst n2 k5. cbn [nearly isRedNode].
        split; [|discriminate].
        rewrite VL2; [assumption|].
        cbn in Hc. destruct lc; [discriminate | reflexivity].
      * assert (noRedRed n2 = true).
        { eapply balance_noRedRed; [| | | exact E5];
            [assumption | apply noRedRed_nearly; assumption
            | right; assumption]. }
        split; [apply noRedRed_nearly; assumption | intros _; assumption].
  - destruct nr as [|ra rx rc rl rr].
    + apply bind_inv in E. destruct E as (n1 & k1 & E1 & E).
      cbn in E1. inversion E1; subst n1 k1; clear E1.
      pose proof (balance_inv_keeps _ _ _ _ E) as (I1 & H1 & _ & N1).
      split; [apply N1; discriminate|].
      split; [rewrite I1; reflexivity|].
      split.
      { rewrite H1. cbn [blackHeight]. destruct (blackHeight nl); reflexivity. }
      intros Hv. apply noRedRed_inv in Hv. destruct Hv as (Hc & Hvl & Hvr).
      destruct nc.
      * cbn in E. inversion E; subst R k'. cbn.
        split; [rewrite andb_true_r; assumption | discriminate].
      * assert (noRedRed R = true).
        { eapply balance_noRedRed; [| | | exact E];
            [apply noRedRed_nearly; assumption | reflexivity
            | left; assumption]. }
        split; [apply noRedRed_nearly; assumption | intros _; assumption].
    + apply bind_inv in E. destruct E as (t & k1 & E1 & E).
      cbn in E1. inversion E1; subst t k1; clear E1.
      apply bind_inv in E. destruct E as (t' & k2 & E2 & E).
      cbn in E2. inversion E2; subst t' k2; clear E2.
      apply bind_inv in E. destruct E as (r' & k3 & E3 & E).
      apply IH in E3; [|discriminate].
      destruct E3 as (NL & IL & HL & VL).
      apply bind_inv in E. destruct E as (n1 & k4 & E4 & E).
      cbn in E4. inversion E4; subst n1 k4; clear E4.
      apply bind_inv in E. destruct E as (n2 & k5 & E5 & E).
      apply upsert_nil_inv in E. destruct E as [-> ->].
      pose proof (balance_inv_keeps _ _ _ _ E5) as (I5 & H5 & _ & N5).
      split; [apply N5; discriminate|].
      split; [rewrite I5; cbn [inorder]; rewrite IL; reflexivity|].
      split; [rewrite H5; cbn [blackHeight]; rewrite HL; reflexivity|].
      intros Hv. apply noRedRed_inv in Hv. destruct Hv as (Hc & Hvl & Hvr).
      destruct (VL ltac:(assumption)) as [VL1 VL2].
      destruct nc.
      * cbn in E5. inversion E5; subst n2 k5. cbn [nearly isRedNode].
        split; [|discriminate].
        rewrite VL2; [rewrite andb_true_r; assumption|].
        cbn in Hc. rewrite orb_comm in Hc.
        destruct rc; [discriminate | reflexivity].
      * assert (noRedRed n2 = true).
        { eapply balance_noRedRed; [| | | exact E5];
            [apply noRedRed_nearly; assumption | assumption
            | left; assumption]. }
        split; [apply noRedRed_nearly; assumption | intros _; assumption].
Qed.

End UpsertFacts.

(** ** Ordered trees under a lawful comparator *)

Section OrderFacts.

Context {T : Type}.
Variable c : Compare T.
Hypothesis laws : lawful c.

Lemma Forall_allItems (p : T -> bool) (n : node T) :
  Forall (fun y => p y = true) (inorder n) -> allItems p n = true.
Proof.
  induction n as [|a y col l IHl r IHr]; cbn [allItems inorder];
    [reflexivity|].
  intros H. apply Forall_app in H. destruct H as [Hl H].
  inversion H as [|? ? Hy Hr]; subst.
  rewrite Hy, (IHl Hl), (IHr Hr). reflexivity.
Qed.

Lemma StronglySorted_split (l1 l2 : list T) (y : T) :
  StronglySorted (below c) (l1 ++ y :: l2) ->
  StronglySorted (below c) l1 /\ StronglySorted (below c) l2 /\
  Forall (fun z => below c z y) l1 /\ Forall (fun z => below c y z) l2.
Proof.
  induction l1 as [|z l1 IH]; cbn [app]; intros H.
  - inversion H; subst. repeat split; auto; constructor.
  - inversion H as [|? ? Hs Hz]; subst.
    destruct (IH Hs) as (S1 & S2 & F1 & F2).
    apply Forall_app in Hz. destruct Hz as [Hz1 Hz2].
    inversion Hz2; subst.
    repeat split; auto; constructor; auto.
Qed.

(** Invariant 3, node by node, is the same as a strictly increasing
    sequence of items from left to right. *)
Lemma sorted_ordered (n : node T) :
  StronglySorted (below c) (inorder n) -> ordered c n = true.
Proof.
  induction n as [|a y col l IHl r IHr]; cbn [ordered inorder];
    [reflexivity|].
  intros H. destruct (StronglySorted_split _ _ _ H) as (S1 & S2 & F1 & F2).
  rewrite (IHl S1), (IHr S2), !andb_true_r. apply andb_true_iff. split.
  - apply Forall_allItems. eapply Forall_impl; [|exact F1].
    cbv beta. intros z Hz. apply Z.ltb_lt. exact Hz.
  - apply Forall_allItems. eapply Forall_impl; [|exact F2].
    cbv beta. intros z Hz. apply Z.ltb_lt. exact Hz.
Qed.

Lemma ordered_sorted (n : node T) :
  ordered c n = true -> StronglySorted (below c) (inorder n).
Proof. apply ordered_StronglySorted. exact (law_trans c laws). Qed.

Variable x : T.

Lemma inserted_In (z : T) (n : node T) :
  In z (inserted c x n) -> z = x \/ In z (inorder n).
Proof.
  induction n as [|a y col l IHl r IHr]; cbn [inserted inorder].
  - intros [E | []]. left. symmetry. exact E.
  - destruct (c x y =? 0); [|destruct (c x y =? -1)];
      rewrite !in_app_iff; cbn [In]; rewrite ?in_app_iff;
      intros [H | [H | H]]; auto.
    + apply IHl in H. tauto.
    + apply IHr in H. tauto.
Qed.

(** In an ordered tree the descent of [upsert] puts the item at its place
    in the order. *)
Lemma inserted_sorted (n : node T) :
  ordered c n = true -> StronglySorted (below c) (inserted c x n).
Proof.
  induction n as [|a y col l IHl r IHr]; cbn [ordered inserted].
  - intros _. repeat constructor.
  - rewrite !andb_true_iff. intros [[[Hl Hr] Ol] Or].
    assert (Fl : Forall (fun z => below c z y) (inorder l)).
    { eapply Forall_impl; [|exact (allItems_Forall _ _ Hl)]. cbv beta.
      intros z Hz. apply Z.ltb_lt. exact Hz. }
    assert (Fr : Forall (fun z => below c y z) (inorder r)).
    { eapply Forall_impl; [|exact (allItems_Forall _ _ Hr)]. cbv beta.
      intros z Hz. apply Z.ltb_lt. exact Hz. }
    destruct (Z.eqb_spec (c x y) 0) as [E0 | E0];
      [|destruct (Z.eqb_spec (c x y) (-1)) as [E1 | E1]].
    + apply (StronglySorted_join c (law_trans c laws));
        [apply ordered_sorted; exact Ol | apply ordered_sorted; exact Or | |].
      * eapply Forall_impl; [|exact Fl]. cbv beta. intros z Hz.
        exact (law_equal_left c laws _ _ _ E0 Hz).
      * eapply Forall_impl; [|exact Fr]. cbv beta. intros z Hz.
        exact (law_equal_right c laws _ _ _ E0 Hz).
    + apply (StronglySorted_join c (law_trans c laws));
        [apply IHl; exact Ol | apply ordered_sorted; exact Or | | exact Fr].
      apply Forall_forall. intros z Hz.
      destruct (inserted_In z l Hz) as [-> | Hin].
      * unfold below. lia.
      * rewrite Forall_forall in Fl. auto.
    + apply (StronglySorted_join c (law_trans c laws));
        [apply ordered_sorted; exact Ol | apply IHr; exact Or | exact Fl |].
      apply Forall_forall. intros z Hz.
      destruct (inserted_In z r Hz) as [-> | Hin].
      * exact (law_greater c laws _ _ E0 E1).
      * rewrite Forall_forall in Fr. auto.
Qed.

(** The items after the descent: the new one, and the old ones that the
    comparator does not find equal to it. *)
Lemma inserted_items (n : node T) (z : T) :
  ordered c n = true ->
  (In z (inserted c x n) <-> z = x \/ (In z (inorder n) /\ c x z <> 0)).
Proof.
  induction n as [|a y col l IHl r IHr]; cbn [ordered inserted inorder].
  - intros _. cbn. intuition.
  - rewrite !andb_true_iff. intros [[[Hl Hr] Ol] Or].
    assert (Fl : forall w, In w (inorder l) -> below c w y).
    { apply Forall_forall. eapply Forall_impl; [|exact (allItems_Forall _ _ Hl)].
      cbv beta. intros w Hw. apply Z.ltb_lt. exact Hw. }
    assert (Fr : forall w, In w (inorder r) -> below c y w).
    { apply Forall_forall. eapply Forall_impl; [|exact (allItems_Forall _ _ Hr)].
      cbv beta. intros w Hw. apply Z.ltb_lt. exact Hw. }
    specialize (IHl Ol). specialize (IHr Or).
    destruct (Z.eqb_spec (c x y) 0) as [E0 | E0];
      [|destruct (Z.eqb_spec (c x y) (-1)) as [E1 | E1]];
      rewrite !in_app_iff; cbn [In]; rewrite ?in_app_iff.
    + split.
      * intros [H | [H | H]]; [right | left; auto | right].
        -- split; [auto|].
           pose proof (law_equal_left c laws _ _ _ E0 (Fl _ H)) as Hlt.
           exact (proj1 (law_less c laws _ _ Hlt)).
        -- split; [auto|].
           pose proof (law_equal_right c laws _ _ _ E0 (Fr _ H)) as Hlt.
           unfold below in Hlt. lia.
      * intros [-> | [[H | [H | H]] Hne]]; auto.
        subst z. contradiction.
    + rewrite IHl. split.
      * intros [[H | [H Hne]] | [H | H]]; auto.
        -- subst z. right. split; [auto | lia].
        -- right. split; [auto|].
           assert (Hxy : below c x y) by (unfold below; lia).
           pose proof (law_trans c laws _ _ _ Hxy (Fr _ H)) as Hlt.
           unfold below in Hlt. lia.
      * intros [-> | [[H | [H | H]] Hne]]; auto.
    + rewrite IHr. split.
      * intros [H | [H | [H | [H Hne]]]]; auto.
        -- right. split; [auto|].
           pose proof (law_greater c laws _ _ E0 E1) as Hyx.
           pose proof (law_trans c laws _ _ _ (Fl _ H) Hyx) as Hlt.
           exact (proj1 (law_less c laws _ _ Hlt)).
        -- subst z. right. split; auto.
      * intros [-> | [[H | [H | H]] Hne]]; auto.
Qed.

End OrderFacts.

(** ** What [Upsert] returns *)

Section UpsertPublic.

Context {T : Type}.

Lemma filter_all (p : T -> bool) (l : list T) :
  (forall z, In z l -> p z = true) -> filter p l = l.
Proof.
  induction l as [|y l IH]; cbn [filter]; [reflexivity|].
  intros H. rewrite (H y (or_introl eq_refl)), IH; [reflexivity|].
  intros z Hz. apply H. right. exact Hz.
Qed.

(** Forcing a root black. *)
Lemma copyWithColor_black (R R' : node T) (k k' : nat) :
  copyWithColor R black k = Ok (R', k') ->
  R <> Nil /\ isRedNode R' = false /\ inorder R' = inorder R /\
  size R' = size R /\
  (nearly R = true -> noRedRed R' = true) /\
  (equalBlackHeight R = true -> equalBlackHeight R' = true).
Proof.
  destruct R as [|a y [|] l r]; [discriminate | |]; cbn; intros E;
    inversion E; subst; clear E.
  - split; [discriminate|]. repeat split; auto.
    unfold equalBlackHeight. cbn.
    destruct (blackHeight l), (blackHeight r); auto.
    destruct (Nat.eqb n n0); auto.
  - split; [discriminate|]. repeat split; auto.
Qed.

(** What [Upsert] returns, whenever it returns. *)
Lemma Upsert_inv (t : RedBlackTree T) (x : T) (fuel k : nat)
  (r : treeptr T) (k' : nat) :
  Upsert fuel (Some t) x k = Ok (r, k') ->
  exists n, r = Some (mkTree (compare t) n) /\
    isRedNode n = false /\
    inorder n = inserted (compare t) x (root t) /\
    (noRedRed (root t) = true -> noRedRed n = true) /\
    (equalBlackHeight (root t) = true -> equalBlackHeight n = true).
Proof.
  unfold Upsert. destruct (root t) as [|a y col l rr] eqn:Er.
  - intros E. cbn in E. inversion E; subst.
    eexists. split; [reflexivity|]. repeat split.
  - intros E. apply bind_inv in E. destruct E as (i & k1 & E1 & E).
    cbn in E1. inversion E1; subst i k1; clear E1.
    apply bind_inv in E. destruct E as (R & k2 & E2 & E).
    apply (upsert_leaf_props (compare t) x) in E2; [|discriminate].
    destruct E2 as (NR & IR & HR & VR).
    apply bind_inv in E. destruct E as (R' & k3 & E3 & E).
    apply copyWithColor_black in E3.
    destruct E3 as (_ & C1 & C2 & _ & C3 & C4).
    cbn in E. inversion E; subst. exists R'.
    split; [reflexivity|]. split; [exact C1|].
    split; [rewrite C2; exact IR|]. split.
    + intros Hv. apply C3. apply VR. exact Hv.
    + intros Hb. apply C4. unfold equalBlackHeight in *. rewrite HR. exact Hb.
Qed.

Variable c : Compare T.
Hypothesis laws : lawful c.
Variable x : T.

Lemma inserted_length (n : node T) :
  ordered c n = true ->
  length (inserted c x n)
  = S (length (filter (fun y => negb (c x y =? 0)) (inorder n))).
Proof.
  induction n as [|a y col l IHl r IHr]; cbn [ordered inserted inorder];
    [reflexivity|].
  rewrite !andb_true_iff. intros [[[Hl Hr] Ol] Or].
  assert (Fl : forall w, In w (inorder l) -> below c w y).
  { apply Forall_forall. eapply Forall_impl; [|exact (allItems_Forall _ _ Hl)].
    cbv beta. intros w Hw. apply Z.ltb_lt. exact Hw. }
  assert (Fr : forall w, In w (inorder r) -> below c y w).
  { apply Forall_forall. eapply Forall_impl; [|exact (allItems_Forall _ _ Hr)].
    cbv beta. intros w Hw. apply Z.ltb_lt. exact Hw. }
  rewrite filter_app. cbn [filter].
  destruct (Z.eqb_spec (c x y) 0) as [E0 | E0];
    [|destruct (Z.eqb_spec (c x y) (-1)) as [E1 | E1]]; cbn [negb].
  - rewrite !filter_all.
    + rewrite !length_app. cbn [length]. lia.
    + intros z Hz. apply negb_true_iff, Z.eqb_neq.
      pose proof (law_equal_right c laws _ _ _ E0 (Fr _ Hz)) as Hlt.
      unfold below in Hlt. lia.
    + intros z Hz. apply negb_true_iff, Z.eqb_neq.
      pose proof (law_equal_left c laws _ _ _ E0 (Fl _ Hz)) as Hlt.
      exact (proj1 (law_less c laws _ _ Hlt)).
  - rewrite (filter_all _ (inorder r)).
    + rewrite !length_app. cbn [length]. rewrite (IHl Ol). lia.
    + intros z Hz. apply negb_true_iff, Z.eqb_neq.
      assert (Hxy : below c x y) by (unfold below; lia).
      pose proof (law_trans c laws _ _ _ Hxy (Fr _ Hz)) as Hlt.
      unfold below in Hlt. lia.
  - rewrite (filter_all _ (inorder l)).
    + rewrite !length_app. cbn [length]. rewrite (IHr Or). lia.
    + intros z Hz. apply negb_true_iff, Z.eqb_neq.
      pose proof (law_greater c laws _ _ E0 E1) as Hyx.
      pose proof (law_trans c laws _ _ _ (Fl _ Hz) Hyx) as Hlt.
      exact (proj1 (law_less c laws _ _ Hlt)).
Qed.

End UpsertPublic.

(** [Upsert] on a valid tree. *)
Lemma Upsert_valid {T : Type} (t : RedBlackTree T) (x : T)
  (fuel k : nat) :
  lawful (compare t) ->
  validTree t = true ->
  (2 + size (root t) < fuel)%nat ->
  exists (r : RedBlackTree T) (k' : nat),
    Upsert fuel (Some t) x k = Ok (Some r, k') /\
    compare r = compare t /\
    validTree r = true /\ isRedNode (root r) = false.
Proof.
  intros laws Hv Hf. pose proof (Upsert_total t x fuel k Hf) as Hret.
  destruct (Upsert fuel (Some t) x k) as [[r k']| |] eqn:E;
    cbn in Hret; try contradiction.
  destruct (Upsert_inv t x fuel k r k' E) as (n & -> & Hb & Hi & Hrr & Hbh).
  exists (mkTree (compare t) n), k'. split; [reflexivity|].
  split; [reflexivity|]. split; [|exact Hb].
  unfold validTree in *. cbn [root compare].
  apply andb_true_iff in Hv. destruct Hv as [Hv Ho].
  apply andb_true_iff in Hv. destruct Hv as [H1 H2].
  rewrite (Hrr H1), (Hbh H2). cbn [andb].
  apply (sorted_ordered (compare t)). rewrite Hi.
  apply (inserted_sorted (compare t) laws). exact Ho.
Qed.

(** The items of the tree [Upsert] returns. *)
Lemma Upsert_contents {T : Type} (zeroVal : T) (t : RedBlackTree T) (x : T)
  (fuel k : nat) :
  lawful (compare t) ->
  ordered (compare t) (root t) = true ->
  (2 + size (root t) < fuel)%nat ->
  exists (r : RedBlackTree T) (k' : nat),
    Upsert fuel (Some t) x k = Ok (Some r, k') /\
    iterate zeroVal fuel (Some r) = Ok (inserted (compare t) x (root t)) /\
    StronglySorted (below (compare t)) (inserted (compare t) x (root t)) /\
    (forall z, hasItem z (root r) <->
               z = x \/ (hasItem z (root t) /\ compare t x z <> 0)) /\
    size (root r)
    = S (length (filter (fun y => negb (compare t x y =? 0))
                   (inorder (root t)))).
Proof.
  intros laws Ho Hf. pose proof (Upsert_total t x fuel k Hf) as Hret.
  destruct (Upsert fuel (Some t) x k) as [[r k']| |] eqn:E;
    cbn in Hret; try contradiction.
  destruct (Upsert_inv t x fuel k r k' E) as (n & -> & Hb & Hi & _ & _).
  exists (mkTree (compare t) n), k'. split; [reflexivity|].
  assert (Hsize : size n
    = S (length (filter (fun y => negb (compare t x y =? 0))
                   (inorder (root t))))).
  { rewrite <- inorder_length, Hi. apply inserted_length; assumption. }
  split.
  { rewrite <- Hi. apply iterate_inorder. rewrite Hsize.
    pose proof (filter_length_le (fun y => negb (compare t x y =? 0))
                  (inorder (root t))) as Hle.
    rewrite inorder_length in Hle. lia. }
  split; [apply inserted_sorted; assumption|].
  split; [|exact Hsize].
  intros z. cbn [root]. rewrite <- !inorder_hasItem, Hi.
  apply inserted_items; assumption.
Qed.

(** ** The loop of the caller *)

Lemma compare_int_lawful : lawful compare_int.
Proof.
  split; unfold below, compare_int; intros;
    repeat match goal with
           | H : context [?a <? ?b] |- _ => destruct (Z.ltb_spec a b)
           | |- context [?a <? ?b] => destruct (Z.ltb_spec a b)
           | H : context [?a =? ?b] |- _ => destruct (Z.eqb_spec a b)
           | |- context [?a =? ?b] => destruct (Z.eqb_spec a b)
           end; lia.
Qed.

Lemma compare_int_zero (a b : Z) : compare_int a b = 0 <-> a = b.
Proof.
  unfold compare_int. destruct (Z.ltb_spec a b); destruct (Z.eqb_spec a b); lia.
Qed.

Lemma StronglySorted_impl {A} (R S : A -> A -> Prop) (l : list A) :
  (forall a b, R a b -> S a b) -> StronglySorted R l -> StronglySorted S l.
Proof.
  intros H. induction 1 as [|a l Hl IH Ha]; constructor; [exact IH|].
  eapply Forall_impl; [|exact Ha]. intros b. apply H.
Qed.

(** The loop of example.go, from any valid tree. *)
Lemma upsertAll_valid (items : list Z) :
  forall (fuel : nat) (t : RedBlackTree Z) (k : nat),
    compare t = compare_int -> validTree t = true ->
    (2 + size (root t) + length items < fuel)%nat ->
    exists (r : RedBlackTree Z) (k' : nat),
      upsertAll fuel (Some t) items k = Ok (Some r, k') /\
      compare r = compare_int /\ validTree r = true /\
      (size (root r) <= size (root t) + length items)%nat /\
      forall z, In z (inorder (root r)) <->
                In z (inorder (root t)) \/ In z items.
Proof.
  induction items as [|x items IH]; intros fuel t k Hc Hv Hf.
  - exists t, k. cbn. repeat split; auto; try lia; tauto.
  - cbn [length] in Hf. cbn [upsertAll].
    assert (laws : lawful (compare t)) by (rewrite Hc; exact compare_int_lawful).
    destruct (Upsert_valid t x fuel k laws Hv ltac:(lia))
      as (r1 & k1 & E1 & C1 & V1 & _).
    assert (Ho : ordered (compare t) (root t) = true).
    { unfold validTree in Hv. apply andb_true_iff in Hv. tauto. }
    destruct (Upsert_contents 0 t x fuel k laws Ho ltac:(lia))
      as (r1' & k1' & E1' & _ & _ & Hitems & Hsize).
    rewrite E1 in E1'. inversion E1'; subst r1' k1'; clear E1'.
    assert (Hle : (size (root r1) <= S (size (root t)))%nat).
    { rewrite Hsize.
      pose proof (filter_length_le (fun y => negb (compare t x y =? 0))
                    (inorder (root t))) as Hl.
      rewrite inorder_length in Hl. lia. }
    destruct (IH fuel r1 k1) as (r & k' & E & C & V & S & I);
      [rewrite C1; exact Hc | exact V1 | lia |].
    exists r, k'. erewrite bind_ok by exact E1.
    split; [exact E|]. split; [exact C|]. split; [exact V|].
    split; [cbn [length]; lia|].
    intros z. rewrite I. cbn [In].
    rewrite !inorder_hasItem, Hitems, <- !inorder_hasItem, Hc.
    rewrite compare_int_zero.
    destruct (Z.eq_dec x z); intuition.
Qed.

(** ** Deleting an item that is not there *)

Section DeleteAbsent.

Context {T : Type}.
Variable c : Compare T.
Variable x : T.

Lemma subtract_nil (fuel : nat) (n : node T) (k : nat) :
  (0 < fuel)%nat -> subtract fuel c n Nil k = Ok (n, k).
Proof. destruct fuel; [lia | reflexivity]. Qed.

(** [subtract] of a single node from a tree none of whose items the
    comparator finds equal to it: the path of the descent is copied, and
    nothing else changes. *)
Lemma subtract_absent (fuel : nat) :
  forall (n : node T) (a k : nat),
    (size n < fuel)%nat -> n <> Nil ->
    (forall y, In y (inorder n) -> c x y <> 0) ->
    exists R k',
      subtract fuel c n (Node a x red Nil Nil) k = Ok (R, k') /\
      R <> Nil /\ inorder R = inorder n /\
      blackHeight R = blackHeight n /\
      (noRedRed n = true ->
       noRedRed R = true /\ isRedNode R = isRedNode n).
Proof.
  induction fuel as [|fuel IH]; intros n a k Hf Hn Habs; [lia|].
  destruct n as [|na ni nc nl nr]; [contradiction|].
  cbn [size] in Hf. unfold red. cbn [subtract]. cbv zeta.
  assert (Hni : c x ni <> 0).
  { apply Habs. cbn [inorder]. apply in_or_app. right. left. reflexivity. }
  destruct (Z.eqb_spec (c x ni) 0) as [E0 | _]; [contradiction|].
  assert (Hf0 : (0 < fuel)%nat) by lia.
  destruct (c x ni =? -1).
  - destruct nl as [|la lx lc ll lr].
    + exists (Node na ni nc Nil nr), k. repeat split; auto.
    + erewrite bind_ok by reflexivity.
      erewrite bind_ok by reflexivity.
      destruct (IH (Node la lx lc ll lr) k (S k)) as (l' & k1 & E1 & N1 & I1 & H1 & V1).
      * cbn [size] in *. lia.
      * discriminate.
      * intros y Hy. apply Habs. cbn [inorder]. apply in_or_app. left. exact Hy.
      * unfold red in E1. erewrite bind_ok by exact E1.
        erewrite bind_ok by reflexivity.
        destruct (balance_keeps (Node k1 ni nc l' nr) (S k1))
          as (n2 & k2 & E2 & I2 & _ & H2 & N2 & _).
        erewrite bind_ok by exact E2.
        exists n2, k2. split; [apply subtract_nil; exact Hf0|].
        split; [apply N2; discriminate|].
        split; [rewrite I2; cbn [inorder]; rewrite I1; reflexivity|].
        split; [rewrite H2; cbn [blackHeight]; rewrite H1; reflexivity|].
        intros Hv. apply noRedRed_inv in Hv. destruct Hv as (Hc & Hvl & Hvr).
        destruct (V1 Hvl) as [Vl Rl].
        assert (Hv1 : noRedRed (Node k1 ni nc l' nr) = true).
        { cbn [noRedRed]. rewrite Rl, Hc, Vl, Hvr. reflexivity. }
        rewrite (balance_valid_noop _ _ Hv1) in E2. inversion E2; subst n2 k2.
        split; [exact Hv1 | reflexivity].
  - destruct nr as [|ra rx rc rl rr].
    + exists (Node na ni nc nl Nil), k. repeat split; auto.
    + erewrite bind_ok by reflexivity.
      erewrite bind_ok by reflexivity.
      destruct (IH (Node ra rx rc rl rr) k (S k)) as (r' & k1 & E1 & N1 & I1 & H1 & V1).
      * cbn [size] in *. lia.
      * discriminate.
      * intros y Hy. apply Habs. cbn [inorder]. apply in_or_app. right.
        right. exact Hy.
      * unfold red in E1. erewrite bind_ok by exact E1.
        erewrite bind_ok by reflexivity.
        destruct (balance_keeps (Node k1 ni nc nl r') (S k1))
          as (n2 & k2 & E2 & I2 & _ & H2 & N2 & _).
        erewrite bind_ok by exact E2.
        exists n2, k2. split; [apply subtract_nil; exact Hf0|].
        split; [apply N2; discriminate|].
        split; [rewrite I2; cbn [inorder]; rewrite I1; reflexivity|].
        split; [rewrite H2; cbn [blackHeight]; rewrite H1; reflexivity|].
        intros Hv. apply noRedRed_inv in Hv. destruct Hv as (Hc & Hvl & Hvr).
        destruct (V1 Hvr) as [Vr Rr].
        assert (Hv1 : noRedRed (Node k1 ni nc nl r') = true).
        { cbn [noRedRed]. rewrite Rr, Hc, Vr, Hvl. reflexivity. }
        rewrite (balance_valid_noop _ _ Hv1) in E2. inversion E2; subst n2 k2.
        split; [exact Hv1 | reflexivity].
Qed.

End DeleteAbsent.

(** [Delete] of an item that is not in the tree. *)
Lemma Delete_absent {T : Type} (t : RedBlackTree T) (x : T)
  (fuel k : nat) :
  (forall y, hasItem y (root t) -> compare t x y <> 0) ->
  (size (root t) < fuel)%nat ->
  exists (r : RedBlackTree T) (k' : nat),
    Delete fuel (Some t) x k = Ok (Some r, k') /\
    compare r = compare t /\
    inorder (root r) = inorder (root t) /\
    (noRedRed (root t) = true -> noRedRed (root r) = true) /\
    (equalBlackHeight (root t) = true -> equalBlackHeight (root r) = true) /\
    (ordered (compare t) (root t) = true -> lawful (compare t) ->
     ordered (compare r) (root r) = true).
Proof.
  intros Habs Hf. destruct t as [c n]. cbn [root compare] in *.
  unfold Delete. cbn [root compare].
  destruct n as [|na ni nc nl nr].
  - exists (mkTree c Nil), k. repeat split; auto.
  - set (n := Node na ni nc nl nr) in *.
    erewrite bind_ok by reflexivity.
    destruct (subtract_absent c x fuel n k (S k) Hf ltac:(discriminate))
      as (R & k1 & E1 & N1 & I1 & H1 & V1).
    { intros y Hy. apply Habs. apply inorder_hasItem. exact Hy. }
    unfold red in E1. erewrite bind_ok by exact E1.
    destruct (copyWithColor R black k1) as [[R' k2]| |] eqn:EC;
      [| destruct R; [contradiction | cbn in EC; destruct (Bool.eqb c0 black); discriminate]..].
    destruct (copyWithColor_black _ _ _ _ EC) as (_ & C1 & C2 & _ & C3 & C4).
    exists (mkTree c R'), k2. erewrite bind_ok by exact EC.
    split; [reflexivity|]. split; [reflexivity|]. cbn [root compare].
    split; [rewrite C2; exact I1|].
    split.
    { intros Hv. apply C3. apply noRedRed_nearly. apply V1. exact Hv. }
    split.
    { intros Hb. apply C4. unfold equalBlackHeight in *. rewrite H1. exact Hb. }
    intros Ho laws. apply sorted_ordered. rewrite C2, I1.
    apply (ordered_sorted c laws). exact Ho.
Qed.

(** ** Merging a tree into a gap *)

Section Merge.

Context {T : Type}.
Variable c : Compare T.
Hypothesis laws : lawful c.

(** Where the item of the root lies when the items of a tree are cut in
    two. *)
Lemma cut_cases (l1 l2 L Rr : list T) (y : T) :
  l1 ++ y :: l2 = L ++ Rr ->
  (exists mid, l1 = L ++ mid /\ Rr = mid ++ y :: l2) \/
  (exists mid, L = l1 ++ y :: mid /\ l2 = mid ++ Rr).
Proof.
  intros E. apply app_eq_app in E. destruct E as (l & [[E1 E2] | [E1 E2]]).
  - left. exists l. auto.
  - destruct l as [|z l].
    + left. exists []. cbn in E2. rewrite app_nil_r in E1 |- *. subst. auto.
    + right. cbn in E2. inversion E2; subst. exists l. auto.
Qed.

Lemma less_test (a b : T) :
  below c a b -> (c a b =? 0) = false /\ (c a b =? -1) = true.
Proof.
  intros H. rewrite (law_minus_one c laws a b H). split; reflexivity.
Qed.

Lemma greater_test (a b : T) :
  below c b a -> (c a b =? 0) = false /\ (c a b =? -1) = false.
Proof.
  intros H. destruct (law_less c laws b a H) as [H0 H1].
  split; apply Z.eqb_neq; assumption.
Qed.

(** [upsert] of a whole tree whose items all fall into one gap between the
    items of the receiver puts them into that gap. *)
Lemma upsert_gap (fuel : nat) :
  forall (n ins : node T) (L Rr : list T) (k : nat),
    n <> Nil -> (2 * size ins + size n < fuel)%nat ->
    StronglySorted (below c) (inorder ins) ->
    inorder n = L ++ Rr ->
    (forall y z, In y L -> In z (inorder ins) -> below c y z) ->
    (forall y z, In y Rr -> In z (inorder ins) -> below c z y) ->
    exists R k',
      upsert fuel c n ins k = Ok (R, k') /\ R <> Nil /\
      inorder R = L ++ inorder ins ++ Rr /\
      size R = (size n + size ins)%nat.
Proof.
  induction fuel as [|fuel IH]; intros n ins L Rr k Hn Hf Hs Hcut HL HR;
    [lia|].
  cbn [upsert].
  destruct ins as [|ia ii ic il ir].
  { exists n, k. cbn. repeat split; auto. }
  destruct n as [|na ni nc nl nr]; [contradiction|].
  cbv zeta. cbn [size] in Hf. cbn [inorder] in Hcut, Hs, HL, HR.
  destruct (StronglySorted_split c _ _ _ Hs) as (S1 & S2 & F1 & F2).
  rewrite Forall_forall in F1, F2.
  assert (Sleft : StronglySorted (below c) (inorder il ++ [ii])).
  { apply (StronglySorted_join c (law_trans c laws)); auto.
    - constructor.
    - apply Forall_forall. exact F1. }
  assert (Sright : StronglySorted (below c) (ii :: inorder ir)).
  { constructor; [exact S2 | apply Forall_forall; exact F2]. }
  assert (Hii : In ii (inorder il ++ ii :: inorder ir)).
  { apply in_or_app. right. left. reflexivity. }
  destruct (cut_cases _ _ _ _ _ Hcut) as [(mid & E1 & E2) | (mid & E1 & E2)].
  - (* the root of the receiver lies right of the gap *)
    assert (Hlt : below c ii ni).
    { apply HR; [|exact Hii]. rewrite E2. apply in_or_app. right. left.
      reflexivity. }
    destruct (less_test _ _ Hlt) as [T0 T1]. rewrite T0, T1.
    destruct nl as [|la lx lc ll lr].
    + cbn [inorder] in E1. symmetry in E1. apply app_eq_nil in E1.
      destruct E1 as [-> ->]. cbn [app] in E2. subst Rr.
      erewrite bind_ok by reflexivity.
      destruct (balance_keeps (Node k ni nc (Node ia ii ic il ir) nr) (S k))
        as (R & k1 & EB & IB & SB & _ & NB & _).
      exists R, k1. split; [exact EB|]. split; [apply NB; discriminate|].
      split; [rewrite IB; cbn [inorder app]; rewrite <- app_assoc; reflexivity|].
      rewrite SB. cbn [size]. lia.
    + erewrite bind_ok by reflexivity.
      destruct (balance_keeps (Node k ii ic il Nil) (S k))
        as (t' & k1 & ET & IT & ST & _ & NT & _).
      erewrite bind_ok by exact ET.
      cbn [inorder size] in IT, ST.
      destruct (IH (Node la lx lc ll lr) t' L mid k1)
        as (l' & k2 & EL & NL & IL & SL).
      * discriminate.
      * rewrite ST. cbn [size] in *. lia.
      * rewrite IT. exact Sleft.
      * exact E1.
      * intros y z Hy Hz. apply HL; [exact Hy|]. rewrite IT in Hz.
        apply in_app_iff in Hz. apply in_or_app.
        destruct Hz as [Hz | [<- | []]]; [left; exact Hz | right; left; reflexivity].
      * intros y z Hy Hz. apply HR.
        -- rewrite E2. apply in_or_app. left. exact Hy.
        -- rewrite IT in Hz. apply in_app_iff in Hz. apply in_or_app.
           destruct Hz as [Hz | [<- | []]];
             [left; exact Hz | right; left; reflexivity].
      * erewrite bind_ok by exact EL. erewrite bind_ok by reflexivity.
        destruct (balance_keeps (Node k2 ni nc l' nr) (S k2))
          as (n2 & k3 & EB & IB & SB & _ & NB & _).
        erewrite bind_ok by exact EB. cbn [inorder size] in IB, SB.
        destruct (IH n2 ir (L ++ inorder il ++ [ii]) Rr k3)
          as (R & k4 & ER & NR & IR & SR).
        -- apply NB. discriminate.
        -- rewrite SB, SL, ST. cbn [size] in *. lia.
        -- exact S2.
        -- rewrite IB, IL, IT, E2. rewrite <- !app_assoc. reflexivity.
        -- intros y z Hy Hz. apply in_app_iff in Hy.
           destruct Hy as [Hy | Hy].
           ++ apply HL; [exact Hy|]. apply in_or_app. right. right. exact Hz.
           ++ apply in_app_iff in Hy. destruct Hy as [Hy | [<- | []]].
              ** exact (law_trans c laws _ _ _ (F1 _ Hy) (F2 _ Hz)).
              ** exact (F2 _ Hz).
        -- intros y z Hy Hz. apply HR; [exact Hy|].
           apply in_or_app. right. right. exact Hz.
        -- exists R, k4. split; [exact ER|]. split; [exact NR|].
           split; [rewrite IR; cbn [inorder]; rewrite <- !app_assoc; cbn [app];
                   reflexivity|].
           rewrite SR, SB, SL, ST. cbn [size]. lia.
  - (* the root of the receiver lies left of the gap *)
    assert (Hgt : below c ni ii).
    { apply HL; [|exact Hii]. rewrite E1. apply in_or_app. right. left.
      reflexivity. }
    destruct (greater_test _ _ Hgt) as [T0 T1]. rewrite T0, T1.
    destruct nr as [|ra rx rc rl rr].
    + cbn [inorder] in E2. symmetry in E2. apply app_eq_nil in E2.
      destruct E2 as [-> ->]. subst L.
      erewrite bind_ok by reflexivity.
      destruct (balance_keeps (Node k ni nc nl (Node ia ii ic il ir)) (S k))
        as (R & k1 & EB & IB & SB & _ & NB & _).
      exists R, k1. split; [exact EB|]. split; [apply NB; discriminate|].
      split; [rewrite IB; cbn [inorder]; rewrite app_nil_r, <- !app_assoc;
              reflexivity|].
      rewrite SB. cbn [size]. lia.
    + erewrite bind_ok by reflexivity.
      destruct (balance_keeps (Node k ii ic Nil ir) (S k))
        as (t' & k1 & ET & IT & ST & _ & NT & _).
      erewrite bind_ok by exact ET.
      cbn [inorder size app] in IT, ST.
      destruct (IH (Node ra rx rc rl rr) t' mid Rr k1)
        as (r' & k2 & EL & NL & IL & SL).
      * discriminate.
      * rewrite ST. cbn [size] in *. lia.
      * rewrite IT. exact Sright.
      * exact E2.
      * intros y z Hy Hz. apply HL.
        -- rewrite E1. apply in_or_app. right. right. exact Hy.
        -- rewrite IT in Hz. apply in_or_app. right. exact Hz.
      * intros y z Hy Hz. apply HR; [exact Hy|]. rewrite IT in Hz.
        apply in_or_app. right. exact Hz.
      * erewrite bind_ok by exact EL. erewrite bind_ok by reflexivity.
        destruct (balance_keeps (Node k2 ni nc nl r') (S k2))
          as (n2 & k3 & EB & IB & SB & _ & NB & _).
        erewrite bind_ok by exact EB. cbn [inorder size] in IB, SB.
        destruct (IH n2 il L (ii :: inorder ir ++ Rr) k3)
          as (R & k4 & ER & NR & IR & SR).
        -- apply NB. discriminate.
        -- rewrite SB, SL, ST. cbn [size] in *. lia.
        -- exact S1.
        -- rewrite IB, IL, IT, E1. rewrite <- !app_assoc. reflexivity.
        -- intros y z Hy Hz. apply HL; [exact Hy|].
           apply in_or_app. left. exact Hz.
        -- intros y z Hy Hz. destruct Hy as [<- | Hy]; [exact (F1 _ Hz)|].
           apply in_app_iff in Hy. destruct Hy as [Hy | Hy].
           ++ exact (law_trans c laws _ _ _ (F1 _ Hz) (F2 _ Hy)).
           ++ apply HR; [exact Hy|]. apply in_or_app. left. exact Hz.
        -- exists R, k4. split; [exact ER|]. split; [exact NR|].
           split; [rewrite IR; cbn [inorder]; rewrite <- !app_assoc; cbn [app];
                   reflexivity|].
           rewrite SR, SB, SL, ST. cbn [size]. lia.
Qed.

End Merge.

(** ** Deleting an item *)

Section DeleteFacts.

Context {T : Type}.
Variable c : Compare T.
Hypothesis laws : lawful c.

Lemma StronglySorted_app (l1 l2 : list T) :
  StronglySorted (below c) l1 -> StronglySorted (below c) l2 ->
  (forall y z, In y l1 -> In z l2 -> below c y z) ->
  StronglySorted (below c) (l1 ++ l2).
Proof.
  intros S1 S2 H. induction S1 as [|y l1 S1 IH Hy]; cbn [app]; [exact S2|].
  constructor.
  - apply IH. intros u v Hu Hv. apply H; [right; exact Hu | exact Hv].
  - apply Forall_app. split; [exact Hy|]. apply Forall_forall.
    intros z Hz. apply H; [left; reflexivity | exact Hz].
Qed.

Lemma StronglySorted_filter (p : T -> bool) (l : list T) :
  StronglySorted (below c) l -> StronglySorted (below c) (filter p l).
Proof.
  induction 1 as [|y l S IH Hy]; cbn [filter]; [constructor|].
  destruct (p y); [|exact IH]. constructor; [exact IH|].
  apply Forall_forall. intros z Hz. apply filter_In in Hz.
  rewrite Forall_forall in Hy. apply Hy. tauto.
Qed.

Lemma ordered_node (a : nat) (y : T) (col : color) (l r : node T) :
  ordered c (Node a y col l r) = true ->
  (forall w, In w (inorder l) -> below c w y) /\
  (forall w, In w (inorder r) -> below c y w) /\
  ordered c l = true /\ ordered c r = true.
Proof.
  cbn [ordered]. rewrite !andb_true_iff. intros [[[Hl Hr] Ol] Or].
  repeat split; auto.
  - apply Forall_forall. eapply Forall_impl; [|exact (allItems_Forall _ _ Hl)].
    cbv beta. intros w Hw. apply Z.ltb_lt. exact Hw.
  - apply Forall_forall. eapply Forall_impl; [|exact (allItems_Forall _ _ Hr)].
    cbv beta. intros w Hw. apply Z.ltb_lt. exact Hw.
Qed.

(** [combinedChildren] of a node of an ordered tree joins its two subtrees
    in order. *)
Lemma combinedChildren_joins (fuel a : nat) (y : T) (col : color)
  (l r : node T) (k : nat) :
  ordered c (Node a y col l r) = true ->
  (2 * size r + size l < fuel)%nat ->
  exists j k', combinedChildren fuel c (Node a y col l r) k = Ok (j, k') /\
               inorder j = inorder l ++ inorder r /\
               size j = (size l + size r)%nat.
Proof.
  intros Ho Hf. destruct (ordered_node _ _ _ _ _ Ho) as (Fl & Fr & Ol & Or).
  cbn [combinedChildren]. destruct l as [|la lx lc ll lr].
  - exists r, k. repeat split.
  - destruct (upsert_gap c laws fuel (Node la lx lc ll lr) r
                (inorder (Node la lx lc ll lr)) [] k)
      as (j & k' & E & _ & I & S).
    + discriminate.
    + exact Hf.
    + apply (ordered_sorted c laws). exact Or.
    + rewrite app_nil_r. reflexivity.
    + intros u v Hu Hv. exact (law_trans c laws _ _ _ (Fl _ Hu) (Fr _ Hv)).
    + intros u v [].
    + exists j, k'. split; [exact E|]. rewrite I, app_nil_r. auto.
Qed.

Variable x : T.

Let keep (y : T) : bool := negb (c x y =? 0).

(** [subtract] of a single node from an ordered tree removes the items the
    comparator finds equal to it, and no other. *)
Lemma subtract_removes (fuel : nat) :
  forall (n : node T) (a k : nat),
    (2 * size n + 1 < fuel)%nat -> n <> Nil -> ordered c n = true ->
    exists R k',
      subtract fuel c n (Node a x red Nil Nil) k = Ok (R, k') /\
      inorder R = filter keep (inorder n) /\
      (size R <= size n)%nat.
Proof.
  induction fuel as [|fuel IH]; intros n a k Hf Hn Ho; [lia|].
  destruct n as [|na ni nc nl nr]; [contradiction|].
  destruct (ordered_node _ _ _ _ _ Ho) as (Fl & Fr & Ol & Or).
  cbn [size] in Hf. unfold red. cbn [subtract]. cbv zeta.
  cbn [inorder]. rewrite filter_app. cbn [filter]. unfold keep at 2.
  assert (Hf0 : (0 < fuel)%nat) by lia.
  destruct (Z.eqb_spec (c x ni) 0) as [E0 | E0];
    [|destruct (Z.eqb_spec (c x ni) (-1)) as [E1 | E1]]; cbn [negb].
  - destruct (combinedChildren_joins fuel na ni nc nl nr k Ho ltac:(lia))
      as (j & k1 & EJ & IJ & SJ).
    erewrite bind_ok by exact EJ.
    erewrite bind_ok by (apply subtract_nil; exact Hf0).
    exists j, k1. split; [apply subtract_nil; exact Hf0|].
    split; [|cbn [size]; lia].
    rewrite IJ, !filter_all; [reflexivity | |].
    + intros z Hz. apply negb_true_iff, Z.eqb_neq.
      pose proof (law_equal_right c laws _ _ _ E0 (Fr _ Hz)) as Hlt.
      unfold below in Hlt. lia.
    + intros z Hz. apply negb_true_iff, Z.eqb_neq.
      pose proof (law_equal_left c laws _ _ _ E0 (Fl _ Hz)) as Hlt.
      exact (proj1 (law_less c laws _ _ Hlt)).
  - assert (Kr : filter keep (inorder nr) = inorder nr).
    { apply filter_all. intros z Hz. apply negb_true_iff, Z.eqb_neq.
      assert (Hxy : below c x ni) by (unfold below; lia).
      pose proof (law_trans c laws _ _ _ Hxy (Fr _ Hz)) as Hlt.
      unfold below in Hlt. lia. }
    rewrite Kr. destruct nl as [|la lx lc ll lr].
    + exists (Node na ni nc Nil nr), k. repeat split. cbn [size]. lia.
    + erewrite bind_ok by reflexivity.
      erewrite bind_ok by reflexivity.
      destruct (IH (Node la lx lc ll lr) k (S k)) as (l' & k1 & E & I & Sz);
        [cbn [size] in *; lia | discriminate | exact Ol |].
      unfold red in E. erewrite bind_ok by exact E.
      erewrite bind_ok by reflexivity.
      destruct (balance_keeps (Node k1 ni nc l' nr) (S k1))
        as (n2 & k2 & EB & IB & SB & _).
      erewrite bind_ok by exact EB.
      exists n2, k2. split; [apply subtract_nil; exact Hf0|].
      split; [rewrite IB; cbn [inorder]; rewrite I; reflexivity|].
      rewrite SB. cbn [size] in *. lia.
  - assert (Kl : filter keep (inorder nl) = inorder nl).
    { apply filter_all. intros z Hz. apply negb_true_iff, Z.eqb_neq.
      pose proof (law_greater c laws _ _ E0 E1) as Hyx.
      pose proof (law_trans c laws _ _ _ (Fl _ Hz) Hyx) as Hlt.
      exact (proj1 (law_less c laws _ _ Hlt)). }
    rewrite Kl. destruct nr as [|ra rx rc rl rr].
    + exists (Node na ni nc nl Nil), k. repeat split. cbn [size]. lia.
    + erewrite bind_ok by reflexivity.
      erewrite bind_ok by reflexivity.
      destruct (IH (Node ra rx rc rl rr) k (S k)) as (r' & k1 & E & I & Sz);
        [cbn [size] in *; lia | discriminate | exact Or |].
      unfold red in E. erewrite bind_ok by exact E.
      erewrite bind_ok by reflexivity.
      destruct (balance_keeps (Node k1 ni nc nl r') (S k1))
        as (n2 & k2 & EB & IB & SB & _).
      erewrite bind_ok by exact EB.
      exists n2, k2. split; [apply subtract_nil; exact Hf0|].
      split; [rewrite IB; cbn [inorder]; rewrite I; reflexivity|].
      rewrite SB. cbn [size] in *. lia.
Qed.

End DeleteFacts.

(** [Delete] on an ordered tree. *)
Lemma Delete_removes {T : Type} (t : RedBlackTree T) (x : T)
  (fuel k : nat) :
  lawful (compare t) ->
  ordered (compare t) (root t) = true ->
  (2 * size (root t) + 1 < fuel)%nat ->
  (filter (fun y => negb (compare t x y =? 0)) (inorder (root t)) = [] ->
   root t <> Nil -> Delete fuel (Some t) x k = Panic) /\
  (filter (fun y => negb (compare t x y =? 0)) (inorder (root t)) <> [] ->
   exists (r : RedBlackTree T) (k' : nat),
     Delete fuel (Some t) x k = Ok (Some r, k') /\
     compare r = compare t /\
     inorder (root r)
     = filter (fun y => negb (compare t x y =? 0)) (inorder (root t)) /\
     ordered (compare r) (root r) = true /\
     isRedNode (root r) = false).
Proof.
  intros laws Ho Hf. destruct t as [c n]. cbn [root compare] in *.
  unfold Delete. cbn [root compare].
  destruct n as [|na ni nc nl nr].
  - split; [intros _ H; contradiction H; reflexivity|].
    intros H. contradiction H. reflexivity.
  - set (n := Node na ni nc nl nr) in *.
    destruct (subtract_removes c laws x fuel n k (S k) Hf ltac:(discriminate) Ho)
      as (R & k1 & E & I & _).
    unfold red in E. split.
    + intros Hnil _. erewrite bind_ok by reflexivity.
      erewrite bind_ok by exact E.
      rewrite Hnil in I. destruct R; [reflexivity|].
      cbn [inorder] in I. apply app_eq_nil in I. destruct I as [_ I].
      discriminate.
    + intros Hne. erewrite bind_ok by reflexivity.
      erewrite bind_ok by exact E.
      destruct (copyWithColor R black k1) as [[R' k2]| |] eqn:EC.
      * destruct (copyWithColor_black _ _ _ _ EC) as (_ & C1 & C2 & _).
        exists (mkTree c R'), k2. erewrite bind_ok by exact EC.
        split; [reflexivity|].
        split; [reflexivity|]. cbn [root compare].
        split; [rewrite C2; exact I|]. split; [|exact C1].
        apply sorted_ordered. rewrite C2, I. apply StronglySorted_filter.
        apply (ordered_sorted c laws). exact Ho.
      * destruct R; [rewrite <- I in Hne; contradiction Hne; reflexivity|].
        cbn in EC. destruct (Bool.eqb c0 black); discriminate.
      * destruct R; [discriminate|].
        cbn in EC. destruct (Bool.eqb c0 black); discriminate.
Qed.

(** ** Where the items of a result come from *)

Section Soundness.

Context {T : Type}.
Variable c : Compare T.

Lemma balance_inorder (t B : node T) (k k' : nat) :
  balance t k = Ok (B, k') -> inorder B = inorder t.
Proof. intros E. exact (proj1 (balance_inv_keeps _ _ _ _ E)). Qed.

Ltac alloc_inv E :=
  cbn in E; inversion E; subst; clear E.

Ltac in_norm :=
  repeat (rewrite ?in_app_iff in *; cbn [In inorder] in * ).

(** [upsert] returns no item that is in neither tree. *)
Lemma upsert_incl (fuel : nat) :
  forall (n ins R : node T) (k k' : nat),
    upsert fuel c n ins k = Ok (R, k') ->
    forall y, In y (inorder R) -> In y (inorder n) \/ In y (inorder ins).
Proof.
  induction fuel as [|fuel IH]; intros n ins R k k' E; [discriminate|].
  cbn [upsert] in E.
  destruct ins as [|ia ii ic il ir].
  { inversion E; subst. auto. }
  destruct n as [|na ni nc nl nr]; [discriminate|].
  cbv zeta in E.
  destruct (c ii ni =? 0); [|destruct (c ii ni =? -1)].
  - apply bind_inv in E. destruct E as (n1 & k1 & E1 & E). alloc_inv E1.
    apply bind_inv in E. destruct E as (n2 & k2 & E2 & E).
    pose proof (IH _ _ _ _ _ E2) as H2.
    apply bind_inv in E. destruct E as (n3 & k3 & E3 & E).
    apply balance_inorder in E3.
    apply bind_inv in E. destruct E as (n4 & k4 & E4 & E).
    pose proof (IH _ _ _ _ _ E4) as H4.
    apply balance_inorder in E. intros y Hy. rewrite E in Hy.
    apply H4 in Hy. rewrite E3 in Hy. destruct Hy as [Hy | Hy].
    + apply H2 in Hy. in_norm. intuition.
    + in_norm. intuition.
  - destruct nl as [|la lx lc ll lr].
    + apply bind_inv in E. destruct E as (n1 & k1 & E1 & E). alloc_inv E1.
      apply balance_inorder in E. intros y Hy. rewrite E in Hy.
      in_norm. intuition.
    + apply bind_inv in E. destruct E as (t & k1 & E1 & E). alloc_inv E1.
      apply bind_inv in E. destruct E as (t' & k2 & E2 & E).
      apply balance_inorder in E2.
      apply bind_inv in E. destruct E as (l' & k3 & E3 & E).
      pose proof (IH _ _ _ _ _ E3) as H3.
      apply bind_inv in E. destruct E as (n1 & k4 & E4 & E). alloc_inv E4.
      apply bind_inv in E. destruct E as (n2 & k5 & E5 & E).
      apply balance_inorder in E5.
      pose proof (IH _ _ _ _ _ E) as H6.
      intros y Hy. apply H6 in Hy. rewrite E5 in Hy.
      destruct Hy as [Hy | Hy]; [|in_norm; intuition].
      cbn [inorder] in Hy. apply in_app_iff in Hy.
      destruct Hy as [Hy | Hy]; [|in_norm; intuition].
      apply H3 in Hy. rewrite E2 in Hy. in_norm. intuition.
  - destruct nr as [|ra rx rc rl rr].
    + apply bind_inv in E. destruct E as (n1 & k1 & E1 & E). alloc_inv E1.
      apply balance_inorder in E. intros y Hy. rewrite E in Hy.
      in_norm. intuition.
    + apply bind_inv in E. destruct E as (t & k1 & E1 & E). alloc_inv E1.
      apply bind_inv in E. destruct E as (t' & k2 & E2 & E).
      apply balance_inorder in E2.
      apply bind_inv in E. destruct E as (r' & k3 & E3 & E).
      pose proof (IH _ _ _ _ _ E3) as H3.
      apply bind_inv in E. destruct E as (n1 & k4 & E4 & E). alloc_inv E4.
      apply bind_inv in E. destruct E as (n2 & k5 & E5 & E).
      apply balance_inorder in E5.
      pose proof (IH _ _ _ _ _ E) as H6.
      intros y Hy. apply H6 in Hy. rewrite E5 in Hy.
      destruct Hy as [Hy | Hy]; [|in_norm; intuition].
      cbn [inorder] in Hy. apply in_app_iff in Hy.
      destruct Hy as [Hy | [Hy | Hy]]; [in_norm; intuition.. |].
      apply H3 in Hy. rewrite E2 in Hy. in_norm. intuition.
Qed.

Lemma combinedChildren_incl (fuel : nat) (n j : node T) (k k' : nat) :
  combinedChildren fuel c n k = Ok (j, k') ->
  forall y, In y (inorder j) -> In y (inorder n).
Proof.
  destruct n as [|a z col l r]; [discriminate|]. cbn [combinedChildren].
  destruct l as [|la lx lc ll lr].
  - intros E. inversion E; subst. intros y Hy. in_norm. intuition.
  - intros E y Hy. apply (upsert_incl _ _ _ _ _ _ E) in Hy.
    in_norm. intuition.
Qed.

(** [subtract] returns no item that is not in its receiver. *)
Lemma subtract_incl (fuel : nat) :
  forall (n s R : node T) (k k' : nat),
    subtract fuel c n s k = Ok (R, k') ->
    forall y, In y (inorder R) -> In y (inorder n).
Proof.
  induction fuel as [|fuel IH]; intros n s R k k' E; [discriminate|].
  cbn [subtract] in E.
  destruct s as [|sa si sc sl sr].
  { inversion E; subst. auto. }
  destruct n as [|na ni nc nl nr]; [discriminate|].
  cbv zeta in E.
  destruct (c si ni =? 0); [|destruct (c si ni =? -1)].
  - apply bind_inv in E. destruct E as (j & k1 & E1 & E).
    apply bind_inv in E. destruct E as (j1 & k2 & E2 & E).
    intros y Hy. apply (IH _ _ _ _ _ E) in Hy. apply (IH _ _ _ _ _ E2) in Hy.
    apply (combinedChildren_incl _ _ _ _ _ E1) in Hy. exact Hy.
  - destruct nl as [|la lx lc ll lr].
    + inversion E; subst. auto.
    + apply bind_inv in E. destruct E as (t & k1 & E1 & E). alloc_inv E1.
      apply bind_inv in E. destruct E as (t' & k2 & E2 & E).
      apply bind_inv in E. destruct E as (l' & k3 & E3 & E).
      pose proof (IH _ _ _ _ _ E3) as H3.
      apply bind_inv in E. destruct E as (n1 & k4 & E4 & E). alloc_inv E4.
      apply bind_inv in E. destruct E as (n2 & k5 & E5 & E).
      apply balance_inorder in E5.
      intros y Hy. apply (IH _ _ _ _ _ E) in Hy. rewrite E5 in Hy.
      cbn [inorder] in Hy. apply in_app_iff in Hy.
      destruct Hy as [Hy | Hy]; [|in_norm; intuition].
      apply H3 in Hy. in_norm. intuition.
  - destruct nr as [|ra rx rc rl rr].
    + inversion E; subst. auto.
    + apply bind_inv in E. destruct E as (t & k1 & E1 & E). alloc_inv E1.
      apply bind_inv in E. destruct E as (t' & k2 & E2 & E).
      apply bind_inv in E. destruct E as (r' & k3 & E3 & E).
      pose proof (IH _ _ _ _ _ E3) as H3.
      apply bind_inv in E. destruct E as (n1 & k4 & E4 & E). alloc_inv E4.
      apply bind_inv in E. destruct E as (n2 & k5 & E5 & E).
      apply balance_inorder in E5.
      intros y Hy. apply (IH _ _ _ _ _ E) in Hy. rewrite E5 in Hy.
      cbn [inorder] in Hy. apply in_app_iff in Hy.
      destruct Hy as [Hy | [Hy | Hy]]; [in_norm; intuition.. |].
      apply H3 in Hy. in_norm. intuition.
Qed.

(** Putting a left subtree under a rebalanced node of a tree that satisfies
    invariant 1 on its left keeps no item of the old left subtree. *)
Lemma graft_left (a : nat) (ni : T) (nc : color) (nl rb lb n2 n3 : node T)
  (k k2 k3 : nat) :
  (isRedNode nl = true -> hasRedKid nl = false) ->
  balance (Node a ni nc nl rb) k = Ok (n2, k2) ->
  copyWithLeft n2 lb k2 = Ok (n3, k3) ->
  forall y, In y (inorder n3) ->
            In y (inorder lb) \/ y = ni \/ In y (inorder rb).
Proof.
  intros Hl EB EC.
  destruct (balance_inv _ _ _ _ EB) as [(-> & _ & _) | [R _]].
  - alloc_inv EC. intros y Hy. in_norm. intuition.
  - inversion R; subst.
    + specialize (Hl eq_refl). cbn in Hl. rewrite orb_true_r in Hl.
      discriminate.
    + specialize (Hl eq_refl). discriminate.
    + alloc_inv EC. intros w Hw. in_norm. intuition.
    + alloc_inv EC. intros w Hw. in_norm. intuition.
Qed.

(** [intersection] returns only items of its receiver, and each of them is
    equal, for the comparator, to an item of the other tree. *)
Lemma intersection_sound (fuel : nat) :
  forall (n m R : node T) (k k' : nat),
    noRedRed n = true ->
    intersection fuel c n m k = Ok (R, k') ->
    forall y, In y (inorder R) ->
              In y (inorder n) /\ exists z, In z (inorder m) /\ c z y = 0.
Proof.
  induction fuel as [|fuel IH]; intros n m R k k' Hv E; [discriminate|].
  cbn [intersection] in E.
  destruct n as [|na ni nc nl nr]; [inversion E; subst; intros y []|].
  destruct m as [|ma mi mc ml mr]; [inversion E; subst; intros y []|].
  cbv zeta in E.
  destruct (noRedRed_inv _ _ _ _ _ Hv) as (Hc & Hvl & Hvr).
  destruct (Z.eqb_spec (c mi ni) 0) as [E0 | E0];
    [|destruct (c mi ni =? -1)].
  - apply bind_inv in E. destruct E as (ri & k1 & E1 & E).
    pose proof (IH _ _ _ _ _ Hvr E1) as H1.
    apply bind_inv in E. destruct E as (rb & k2 & E2 & E).
    apply balance_inorder in E2.
    apply bind_inv in E. destruct E as (li & k3 & E3 & E).
    pose proof (IH _ _ _ _ _ Hvl E3) as H3.
    apply bind_inv in E. destruct E as (lb & k4 & E4 & E).
    apply balance_inorder in E4.
    apply bind_inv in E. destruct E as (n1 & k5 & E5 & E). alloc_inv E5.
    apply bind_inv in E. destruct E as (n2 & k6 & E6 & E).
    apply bind_inv in E. destruct E as (n3 & k7 & E7 & E).
    apply balance_inorder in E.
    intros y Hy. rewrite E in Hy.
    destruct (graft_left _ _ _ _ _ _ _ _ _ _ _ (noRedRed_kid nl Hvl) E6 E7 y Hy)
      as [Hy' | [-> | Hy']].
    + rewrite E4 in Hy'. destruct (H3 y Hy') as [Ha (z & Hz & Hzy)].
      split; [in_norm; intuition|]. exists z. split; [in_norm; intuition | exact Hzy].
    + split; [in_norm; intuition|]. exists mi.
      split; [in_norm; intuition | exact E0].
    + rewrite E2 in Hy'. destruct (H1 y Hy') as [Ha (z & Hz & Hzy)].
      split; [in_norm; intuition|]. exists z. split; [in_norm; intuition | exact Hzy].
  - apply bind_inv in E. destruct E as (t & k1 & E1 & E). alloc_inv E1.
    apply bind_inv in E. destruct E as (t' & k2 & E2 & E).
    apply balance_inorder in E2.
    apply bind_inv in E. destruct E as (li & k3 & E3 & E).
    pose proof (IH _ _ _ _ _ Hvl E3) as H3.
    assert (Hrest : forall rest k4 k5,
      intersection fuel c (Node na ni nc nl nr) mr k4 = Ok (rest, k5) ->
      forall y, In y (inorder rest) ->
        In y (inorder (Node na ni nc nl nr)) /\
        exists z, In z (inorder (Node ma mi mc ml mr)) /\ c z y = 0).
    { intros rest k4 k5 Er y Hy.
      destruct (IH _ _ _ _ _ Hv Er y Hy) as [Ha (z & Hz & Hzy)].
      split; [exact Ha|]. exists z. split; [in_norm; intuition | exact Hzy]. }
    assert (Hli : forall y, In y (inorder li) ->
        In y (inorder (Node na ni nc nl nr)) /\
        exists z, In z (inorder (Node ma mi mc ml mr)) /\ c z y = 0).
    { intros y Hy. destruct (H3 y Hy) as [Ha (z & Hz & Hzy)].
      split; [in_norm; intuition|]. exists z. rewrite E2 in Hz.
      split; [in_norm; intuition | exact Hzy]. }
    destruct li as [|a1 x1 c1 l1 r1]; [exact (Hrest _ _ _ E)|].
    apply bind_inv in E. destruct E as (rest & k4 & E4 & E).
    apply bind_inv in E. destruct E as (n1 & k5 & E5 & E). alloc_inv E5.
    apply balance_inorder in E. intros y Hy. rewrite E in Hy.
    cbn [inorder] in Hy. apply in_app_iff in Hy.
    destruct Hy as [Hy | [<- | Hy]].
    + apply Hli. in_norm. intuition.
    + apply Hli. in_norm. intuition.
    + exact (Hrest _ _ _ E4 y Hy).
  - apply bind_inv in E. destruct E as (t & k1 & E1 & E). alloc_inv E1.
    apply bind_inv in E. destruct E as (t' & k2 & E2 & E).
    apply balance_inorder in E2.
    apply bind_inv in E. destruct E as (ri & k3 & E3 & E).
    pose proof (IH _ _ _ _ _ Hvr E3) as H3.
    assert (Hrest : forall rest k4 k5,
      intersection fuel c (Node na ni nc nl nr) ml k4 = Ok (rest, k5) ->
      forall y, In y (inorder rest) ->
        In y (inorder (Node na ni nc nl nr)) /\
        exists z, In z (inorder (Node ma mi mc ml mr)) /\ c z y = 0).
    { intros rest k4 k5 Er y Hy.
      destruct (IH _ _ _ _ _ Hv Er y Hy) as [Ha (z & Hz & Hzy)].
      split; [exact Ha|]. exists z. split; [in_norm; intuition | exact Hzy]. }
    assert (Hri : forall y, In y (inorder ri) ->
        In y (inorder (Node na ni nc nl nr)) /\
        exists z, In z (inorder (Node ma mi mc ml mr)) /\ c z y = 0).
    { intros y Hy. destruct (H3 y Hy) as [Ha (z & Hz & Hzy)].
      split; [in_norm; intuition|]. exists z. rewrite E2 in Hz.
      split; [in_norm; intuition | exact Hzy]. }
    destruct ri as [|a1 x1 c1 l1 r1]; [exact (Hrest _ _ _ E)|].
    apply bind_inv in E. destruct E as (rest & k4 & E4 & E).
    apply bind_inv in E. destruct E as (n1 & k5 & E5 & E). alloc_inv E5.
    apply balance_inorder in E. intros y Hy. rewrite E in Hy.
    cbn [inorder] in Hy. apply in_app_iff in Hy.
    destruct Hy as [Hy | [<- | Hy]].
    + exact (Hrest _ _ _ E4 y Hy).
    + apply Hri. in_norm. intuition.
    + apply Hri. in_norm. intuition.
Qed.

End Soundness.

(** ** What a merge and a subtraction keep *)

Section Coverage.

Context {T : Type}.
Variable c : Compare T.
Hypothesis laws : lawful c.

Ltac alloc_inv E :=
  cbn in E; inversion E; subst; clear E.

Ltac in_norm :=
  repeat (rewrite ?in_app_iff in *; cbn [In inorder] in * ).

Lemma sorted_node (a : nat) (y : T) (col : color) (l r : node T) :
  StronglySorted (below c) (inorder (Node a y col l r)) ->
  StronglySorted (below c) (inorder l) /\
  StronglySorted (below c) (inorder r) /\
  (forall w, In w (inorder l) -> below c w y) /\
  (forall w, In w (inorder r) -> below c y w).
Proof.
  cbn [inorder]. intros H.
  destruct (StronglySorted_split c _ _ _ H) as (S1 & S2 & F1 & F2).
  rewrite Forall_forall in F1, F2. auto.
Qed.

Lemma not_equal_less (a b : T) : below c a b -> c a b <> 0.
Proof. unfold below. lia. Qed.

Lemma not_equal_greater (a b : T) : below c a b -> c b a <> 0.
Proof. intros H. exact (proj1 (law_less c laws a b H)). Qed.

(** The gap lemma, for a run that returned. *)
Lemma upsert_gap_inv (fuel : nat) (n ins R : node T) (L Rr : list T)
  (k k' : nat) :
  n <> Nil ->
  StronglySorted (below c) (inorder ins) ->
  inorder n = L ++ Rr ->
  (forall y z, In y L -> In z (inorder ins) -> below c y z) ->
  (forall y z, In y Rr -> In z (inorder ins) -> below c z y) ->
  upsert fuel c n ins k = Ok (R, k') ->
  inorder R = L ++ inorder ins ++ Rr.
Proof.
  intros Hn Hs Hcut HL HR E.
  destruct (upsert_gap c laws (fuel + S (2 * size ins + size n)) n ins L Rr k
              Hn ltac:(lia) Hs Hcut HL HR) as (R' & k1 & E' & _ & I & _).
  rewrite (upsert_fuel c fuel (fuel + S (2 * size ins + size n)) n ins k
             ltac:(lia)) in E'.
  - rewrite E in E'. inversion E'; subst. exact I.
  - rewrite E. discriminate.
Qed.

(** What [subtract] leaves of an ordered receiver: an ordered tree that
    still has every item without an equal in the subtracted tree. *)
Lemma subtract_keeps (fuel : nat) :
  forall (n s R : node T) (k k' : nat),
    StronglySorted (below c) (inorder n) ->
    subtract fuel c n s k = Ok (R, k') ->
    StronglySorted (below c) (inorder R) /\
    forall y, In y (inorder n) ->
              In y (inorder R) \/ exists z, In z (inorder s) /\ c z y = 0.
Proof.
  induction fuel as [|fuel IH]; intros n s R k k' Hs E; [discriminate|].
  cbn [subtract] in E.
  destruct s as [|sa si sc sl sr].
  { inversion E; subst. auto. }
  destruct n as [|na ni nc nl nr]; [discriminate|].
  cbv zeta in E.
  destruct (sorted_node _ _ _ _ _ Hs) as (Sl & Sr & Fl & Fr).
  destruct (Z.eqb_spec (c si ni) 0) as [E0 | E0];
    [|destruct (c si ni =? -1)].
  - apply bind_inv in E. destruct E as (j & k1 & E1 & E).
    assert (Ij : inorder j = inorder nl ++ inorder nr).
    { cbn [combinedChildren] in E1. destruct nl as [|la lx lc ll lr].
      - inversion E1; subst. reflexivity.
      - rewrite (upsert_gap_inv fuel (Node la lx lc ll lr) nr j
                   (inorder (Node la lx lc ll lr)) [] k k1);
          [rewrite app_nil_r; reflexivity | discriminate | exact Sr
          | rewrite app_nil_r; reflexivity | | | exact E1].
        + intros u v Hu Hv. exact (law_trans c laws _ _ _ (Fl _ Hu) (Fr _ Hv)).
        + intros u v []. }
    assert (Sj : StronglySorted (below c) (inorder j)).
    { rewrite Ij. apply (StronglySorted_app c); auto.
      intros u v Hu Hv. exact (law_trans c laws _ _ _ (Fl _ Hu) (Fr _ Hv)). }
    apply bind_inv in E. destruct E as (j1 & k2 & E2 & E).
    destruct (IH _ _ _ _ _ Sj E2) as [S1 K1].
    destruct (IH _ _ _ _ _ S1 E) as [S2 K2].
    split; [exact S2|]. intros y Hy.
    assert (Hcase : y = ni \/ In y (inorder j)).
    { rewrite Ij. in_norm. intuition. }
    destruct Hcase as [-> | Hj].
    + right. exists si. split; [in_norm; intuition | exact E0].
    + destruct (K1 y Hj) as [H1 | (z & Hz & Hzy)].
      * destruct (K2 y H1) as [H2 | (z & Hz & Hzy)]; [left; exact H2|].
        right. exists z. split; [in_norm; intuition | exact Hzy].
      * right. exists z. split; [in_norm; intuition | exact Hzy].
  - destruct nl as [|la lx lc ll lr].
    + inversion E; subst. auto.
    + apply bind_inv in E. destruct E as (t & k1 & E1 & E). alloc_inv E1.
      apply bind_inv in E. destruct E as (t' & k2 & E2 & E).
      apply balance_inorder in E2.
      apply bind_inv in E. destruct E as (l' & k3 & E3 & E).
      destruct (IH _ _ _ _ _ Sl E3) as [S3 K3].
      pose proof (subtract_incl c _ _ _ _ _ _ E3) as I3.
      apply bind_inv in E. destruct E as (n1 & k4 & E4 & E). alloc_inv E4.
      apply bind_inv in E. destruct E as (n2 & k5 & E5 & E).
      apply balance_inorder in E5. cbn [inorder] in E5.
      assert (S5 : StronglySorted (below c) (inorder n2)).
      { rewrite E5. apply (StronglySorted_join c (law_trans c laws)); auto.
        - apply Forall_forall. intros w Hw. apply Fl, I3, Hw.
        - apply Forall_forall. exact Fr. }
      destruct (IH _ _ _ _ _ S5 E) as [S6 K6].
      split; [exact S6|]. intros y Hy.
      assert (Hn2 : In y (inorder n2) \/
                    exists z, In z (inorder t') /\ c z y = 0).
      { rewrite E5. cbn [inorder] in Hy. apply in_app_iff in Hy.
        destruct Hy as [Hy | Hy]; [|left; in_norm; intuition].
        destruct (K3 y Hy) as [H | H]; [left; in_norm; intuition | right; exact H]. }
      destruct Hn2 as [Hn2 | (z & Hz & Hzy)].
      * destruct (K6 y Hn2) as [H | (z & Hz & Hzy)]; [left; exact H|].
        right. exists z. split; [in_norm; intuition | exact Hzy].
      * right. exists z. rewrite E2 in Hz.
        split; [in_norm; intuition | exact Hzy].
  - destruct nr as [|ra rx rc rl rr].
    + inversion E; subst. auto.
    + apply bind_inv in E. destruct E as (t & k1 & E1 & E). alloc_inv E1.
      apply bind_inv in E. destruct E as (t' & k2 & E2 & E).
      apply balance_inorder in E2.
      apply bind_inv in E. destruct E as (r' & k3 & E3 & E).
      destruct (IH _ _ _ _ _ Sr E3) as [S3 K3].
      pose proof (subtract_incl c _ _ _ _ _ _ E3) as I3.
      apply bind_inv in E. destruct E as (n1 & k4 & E4 & E). alloc_inv E4.
      apply bind_inv in E. destruct E as (n2 & k5 & E5 & E).
      apply balance_inorder in E5. cbn [inorder] in E5.
      assert (S5 : StronglySorted (below c) (inorder n2)).
      { rewrite E5. apply (StronglySorted_join c (law_trans c laws)); auto.
        - apply Forall_forall. exact Fl.
        - apply Forall_forall. intros w Hw. apply Fr, I3, Hw. }
      destruct (IH _ _ _ _ _ S5 E) as [S6 K6].
      split; [exact S6|]. intros y Hy.
      assert (Hn2 : In y (inorder n2) \/
                    exists z, In z (inorder t') /\ c z y = 0).
      { rewrite E5. cbn [inorder] in Hy. apply in_app_iff in Hy.
        destruct Hy as [Hy | [Hy | Hy]]; [left; in_norm; intuition.. |].
        destruct (K3 y Hy) as [H | H]; [left; in_norm; intuition | right; exact H]. }
      destruct Hn2 as [Hn2 | (z & Hz & Hzy)].
      * destruct (K6 y Hn2) as [H | (z & Hz & Hzy)]; [left; exact H|].
        right. exists z. split; [in_norm; intuition | exact Hzy].
      * right. exists z. rewrite E2 in Hz.
        split; [in_norm; intuition | exact Hzy].
Qed.

(** [upsert] of an ordered tree loses no key: every item of the inserted
    tree is in the result, and every item of the receiver is there too
    unless an equal item of the inserted tree took its place. *)
Lemma upsert_covers (fuel : nat) :
  forall (n ins R : node T) (k k' : nat),
    StronglySorted (below c) (inorder ins) ->
    upsert fuel c n ins k = Ok (R, k') ->
    (forall z, In z (inorder ins) -> In z (inorder R)) /\
    (forall y, In y (inorder n) ->
               In y (inorder R) \/ exists z, In z (inorder ins) /\ c z y = 0).
Proof.
  induction fuel as [|fuel IH]; intros n ins R k k' Hs E; [discriminate|].
  cbn [upsert] in E.
  destruct ins as [|ia ii ic il ir].
  { inversion E; subst. split; [intros z [] | auto]. }
  destruct n as [|na ni nc nl nr]; [discriminate|].
  cbv zeta in E.
  destruct (sorted_node _ _ _ _ _ Hs) as (Sl & Sr & Fl & Fr).
  assert (Slt : StronglySorted (below c) (inorder il ++ [ii])).
  { apply (StronglySorted_join c (law_trans c laws)); auto.
    - constructor.
    - apply Forall_forall. exact Fl. }
  assert (Srt : StronglySorted (below c) (ii :: inorder ir)).
  { constructor; [exact Sr | apply Forall_forall; exact Fr]. }
  destruct (Z.eqb_spec (c ii ni) 0) as [E0 | E0];
    [|destruct (c ii ni =? -1)].
  - apply bind_inv in E. destruct E as (n1 & k1 & E1 & E). alloc_inv E1.
    apply bind_inv in E. destruct E as (n2 & k2 & E2 & E).
    destruct (IH _ _ _ _ _ Sr E2) as [A2 B2].
    apply bind_inv in E. destruct E as (n3 & k3 & E3 & E).
    apply balance_inorder in E3.
    apply bind_inv in E. destruct E as (n4 & k4 & E4 & E).
    destruct (IH _ _ _ _ _ Sl E4) as [A4 B4].
    apply balance_inorder in E. rewrite E, E3 in *.
    assert (Hir : forall z, In z (inorder ir) -> In z (inorder n4)).
    { intros z Hz. destruct (B4 z (A2 z Hz)) as [H | (w & Hw & Hwz)];
        [exact H|].
      exfalso. apply (not_equal_less w z); [|exact Hwz].
      exact (law_trans c laws _ _ _ (Fl _ Hw) (Fr _ Hz)). }
    assert (Hii : In ii (inorder n4)).
    { assert (H2 : In ii (inorder n2)).
      { destruct (B2 ii) as [H | (w & Hw & Hwz)]; [in_norm; intuition | exact H|].
        exfalso. exact (not_equal_greater ii w (Fr _ Hw) Hwz). }
      destruct (B4 ii H2) as [H | (w & Hw & Hwz)]; [exact H|].
      exfalso. exact (not_equal_less w ii (Fl _ Hw) Hwz). }
    split.
    + intros z Hz. in_norm. destruct Hz as [Hz | [<- | Hz]]; auto.
    + intros y Hy.
      assert (Hcase : y = ni \/ In y (inorder nl ++ ii :: inorder nr)).
      { in_norm. intuition. }
      destruct Hcase as [-> | Hy1].
      * right. exists ii. split; [in_norm; intuition | exact E0].
      * destruct (B2 y Hy1) as [H2 | (w & Hw & Hwy)].
        -- destruct (B4 y H2) as [H | (w & Hw & Hwy)]; [left; exact H|].
           right. exists w. split; [in_norm; intuition | exact Hwy].
        -- right. exists w. split; [in_norm; intuition | exact Hwy].
  - destruct nl as [|la lx lc ll lr].
    + apply bind_inv in E. destruct E as (n1 & k1 & E1 & E). alloc_inv E1.
      apply balance_inorder in E. rewrite E.
      split; intros w Hw; [|left]; in_norm; intuition.
    + apply bind_inv in E. destruct E as (t & k1 & E1 & E). alloc_inv E1.
      apply bind_inv in E. destruct E as (t' & k2 & E2 & E).
      apply balance_inorder in E2. cbn [inorder] in E2.
      apply bind_inv in E. destruct E as (l' & k3 & E3 & E).
      rewrite <- E2 in Slt.
      destruct (IH _ _ _ _ _ Slt E3) as [A3 B3].
      apply bind_inv in E. destruct E as (n1 & k4 & E4 & E). alloc_inv E4.
      apply bind_inv in E. destruct E as (n2 & k5 & E5 & E).
      apply balance_inorder in E5. cbn [inorder] in E5.
      destruct (IH _ _ _ _ _ Sr E) as [A6 B6].
      assert (Hleft : forall z, In z (inorder il ++ [ii]) -> In z (inorder R)).
      { intros z Hz.
        assert (Hn2 : In z (inorder n2)).
        { rewrite E5. apply in_or_app. left. apply A3. rewrite E2. exact Hz. }
        destruct (B6 z Hn2) as [H | (w & Hw & Hwz)]; [exact H|].
        exfalso. apply (not_equal_greater z w); [|exact Hwz].
        apply in_app_iff in Hz. destruct Hz as [Hz | [<- | []]].
        - exact (law_trans c laws _ _ _ (Fl _ Hz) (Fr _ Hw)).
        - exact (Fr _ Hw). }
      split.
      * intros z Hz. cbn [inorder] in Hz. apply in_app_iff in Hz.
        destruct Hz as [Hz | [<- | Hz]];
          [apply Hleft; in_norm; intuition
          | apply Hleft; in_norm; intuition | apply A6; exact Hz].
      * intros y Hy.
        assert (Hn2 : In y (inorder n2) \/
                      exists z, In z (inorder t') /\ c z y = 0).
        { rewrite E5. cbn [inorder] in Hy. apply in_app_iff in Hy.
          destruct Hy as [Hy | Hy]; [|left; in_norm; intuition].
          destruct (B3 y Hy) as [H | H];
            [left; in_norm; intuition | right; exact H]. }
        destruct Hn2 as [Hn2 | (z & Hz & Hzy)].
        -- destruct (B6 y Hn2) as [H | (z & Hz & Hzy)]; [left; exact H|].
           right. exists z. split; [in_norm; intuition | exact Hzy].
        -- right. exists z. rewrite E2 in Hz.
           split; [in_norm; intuition | exact Hzy].
  - destruct nr as [|ra rx rc rl rr].
    + apply bind_inv in E. destruct E as (n1 & k1 & E1 & E). alloc_inv E1.
      apply balance_inorder in E. rewrite E.
      split; intros w Hw; [|left]; in_norm; intuition.
    + apply bind_inv in E. destruct E as (t & k1 & E1 & E). alloc_inv E1.
      apply bind_inv in E. destruct E as (t' & k2 & E2 & E).
      apply balance_inorder in E2. cbn [inorder app] in E2.
      apply bind_inv in E. destruct E as (r' & k3 & E3 & E).
      rewrite <- E2 in Srt.
      destruct (IH _ _ _ _ _ Srt E3) as [A3 B3].
      apply bind_inv in E. destruct E as (n1 & k4 & E4 & E). alloc_inv E4.
      apply bind_inv in E. destruct E as (n2 & k5 & E5 & E).
      apply balance_inorder in E5. cbn [inorder] in E5.
      destruct (IH _ _ _ _ _ Sl E) as [A6 B6].
      assert (Hright : forall z, In z (ii :: inorder ir) -> In z (inorder R)).
      { intros z Hz.
        assert (Hn2 : In z (inorder n2)).
        { rewrite E5. apply in_or_app. right. right. apply A3. rewrite E2.
          exact Hz. }
        destruct (B6 z Hn2) as [H | (w & Hw & Hwz)]; [exact H|].
        exfalso. apply (not_equal_less w z); [|exact Hwz].
        destruct Hz as [<- | Hz].
        - exact (Fl _ Hw).
        - exact (law_trans c laws _ _ _ (Fl _ Hw) (Fr _ Hz)). }
      split.
      * intros z Hz. cbn [inorder] in Hz. apply in_app_iff in Hz.
        destruct Hz as [Hz | Hz]; [apply A6; exact Hz | apply Hright; exact Hz].
      * intros y Hy.
        assert (Hn2 : In y (inorder n2) \/
                      exists z, In z (inorder t') /\ c z y = 0).
        { rewrite E5. cbn [inorder] in Hy. apply in_app_iff in Hy.
          destruct Hy as [Hy | [Hy | Hy]]; [left; in_norm; intuition.. |].
          destruct (B3 y Hy) as [H | H];
            [left; in_norm; intuition | right; exact H]. }
        destruct Hn2 as [Hn2 | (z & Hz & Hzy)].
        -- destruct (B6 y Hn2) as [H | (z & Hz & Hzy)]; [left; exact H|].
           right. exists z. split; [in_norm; intuition | exact Hzy].
        -- right. exists z. rewrite E2 in Hz.
           split; [in_norm; intuition | exact Hzy].
Qed.

End Coverage.

(** ** The last step of the set operations *)

Section PublicFacts.

Context {T : Type}.

Lemma finishes_strengthen {A} (P : A -> Prop) (o : outcome (A * nat)) :
  finishes (fun _ => True) o ->
  (forall a k', o = Ok (a, k') -> P a) ->
  finishes P o.
Proof.
  destruct o as [[a k']| |]; cbn; auto. intros _ H. exact (H a k' eq_refl).
Qed.

(** The last step of [Union], [Subtract], [Delete] and [Intersection]:
    force the root black and wrap it. *)
Lemma recolor_inv (c : Compare T) (m : M (node T)) (k k' : nat)
  (r : treeptr T) :
  (n <- m ;; n' <- copyWithColor n black ;; ret (Some (mkTree c n'))) k
  = Ok (r, k') ->
  exists R k1 R',
    m k = Ok (R, k1) /\ copyWithColor R black k1 = Ok (R', k') /\
    r = Some (mkTree c R') /\ R <> Nil /\ isRedNode R' = false /\
    inorder R' = inorder R.
Proof.
  intros E. apply bind_inv in E. destruct E as (R & k1 & E1 & E).
  apply bind_inv in E. destruct E as (R' & k2 & E2 & E).
  cbn in E. inversion E; subst.
  destruct (copyWithColor_black _ _ _ _ E2) as (N & C1 & C2 & _).
  exists R, k1, R'. repeat split; auto.
Qed.

End PublicFacts.

(** ** Positions of the iterator, and upsert followed by delete *)

Section Position.

Context {T : Type}.
Variable zeroVal : T.

Lemma HasElem_remaining (it : nodeIterator T) :
  HasElem it = negb (length (remaining it) =? 0)%nat.
Proof.
  destruct it as [s [|a x c l r]]; reflexivity.
Qed.

Lemma Elem_remaining (it : nodeIterator T) :
  Elem zeroVal it = hd zeroVal (remaining it).
Proof.
  destruct it as [s [|a x c l r]]; reflexivity.
Qed.

Lemma tl_skipn (i : nat) :
  forall l : list T, tl (skipn i l) = skipn (S i) l.
Proof.
  induction i as [|i IH]; intros [|y l]; try reflexivity.
  change (skipn (S (S i)) (y :: l)) with (skipn (S i) l).
  cbn [skipn]. apply IH.
Qed.

Lemma advance_remaining (i : nat) :
  forall it : nodeIterator T, Forall nonNil (unprocStack it) ->
    remaining (advance i it) = skipn i (remaining it) /\
    Forall nonNil (unprocStack (advance i it)).
Proof.
  induction i as [|i IH]; intros it Hs.
  - split; [reflexivity | exact Hs].
  - destruct (IH it Hs) as [E W].
    change (advance (S i) it) with (Next (advance i it)).
    destruct (Next_remaining (advance i it) W) as [E' W'].
    split; [|exact W'].
    rewrite E', E. apply tl_skipn.
Qed.

Lemma hd_skipn (i : nat) (l : list T) :
  hd zeroVal (skipn i l) = nth i l zeroVal.
Proof.
  revert l. induction i as [|i IH]; intros [|y l]; cbn; auto.
Qed.

Lemma Iterator_remaining (t : RedBlackTree T) :
  exists it, Iterator (Some t) = Ok it /\
             remaining it = inorder (root t) /\
             Forall nonNil (unprocStack it).
Proof.
  unfold Iterator. destruct (root t) as [|a x col l r] eqn:Er.
  - exists (mkIter [] Nil). repeat split. constructor.
  - destruct (leftmost_remaining (Node a x col l r) [] ltac:(discriminate)
                ltac:(constructor)) as [E W].
    eexists. split; [reflexivity|]. split; [|exact W].
    rewrite E. unfold pending. cbn [rev flat_map]. apply app_nil_r.
Qed.

End Position.



Section RoundTrip.

Context {T : Type}.
Variable c : Compare T.
Hypothesis laws : lawful c.
Variable x : T.

Lemma lawful_refl : c x x = 0.
Proof.
  destruct (Z.eq_dec (c x x) 0) as [E | E]; [exact E|].
  exfalso. apply (law_irrefl c laws x).
  apply (law_greater c laws); [exact E|].
  intros E1. apply (law_irrefl c laws x). unfold below. lia.
Qed.

Lemma inserted_filter (n : node T) :
  filter (fun y => negb (c x y =? 0)) (inserted c x n)
  = filter (fun y => negb (c x y =? 0)) (inorder n).
Proof.
  induction n as [|a y col l IHl r IHr].
  - cbn. rewrite lawful_refl. reflexivity.
  - cbn [inserted inorder]. destruct (c x y =? 0) eqn:E0.
    + rewrite !filter_app. cbn [filter]. rewrite E0, lawful_refl. reflexivity.
    + destruct (c x y =? -1).
      * rewrite !filter_app, IHl. reflexivity.
      * rewrite !filter_app. cbn [filter]. rewrite IHr. reflexivity.
Qed.

End RoundTrip.

(** * The claims *)

(** C6, as stated, fails: the union of the valid trees {5} and {3, 7} is a
    tree of the package, and the iterator reads 3, 7, 5 from it, which is
    not increasing. *)
Lemma iterator_after_union_counterexample :
  validResult (build 8 compare_int [5]) = true /\
  validResult (build 8 compare_int [3; 7]) = true /\
  rootOf ((a <- build 8 compare_int [5] ;;
           b <- build 8 compare_int [3; 7] ;;
           Union 8 a b) 0%nat)
  = Ok (Some (Node 4 5 black (Node 3 3 black Nil (Node 2 7 red Nil Nil)) Nil),
        5%nat) /\
  iterate 0 8
    (Some (mkTree compare_int
             (Node 4 5 black (Node 3 3 black Nil (Node 2 7 red Nil Nil)) Nil)))
  = Ok [3; 7; 5] /\
  ~ StronglySorted (below compare_int) [3; 7; 5].
Proof.
  split; [reflexivity|]. split; [reflexivity|]. split; [reflexivity|].
  split; [reflexivity|].
  intros H. inversion H as [|? ? H1 _]. inversion H1 as [|? ? _ F].
  inversion F as [|? ? B _]. vm_compute in B. discriminate.
Qed.

(** C6, amended: for every tree, the loop
    [for it := t.Iterator(); it.HasElem(); it.Next()] reads, with
    [it.Elem()], the items of the tree from left to right, one for each
    node, so it holds exactly the items of the tree; when the items of the
    tree respect the order of its comparator, the sequence is strictly
    increasing and without repetition; and on a freshly constructed empty
    tree [HasElem] is false at once. *)
Theorem iterator_sorted_exact {T : Type} (zeroVal : T) (c : Compare T)
  (n : node T) (fuel : nat) :
  (size n < fuel)%nat ->
  (exists l, iterate zeroVal fuel (Some (mkTree c n)) = Ok l /\
             l = inorder n /\
             length l = size n /\
             (forall x, In x l <-> hasItem x n) /\
             ((forall a, ~ below c a a) ->
              (forall a b d, below c a b -> below c b d -> below c a d) ->
              ordered c n = true ->
              StronglySorted (below c) l /\ NoDup l)) /\
  (exists it, Iterator (NewRedBlack c) = Ok it /\ HasElem it = false).
Proof.
  intros Hfuel. split.
  - exists (inorder n). split; [apply iterate_inorder; exact Hfuel|].
    split; [reflexivity|].
    split; [apply inorder_length|].
    split; [intros x; apply inorder_hasItem|].
    intros Hirr Htr Hord.
    pose proof (ordered_StronglySorted c Htr n Hord) as Hs.
    split; [exact Hs | exact (StronglySorted_NoDup c Hirr _ Hs)].
  - exists (mkIter [] Nil). split; reflexivity.
Qed.

Lemma iterator_sorted_exact_witness :
  rootOf (build 8 compare_int [2; 1; 3] 0%nat) = Ok (Some tree213, 5%nat) /\
  ordered compare_int tree213 = true /\
  (exists l,
     iterate 0 4 (Some (mkTree compare_int tree213)) = Ok l /\
     l = [1; 2; 3] /\
     length l = 3%nat /\
     (forall x, In x l <-> hasItem x tree213) /\
     StronglySorted (below compare_int) l /\ NoDup l).
Proof.
  split; [reflexivity|]. split; [reflexivity|].
  destruct (iterator_sorted_exact 0 compare_int tree213 4 ltac:(simpl; lia))
    as [(l & E & I & L & M & S) _].
  exists l. split; [exact E|]. split; [exact I|]. split; [exact L|].
  split; [exact M|].
  apply S; [exact compare_int_irrefl | exact compare_int_trans | reflexivity].
Defined.

(** C10: on an iterator without a current element, [Elem] returns the zero
    value of the item type and [Next] changes nothing, so the iterator still
    has no current element. *)
Theorem exhausted_iterator_inert {T : Type} (zeroVal : T)
  (it : nodeIterator T) :
  HasElem it = false ->
  Elem zeroVal it = zeroVal /\ Next it = it /\ HasElem (Next it) = false.
Proof.
  destruct it as [stk cur]. destruct cur as [|a x c l r].
  - intros _. repeat split.
  - discriminate.
Qed.

Lemma exhausted_iterator_inert_witness :
  HasElem (@mkIter Z [] Nil) = false /\
  Elem 0 (@mkIter Z [] Nil) = 0 /\
  Next (@mkIter Z [] Nil) = mkIter [] Nil /\
  HasElem (Next (@mkIter Z [] Nil)) = false.
Proof.
  split; [reflexivity|].
  apply (exhausted_iterator_inert 0 (@mkIter Z [] Nil)). reflexivity.
Defined.

(** C7, as stated, fails: with a comparator that answers -2 for "less", the
    upserts 2, 1, 3, 2 leave four items in the tree, out of order, where the
    comparator of the same signs answering -1/0/+1 leaves the three items
    1, 2, 3. *)
Lemma any_negative_comparator_counterexample :
  (forall a b, canonical compare_twice a b = compare_int a b) /\
  contents 5 (build 5 compare_twice [2; 1; 3; 2]) = Ok [2; 1; 3; 2] /\
  contents 5 (build 5 (canonical compare_twice) [2; 1; 3; 2]) = Ok [1; 2; 3].
Proof.
  split.
  - intros a b. unfold canonical, compare_twice, compare_int.
    destruct (a <? b); [reflexivity|]. destruct (a =? b); reflexivity.
  - split; vm_compute; reflexivity.
Qed.

(** C7, amended: for every comparator that answers exactly -1 for "less",
    zero for "equal" and any positive value for "greater", the merge
    routines and the five public operations build the same nodes as with
    the comparator of the same signs that answers exactly -1/0/+1. *)
Theorem minus_one_comparator_same_trees {T : Type} (c : Compare T) :
  (forall a b, c a b < 0 -> c a b = -1) ->
  forall (fuel : nat) (n m : node T) (x : T) (other : treeptr T) (k : nat),
    upsert fuel c n m k = upsert fuel (canonical c) n m k /\
    subtract fuel c n m k = subtract fuel (canonical c) n m k /\
    intersection fuel c n m k = intersection fuel (canonical c) n m k /\
    rootOf (Upsert fuel (Some (mkTree c n)) x k)
    = rootOf (Upsert fuel (Some (mkTree (canonical c) n)) x k) /\
    rootOf (Delete fuel (Some (mkTree c n)) x k)
    = rootOf (Delete fuel (Some (mkTree (canonical c) n)) x k) /\
    rootOf (Union fuel (Some (mkTree c n)) other k)
    = rootOf (Union fuel (Some (mkTree (canonical c) n)) other k) /\
    rootOf (Subtract fuel (Some (mkTree c n)) other k)
    = rootOf (Subtract fuel (Some (mkTree (canonical c) n)) other k) /\
    rootOf (Intersection fuel (Some (mkTree c n)) other k)
    = rootOf (Intersection fuel (Some (mkTree (canonical c) n)) other k).
Proof.
  intros Hneg fuel n m x other k.
  assert (H0 : forall a b, (c a b =? 0) = (canonical c a b =? 0)).
  { intros a b. unfold canonical. pose proof (Z.sgn_spec (c a b)) as Hs.
    destruct (Z.eqb_spec (c a b) 0); destruct (Z.eqb_spec (Z.sgn (c a b)) 0);
      try reflexivity; exfalso; lia. }
  assert (H1 : forall a b, (c a b =? -1) = (canonical c a b =? -1)).
  { intros a b. unfold canonical. pose proof (Z.sgn_spec (c a b)) as Hs.
    pose proof (Hneg a b) as Hn.
    destruct (Z.eqb_spec (c a b) (-1));
      destruct (Z.eqb_spec (Z.sgn (c a b)) (-1));
      try reflexivity; exfalso; lia. }
  split; [apply (upsert_ext c (canonical c) H0 H1)|].
  split; [apply (subtract_ext c (canonical c) H0 H1)|].
  split; [apply (intersection_ext c (canonical c) H0 H1)|].
  apply (public_ext c (canonical c) H0 H1).
Qed.

Lemma compare_seven_minus_one (a b : Z) :
  compare_seven a b < 0 -> compare_seven a b = -1.
Proof.
  unfold compare_seven. destruct (a <? b); [reflexivity|].
  destruct (a =? b); lia.
Qed.

Lemma minus_one_comparator_same_trees_witness :
  (forall a b, compare_seven a b < 0 -> compare_seven a b = -1) /\
  (forall a b, canonical compare_seven a b = compare_int a b) /\
  contents 5 (build 5 compare_seven [2; 1; 3; 2]) = Ok [1; 2; 3] /\
  rootOf (Upsert 5 (Some (mkTree compare_seven (Node 0 2 black Nil Nil)))
            1 1%nat)
  = rootOf (Upsert 5 (Some (mkTree (canonical compare_seven)
                              (Node 0 2 black Nil Nil))) 1 1%nat).
Proof.
  split; [exact compare_seven_minus_one|].
  split.
  { intros a b. unfold canonical, compare_seven, compare_int.
    destruct (a <? b); [reflexivity|]. destruct (a =? b); reflexivity. }
  split; [vm_compute; reflexivity|].
  apply (minus_one_comparator_same_trees compare_seven compare_seven_minus_one
           5%nat (Node 0 2 black Nil Nil) Nil 1 None 1%nat).
Defined.

(** C1 fails on the code: after the upserts 1, 2, 3 the tree satisfies the
    three invariants, and deleting 2 from it leaves the black node 1 with no
    left child and the black node 3 as right child, so the paths to the empty
    children do not pass the same number of black nodes.  This holds for
    every fuel from 8 on. *)
Theorem delete_breaks_black_height (d : nat) :
  validResult (build (8 + d) compare_int [1; 2; 3]) = true /\
  contents (8 + d) (build (8 + d) compare_int [1; 2; 3]) = Ok [1; 2; 3] /\
  exists after : RedBlackTree Z,
    run (t <- build (8 + d) compare_int [1; 2; 3] ;; Delete (8 + d) t 2)
    = Ok (Some after) /\
    root after = Node 12 1 black Nil (Node 8 3 black Nil Nil) /\
    noRedRed (root after) = true /\
    ordered (compare after) (root after) = true /\
    blackHeight (root after) = None /\
    validTree after = false.
Proof.
  split; [vm_compute; reflexivity|]. split; [vm_compute; reflexivity|].
  eexists. split; [vm_compute; reflexivity|].
  repeat split; vm_compute; reflexivity.
Qed.

(** C2 fails on the code: the union of the valid trees {5} and {3, 7}
    hangs the whole second tree under 5 as its left child, so the iteration
    yields 3, 7, 5, which is not sorted.  This holds for every fuel from 8
    on. *)
Theorem union_not_sorted (d : nat) :
  validResult (build (8 + d) compare_int [5]) = true /\
  validResult (build (8 + d) compare_int [3; 7]) = true /\
  contents (8 + d) (a <- build (8 + d) compare_int [5] ;;
                    b <- build (8 + d) compare_int [3; 7] ;;
                    Union (8 + d) a b) = Ok [3; 7; 5] /\
  validResult (a <- build (8 + d) compare_int [5] ;;
               b <- build (8 + d) compare_int [3; 7] ;;
               Union (8 + d) a b) = false.
Proof.
  repeat split; vm_compute; reflexivity.
Qed.

(** C3 fails on the code: subtracting the valid tree {3, 5} from the valid
    tree {5} returns {5}, and subtracting {1, 2} from {1} stops in a nil
    dereference, for every fuel from 8 on; subtracting from an empty tree
    does return it unchanged. *)
Theorem subtract_keeps_common_key (d : nat) :
  validResult (build (8 + d) compare_int [5]) = true /\
  validResult (build (8 + d) compare_int [3; 5]) = true /\
  contents (8 + d) (a <- build (8 + d) compare_int [5] ;;
                    b <- build (8 + d) compare_int [3; 5] ;;
                    Subtract (8 + d) a b) = Ok [5] /\
  run (a <- build (8 + d) compare_int [1] ;;
       b <- build (8 + d) compare_int [1; 2] ;;
       Subtract (8 + d) a b) = Panic /\
  forall (fuel : nat) (c : Compare Z) (other : treeptr Z) (k : nat),
    Subtract fuel (NewRedBlack c) other k = Ok (NewRedBlack c, k).
Proof.
  repeat split; vm_compute; reflexivity.
Qed.

(** C4 fails on the code: the intersection of the valid trees built by the
    upserts 5, 4, 2, 1 and 4, 3, 1, 2 yields 1, 4 and loses the common key 2;
    the intersection of {1} and {2}, which share no item, stops in a nil
    dereference; and the intersection of an empty tree with another is the
    nil pointer, on which [Iterator] stops in a nil dereference.  This
    holds for every fuel from 8 on. *)
Theorem intersection_loses_key (d : nat) :
  validResult (build (8 + d) compare_int [5; 4; 2; 1]) = true /\
  validResult (build (8 + d) compare_int [4; 3; 1; 2]) = true /\
  contents (8 + d) (a <- build (8 + d) compare_int [5; 4; 2; 1] ;;
                    b <- build (8 + d) compare_int [4; 3; 1; 2] ;;
                    Intersection (8 + d) a b) = Ok [1; 4] /\
  run (a <- build (8 + d) compare_int [1] ;;
       b <- build (8 + d) compare_int [2] ;;
       Intersection (8 + d) a b) = Panic /\
  (forall (fuel : nat) (c : Compare Z) (other : treeptr Z) (k : nat),
     Intersection fuel (NewRedBlack c) other k = Ok (None, k)) /\
  Iterator (@None (RedBlackTree Z)) = Panic.
Proof.
  repeat split; vm_compute; reflexivity.
Qed.

(** C5 fails on the code: deleting the only item of a one-node tree and
    intersecting two one-node trees without a common item both stop in a nil
    dereference, in [copyWithColor] called on the nil result, for every fuel
    from 2 on. *)
Theorem delete_last_item_panics (d : nat) :
  validResult (build (2 + d) compare_int [1]) = true /\
  run (t <- build (2 + d) compare_int [1] ;; Delete (2 + d) t 1) = Panic /\
  run (a <- build (2 + d) compare_int [1] ;;
       b <- build (2 + d) compare_int [2] ;;
       Intersection (2 + d) a b) = Panic /\
  forall k : nat, copyWithColor (@Nil Z) black k = Panic.
Proof.
  repeat split; vm_compute; reflexivity.
Qed.

(** C9, as stated, fails: subtracting the valid tree built from 7, 4, 9, 6
    from the valid tree built from 9, 10, 7, 6, 1, 8 returns the black node
    1 with the red node 8 as right child and the red node 10 under it.  The
    upsert of 0 descends to the left of 1, and the rebalancing step at 1
    finds the two red nodes on the right and builds the nodes 8 and 10
    anew: the subtree at 8, which is not on the path of the descent, is not
    a subtree of the result. *)
Lemma upsert_rebuilds_red_pair_counterexample :
  validResult (build 12 compare_int [9; 10; 7; 6; 1; 8]) = true /\
  validResult (build 12 compare_int [7; 4; 9; 6]) = true /\
  rootOf ((a <- build 12 compare_int [9; 10; 7; 6; 1; 8] ;;
           b <- build 12 compare_int [7; 4; 9; 6] ;;
           Subtract 12 a b) 0%nat)
  = Ok (Some tree1_8_10, 41%nat) /\
  allocatedBelow 41 tree1_8_10 = true /\
  exists r : node Z,
    rootOf (Upsert 12 (Some (mkTree compare_int tree1_8_10)) 0 41%nat)
    = Ok (Some r, 47%nat) /\
    inorder r = [0; 1; 8; 10] /\
    exists s : node Z,
      s <> Nil /\ subtree s tree1_8_10 /\
      ~ In s (onPath compare_int 0 tree1_8_10) /\
      ~ subtree s r.
Proof.
  split; [reflexivity|]. split; [reflexivity|]. split; [reflexivity|].
  split; [reflexivity|].
  exists (Node 46 8 black (Node 43 1 black (Node 41 0 red Nil Nil) Nil)
            (Node 44 10 black Nil Nil)).
  split; [reflexivity|]. split; [reflexivity|].
  exists (Node 38 8 red Nil (Node 1 10 red Nil Nil)).
  split; [discriminate|]. split; [right; right; left; reflexivity|].
  split.
  - intros [H | []]. discriminate H.
  - cbn. intros H.
    repeat match goal with
           | H : _ \/ _ |- _ => destruct H
           | H : False |- _ => contradiction
           | H : @eq (node Z) _ _ |- _ => discriminate H
           end.
Qed.

(** C9, amended: [Upsert] on a tree in which no red node has a red child
    leaves the prior tree as it is and shares its nodes.  For such a tree,
    whose nodes were all allocated below the counter [k], [Upsert] returns a
    tree and a counter [k'] such that: the nodes of the result lie below
    [k'], and those at or above [k] are the ones the call allocated, so the
    call wrote nothing into the prior tree; every node of the prior tree
    that is not on the path of the descent for the item occurs in the
    result, itself, at its address and with its subtrees; and every node of
    the result is either such a node of the prior tree or one the call
    allocated. *)
Theorem upsert_shares_untouched_subtrees {T : Type} (t : RedBlackTree T)
  (x : T) (fuel k : nat) :
  noRedRed (root t) = true ->
  allocatedBelow k (root t) = true ->
  (size (root t) < fuel)%nat ->
  exists (r : RedBlackTree T) (k' : nat),
    Upsert fuel (Some t) x k = Ok (Some r, k') /\
    (k <= k')%nat /\ allocatedBelow k' (root r) = true /\
    (forall s, s <> Nil -> subtree s (root t) ->
               ~ In s (onPath (compare t) x (root t)) ->
               subtree s (root r)) /\
    (forall s, s <> Nil -> subtree s (root r) ->
               isNew k s \/ subtree s (root t)).
Proof.
  intros Hrr Hold Hf.
  assert (H : exists (r : RedBlackTree T) (k' : nat),
    Upsert fuel (Some t) x k = Ok (Some r, k') /\
    (forall s, s <> Nil -> subtree s (root t) ->
               ~ In s (onPath (compare t) x (root t)) ->
               subtree s (root r)) /\
    (forall s, s <> Nil -> subtree s (root r) ->
               isNew k s \/ subtree s (root t))).
  { destruct t as [c n]. cbn [root compare] in *.
    unfold Upsert. cbn [root compare].
    destruct n as [|na ni nc nl nr].
    - exists (mkTree c (Node k x black Nil Nil)), (S k).
      split; [reflexivity|]. cbn [root]. split.
      + intros s Hs Hsub. apply subtree_Nil in Hsub. contradiction.
      + intros s Hs [E | [H | H]].
        * subst s. left. cbn. lia.
        * apply subtree_Nil in H. contradiction.
        * apply subtree_Nil in H. contradiction.
    - set (n := Node na ni nc nl nr) in *.
      destruct (upsert_leaf k c x fuel n k (S k) Hf ltac:(discriminate) Hrr
                  Hold ltac:(lia) ltac:(lia))
        as (R & k1 & ER & OR & NR & _ & Hk1).
      destruct (copyWithColor_new k R k1 NR ltac:(lia)) as (R' & k2 & EC & OC).
      exists (mkTree c R'), k2.
      erewrite bind_ok by reflexivity.
      erewrite bind_ok by exact ER.
      erewrite bind_ok by exact EC.
      split; [reflexivity|]. cbn [root]. rewrite OR in OC. split.
      + intros s Hs Hsub Hpath.
        destruct (offPath_cover c x s n Hs Hsub Hpath) as (s' & Hin & Hs').
        apply (subtree_trans s s' R' Hs'). apply (olds_subtree k).
        rewrite OC. exact Hin.
      + intros s Hs Hsub.
        destruct (olds_cover k s R' Hs Hsub) as [N | (s' & Hin & Hs')];
          [left; exact N|].
        right. apply (subtree_trans s s' n Hs'). apply (offPath_subtree c x).
        rewrite <- OC. exact Hin. }
  destruct H as (r & k' & EU & Hshare & Hfresh).
  destruct (Upsert_allocated t r x fuel k k' Hold EU) as [HA HL].
  exists r, k'. repeat split; assumption.
Qed.

Lemma upsert_shares_untouched_subtrees_witness :
  rootOf (build 8 compare_int [2; 1; 3] 0%nat) = Ok (Some tree213, 5%nat) /\
  noRedRed tree213 = true /\
  allocatedBelow 5 tree213 = true /\
  exists (r : RedBlackTree Z) (k' : nat),
    Upsert 4 (Some (mkTree compare_int tree213)) 0 5%nat = Ok (Some r, k') /\
    (5 <= k')%nat /\ allocatedBelow k' (root r) = true /\
    (forall s, s <> Nil -> subtree s tree213 ->
       ~ In s (onPath compare_int 0 tree213) -> subtree s (root r)) /\
    (forall s, s <> Nil -> subtree s (root r) ->
       isNew 5 s \/ subtree s tree213).
Proof.
  split; [reflexivity|]. split; [reflexivity|]. split; [reflexivity|].
  apply (upsert_shares_untouched_subtrees (mkTree compare_int tree213)
           0 4%nat 5%nat).
  - reflexivity.
  - reflexivity.
  - simpl. lia.
Defined.

(** C8 holds for the recursion and fails for the public operations: with
    fuel above a bound in the sizes of the two trees, [upsert] (on a
    receiver that is not nil) and [intersection] return, and [subtract]
    returns or stops in a nil dereference, so no call recurses for ever and
    [Upsert] and [Union] return a tree; but [Delete], [Subtract] and
    [Intersection] may stop in a nil dereference instead of returning a
    value: deleting the only item of a one-node tree returns nothing,
    whatever the fuel. *)
Theorem merges_terminate_delete_returns_nothing :
  (forall (T : Type) (c : Compare T) (a : nat) (x : T) (col : color)
          (l r m : node T) (k : nat),
     returnsFrom (fun R => R <> Nil)
       (fun fuel => upsert fuel c (Node a x col l r) m k)
       (S (2 * size m + size (Node a x col l r)))) /\
  (forall (T : Type) (c : Compare T) (n m : node T) (k : nat),
     finishesFrom (fun R => (size R <= size n)%nat)
       (fun fuel => subtract fuel c n m k)
       (S (2 * size n + size m))) /\
  (forall (T : Type) (c : Compare T) (n m : node T) (k : nat),
     returnsFrom (fun _ => True)
       (fun fuel => intersection fuel c n m k)
       (S (size n + size m))) /\
  (forall (T : Type) (t o : RedBlackTree T) (x : T) (k : nat),
     returnsFrom (fun r => r <> None)
       (fun fuel => Upsert fuel (Some t) x k)
       (S (2 + size (root t))) /\
     returnsFrom (fun r => r <> None)
       (fun fuel => Union fuel (Some t) (Some o) k)
       (S (2 * size (root o) + size (root t))) /\
     finishesFrom (fun _ => True)
       (fun fuel => Delete fuel (Some t) x k)
       (S (2 * size (root t) + 1)) /\
     finishesFrom (fun _ => True)
       (fun fuel => Subtract fuel (Some t) (Some o) k)
       (S (2 * size (root t) + size (root o))) /\
     finishesFrom (fun _ => True)
       (fun fuel => Intersection fuel (Some t) (Some o) k)
       (S (size (root t) + size (root o)))) /\
  (forall fuel : nat,
     ~ returns (fun _ => True)
         ((t <- build fuel compare_int [1] ;; Delete fuel t 1) 0%nat)) /\
  run (t <- build 8 compare_int [1] ;; Delete 8 t 1) = Panic.
Proof.
  split.
  { intros T c a x col l r m k. apply returnsFrom_intro.
    - destruct (upsert_total c (S (2 * size m + size (Node a x col l r)))
                  (Node a x col l r) m k) as (R & k1 & E & N & _);
        [discriminate | lia |].
      rewrite E. exact N.
    - intros fuel' Hf. apply upsert_fuel. exact Hf. }
  split.
  { intros T c n m k. apply finishesFrom_intro.
    - apply subtract_total. lia.
    - intros fuel' Hf. apply subtract_fuel. exact Hf. }
  split.
  { intros T c n m k. apply returnsFrom_intro.
    - destruct (intersection_total c (S (size n + size m)) n m k)
        as (R & k1 & E); [lia|].
      rewrite E. exact I.
    - intros fuel' Hf. apply intersection_fuel. exact Hf. }
  split.
  { intros T t o x k.
    split; [apply returnsFrom_intro;
            [apply Upsert_total; lia | intros; apply Upsert_fuel; assumption]|].
    split; [apply returnsFrom_intro;
            [apply Union_total; lia | intros; apply Union_fuel; assumption]|].
    split; [apply finishesFrom_intro;
            [apply Delete_finishes; lia | intros; apply Delete_fuel; assumption]|].
    split; [apply finishesFrom_intro;
            [apply Subtract_finishes; lia
            | intros; apply Subtract_fuel; assumption]|].
    apply finishesFrom_intro;
      [apply Intersection_finishes; lia
      | intros; apply Intersection_fuel; assumption]. }
  split.
  { intros [|[|fuel]]; cbn; auto. }
  reflexivity.
Qed.

(** * Further properties of the package *)

(** X1: [balance] returns on every tree, and what it returns has the same
    items in the same order from left to right, the same number of nodes
    and the same black height; a non-nil tree stays non-nil; a tree in which
    no red node has a red child comes back as it is, the same node, with
    nothing allocated; and a call allocates either nothing or exactly three
    nodes. *)
Theorem balance_keeps_items_and_height {T : Type} (t : node T) (k : nat) :
  exists (B : node T) (k' : nat),
    balance t k = Ok (B, k') /\
    inorder B = inorder t /\ size B = size t /\
    blackHeight B = blackHeight t /\
    (t <> Nil -> B <> Nil) /\
    (noRedRed t = true -> B = t /\ k' = k) /\
    (k' = k \/ k' = (k + 3)%nat).
Proof.
  destruct (balance_keeps t k) as (B & k' & E & I & S & H & N & _).
  exists B, k'. repeat split; auto.
  - pose proof (balance_valid_noop t k H0) as E'. rewrite E' in E.
    inversion E. reflexivity.
  - pose proof (balance_valid_noop t k H0) as E'. rewrite E' in E.
    inversion E. reflexivity.
  - destruct (balance_inv _ _ _ _ E) as [(_ & -> & _) | [_ ->]]; [left | right];
      lia.
Qed.

(** X2: on a black node whose two subtrees satisfy invariant 1 (no red node
    has a red child) below their roots, and one of them at its root too,
    [balance] returns a tree that satisfies invariant 1, with the items in
    the same order. *)
Theorem balance_repairs_red_red {T : Type} (a : nat) (z : T) (l r : node T)
  (k : nat) :
  nearly l = true -> nearly r = true ->
  noRedRed l = true \/ noRedRed r = true ->
  exists (B : node T) (k' : nat),
    balance (Node a z black l r) k = Ok (B, k') /\
    noRedRed B = true /\
    inorder B = inorder l ++ z :: inorder r.
Proof.
  intros Nl Nr Hone.
  destruct (balance_keeps (Node a z black l r) k) as (B & k' & E & I & _).
  exists B, k'. split; [exact E|]. split; [|exact I].
  exact (balance_noRedRed a z l r B k k' Nl Nr Hone E).
Qed.

Lemma balance_repairs_red_red_witness :
  exists (B : node Z) (k' : nat),
    balance (Node 2 3 black (Node 1 2 red (Node 0 1 red Nil Nil) Nil) Nil)
      3%nat
    = Ok (B, k') /\
    noRedRed B = true /\
    inorder B = [1; 2; 3].
Proof.
  apply (balance_repairs_red_red 2%nat 3
           (Node 1 2 red (Node 0 1 red Nil Nil) Nil) Nil 3%nat).
  - reflexivity.
  - reflexivity.
  - right. reflexivity.
Defined.

(** X3: [Upsert] on a tree that satisfies the three invariants (no red node
    has a red child, every path has the same number of black nodes, the
    items are in the order of the comparator), with a lawful comparator and
    fuel above the size of the tree, returns a tree with the same comparator
    that satisfies the three invariants and has a black root. *)
Theorem Upsert_keeps_invariants {T : Type} (t : RedBlackTree T) (x : T)
  (fuel k : nat) :
  lawful (compare t) ->
  validTree t = true ->
  (2 + size (root t) < fuel)%nat ->
  exists (r : RedBlackTree T) (k' : nat),
    Upsert fuel (Some t) x k = Ok (Some r, k') /\
    compare r = compare t /\
    validTree r = true /\ isRedNode (root r) = false.
Proof.
  exact (Upsert_valid t x fuel k).
Qed.

Lemma Upsert_keeps_invariants_witness :
  lawful compare_int /\
  validTree (mkTree compare_int tree213) = true /\
  exists (r : RedBlackTree Z) (k' : nat),
    Upsert 6 (Some (mkTree compare_int tree213)) 0 10%nat = Ok (Some r, k') /\
    compare r = compare_int /\
    validTree r = true /\ isRedNode (root r) = false.
Proof.
  split; [exact compare_int_lawful|]. split; [reflexivity|].
  apply (Upsert_keeps_invariants (mkTree compare_int tree213) 0 6%nat 10%nat).
  - exact compare_int_lawful.
  - reflexivity.
  - simpl. lia.
Defined.

(** X4: with a lawful comparator, [Upsert] of [x] on an ordered tree returns
    a tree whose iteration yields the items of the old tree with [x] at its
    place in the order, [x] taking the place of the item equal to it if
    there is one.  The sequence
    is strictly increasing; an item is in the new tree exactly when it is
    [x] or an item of the old tree that is not equal to [x]; and the new
    tree has one node more than the old tree has items not equal to [x]. *)
Theorem Upsert_items {T : Type} (zeroVal : T) (t : RedBlackTree T) (x : T)
  (fuel k : nat) :
  lawful (compare t) ->
  ordered (compare t) (root t) = true ->
  (2 + size (root t) < fuel)%nat ->
  exists (r : RedBlackTree T) (k' : nat),
    Upsert fuel (Some t) x k = Ok (Some r, k') /\
    iterate zeroVal fuel (Some r) = Ok (inserted (compare t) x (root t)) /\
    StronglySorted (below (compare t)) (inserted (compare t) x (root t)) /\
    (forall z, hasItem z (root r) <->
               z = x \/ (hasItem z (root t) /\ compare t x z <> 0)) /\
    size (root r)
    = S (length (filter (fun y => negb (compare t x y =? 0))
                   (inorder (root t)))).
Proof.
  exact (Upsert_contents zeroVal t x fuel k).
Qed.

Lemma Upsert_items_witness :
  exists (r : RedBlackTree Z) (k' : nat),
    Upsert 6 (Some (mkTree compare_int tree213)) 3 10%nat = Ok (Some r, k') /\
    iterate 0 6 (Some r) = Ok [1; 2; 3] /\
    StronglySorted (below compare_int) [1; 2; 3] /\
    (forall z, hasItem z (root r) <->
               z = 3 \/ (hasItem z tree213 /\ compare_int 3 z <> 0)) /\
    size (root r) = 3%nat.
Proof.
  apply (Upsert_items 0 (mkTree compare_int tree213) 3 6%nat 10%nat).
  - exact compare_int_lawful.
  - reflexivity.
  - simpl. lia.
Defined.

(** X5: the loop of example.go, [rb = rb.Upsert(i)] over a list of integers
    starting from [NewRedBlack(compare)], returns for every list a tree that
    satisfies the three invariants and whose iteration yields strictly
    increasing integers, exactly the members of the list. *)
Theorem build_sorted_set (items : list Z) (fuel : nat) :
  (2 + length items < fuel)%nat ->
  exists r : RedBlackTree Z,
    run (build fuel compare_int items) = Ok (Some r) /\
    validTree r = true /\
    contents fuel (build fuel compare_int items) = Ok (inorder (root r)) /\
    StronglySorted Z.lt (inorder (root r)) /\
    forall z, In z (inorder (root r)) <-> In z items.
Proof.
  intros Hf. unfold build, NewRedBlack.
  destruct (upsertAll_valid items fuel (mkTree compare_int Nil) 0%nat
              eq_refl eq_refl ltac:(cbn; lia))
    as (r & k' & E & C & V & S & I).
  exists r. unfold contents, run. rewrite E. cbn [value].
  split; [reflexivity|]. split; [exact V|].
  split.
  { destruct r as [c n]. cbn [root] in *. apply iterate_inorder. cbn in S. lia. }
  split.
  { apply (StronglySorted_impl (below (compare r))).
    - rewrite C. intros a b. apply below_compare_int.
    - apply ordered_StronglySorted.
      + rewrite C. exact compare_int_trans.
      + unfold validTree in V. apply andb_true_iff in V. tauto. }
  intros z. rewrite I. cbn. tauto.
Qed.

Lemma build_sorted_set_witness :
  exists r : RedBlackTree Z,
    run (build 8 compare_int [2; 1; 3; 2]) = Ok (Some r) /\
    validTree r = true /\
    contents 8 (build 8 compare_int [2; 1; 3; 2]) = Ok (inorder (root r)) /\
    StronglySorted Z.lt (inorder (root r)) /\
    forall z, In z (inorder (root r)) <-> In z [2; 1; 3; 2].
Proof.
  apply (build_sorted_set [2; 1; 3; 2] 8%nat). simpl. lia.
Defined.

(** X6: [compare] of example.go answers -1 exactly when [a < b], 0 exactly
    when [a = b] and 1 exactly when [b < a]; swapping the arguments negates
    the answer; and it satisfies the laws the tree operations rely on. *)
Theorem compare_int_three_way (a b : Z) :
  (compare_int a b = -1 <-> a < b) /\
  (compare_int a b = 0 <-> a = b) /\
  (compare_int a b = 1 <-> b < a) /\
  compare_int b a = - compare_int a b /\
  lawful compare_int.
Proof.
  refine (conj _ (conj _ (conj _ (conj _ compare_int_lawful))));
    unfold compare_int;
    destruct (Z.ltb_spec a b), (Z.eqb_spec a b), (Z.ltb_spec b a),
      (Z.eqb_spec b a); try split; lia.
Qed.

(** X7: [Delete] of an item that the comparator finds equal to no item of
    the tree returns a tree with the same comparator and the same items in
    the same order; if the tree satisfied invariant 1, or invariant 2, or
    (with a lawful comparator) the ordering invariant, so does the result. *)
Theorem Delete_absent_keeps_tree {T : Type} (t : RedBlackTree T) (x : T)
  (fuel k : nat) :
  (forall y, hasItem y (root t) -> compare t x y <> 0) ->
  (size (root t) < fuel)%nat ->
  exists (r : RedBlackTree T) (k' : nat),
    Delete fuel (Some t) x k = Ok (Some r, k') /\
    compare r = compare t /\
    inorder (root r) = inorder (root t) /\
    (noRedRed (root t) = true -> noRedRed (root r) = true) /\
    (equalBlackHeight (root t) = true -> equalBlackHeight (root r) = true) /\
    (ordered (compare t) (root t) = true -> lawful (compare t) ->
     ordered (compare r) (root r) = true).
Proof.
  exact (Delete_absent t x fuel k).
Qed.

Lemma Delete_absent_keeps_tree_witness :
  exists (r : RedBlackTree Z) (k' : nat),
    Delete 4 (Some (mkTree compare_int tree213)) 7 10%nat = Ok (Some r, k') /\
    compare r = compare_int /\
    inorder (root r) = [1; 2; 3] /\
    (noRedRed tree213 = true -> noRedRed (root r) = true) /\
    (equalBlackHeight tree213 = true -> equalBlackHeight (root r) = true) /\
    (ordered compare_int tree213 = true -> lawful compare_int ->
     ordered (compare r) (root r) = true).
Proof.
  apply (Delete_absent_keeps_tree (mkTree compare_int tree213) 7 4%nat 10%nat).
  - intros y Hy. simpl in Hy.
    destruct Hy as [<- | [[<- | [[] | []]] | [<- | [[] | []]]]]; discriminate.
  - simpl. lia.
Defined.

(** X8: [Delete] of [x] on an ordered tree with a lawful comparator.  If
    the tree has items not equal to [x], the call returns an ordered tree
    with a black root that holds exactly those items, in the same order.  If
    the tree is not empty and has no such item, the call panics
    ([copyWithColor] on the nil root): [Delete] never returns a tree it has
    emptied. *)
Theorem Delete_removes_equal_items {T : Type} (t : RedBlackTree T) (x : T)
  (fuel k : nat) :
  lawful (compare t) ->
  ordered (compare t) (root t) = true ->
  (2 * size (root t) + 1 < fuel)%nat ->
  (filter (fun y => negb (compare t x y =? 0)) (inorder (root t)) = [] ->
   root t <> Nil -> Delete fuel (Some t) x k = Panic) /\
  (filter (fun y => negb (compare t x y =? 0)) (inorder (root t)) <> [] ->
   exists (r : RedBlackTree T) (k' : nat),
     Delete fuel (Some t) x k = Ok (Some r, k') /\
     compare r = compare t /\
     inorder (root r)
     = filter (fun y => negb (compare t x y =? 0)) (inorder (root t)) /\
     ordered (compare r) (root r) = true /\
     isRedNode (root r) = false).
Proof.
  exact (Delete_removes t x fuel k).
Qed.

Lemma Delete_removes_equal_items_witness :
  (filter (fun y => negb (compare_int 2 y =? 0)) [1; 2; 3] = [] ->
   tree213 <> Nil ->
   Delete 8 (Some (mkTree compare_int tree213)) 2 10%nat = Panic) /\
  (filter (fun y => negb (compare_int 2 y =? 0)) [1; 2; 3] <> [] ->
   exists (r : RedBlackTree Z) (k' : nat),
     Delete 8 (Some (mkTree compare_int tree213)) 2 10%nat = Ok (Some r, k') /\
     compare r = compare_int /\
     inorder (root r)
     = filter (fun y => negb (compare_int 2 y =? 0)) [1; 2; 3] /\
     ordered (compare r) (root r) = true /\
     isRedNode (root r) = false).
Proof.
  apply (Delete_removes_equal_items (mkTree compare_int tree213) 2 8%nat 10%nat).
  - exact compare_int_lawful.
  - reflexivity.
  - simpl. lia.
Defined.

(** X9: with a lawful comparator, [Upsert] of [x] on an ordered tree
    followed by [Delete] of [x] on the result gives a tree that holds, in order, the items of the first
    tree that are not equal to [x]; when the first tree has no such item,
    the [Upsert] returns and the [Delete] panics. *)
Theorem Delete_after_Upsert {T : Type} (t : RedBlackTree T) (x : T)
  (fuel k : nat) :
  lawful (compare t) ->
  ordered (compare t) (root t) = true ->
  (2 * size (root t) + 3 < fuel)%nat ->
  exists (r : RedBlackTree T) (k1 : nat),
    Upsert fuel (Some t) x k = Ok (Some r, k1) /\
    (filter (fun y => negb (compare t x y =? 0)) (inorder (root t)) = [] ->
     Delete fuel (Some r) x k1 = Panic) /\
    (filter (fun y => negb (compare t x y =? 0)) (inorder (root t)) <> [] ->
     exists (r' : RedBlackTree T) (k2 : nat),
       Delete fuel (Some r) x k1 = Ok (Some r', k2) /\
       inorder (root r')
       = filter (fun y => negb (compare t x y =? 0)) (inorder (root t))).
Proof.
  intros laws Ho Hf.
  pose proof (Upsert_total t x fuel k ltac:(lia)) as Hret.
  destruct (Upsert fuel (Some t) x k) as [[r k1]| |] eqn:E;
    cbn in Hret; try contradiction.
  destruct (Upsert_inv t x fuel k r k1 E) as (n & -> & _ & Hi & _ & _).
  exists (mkTree (compare t) n), k1. split; [reflexivity|].
  assert (Hs : StronglySorted (below (compare t)) (inorder n)).
  { rewrite Hi. apply inserted_sorted; assumption. }
  assert (Hsize : size n
    = S (length (filter (fun y => negb (compare t x y =? 0))
                   (inorder (root t))))).
  { rewrite <- inorder_length, Hi. apply inserted_length; assumption. }
  assert (Hle : (size n <= S (size (root t)))%nat).
  { pose proof (filter_length_le (fun y => negb (compare t x y =? 0))
                  (inorder (root t))) as Hle.
    rewrite inorder_length in Hle. lia. }
  assert (Hn : n <> Nil).
  { intros ->. discriminate Hsize. }
  destruct (Delete_removes (mkTree (compare t) n) x fuel k1 laws
              (sorted_ordered (compare t) n Hs) ltac:(cbn [root]; lia))
    as [P Q].
  cbn [root compare] in P, Q.
  rewrite Hi, (inserted_filter (compare t) laws x) in P, Q.
  split.
  - intros Hnil. apply P; assumption.
  - intros Hne. destruct (Q Hne) as (r' & k2 & D & _ & I & _).
    exists r', k2. split; assumption.
Qed.

Lemma Delete_after_Upsert_witness :
  exists (r : RedBlackTree Z) (k1 : nat),
    Upsert 10 (Some (mkTree compare_int tree213)) 7 10%nat = Ok (Some r, k1) /\
    (filter (fun y => negb (compare_int 7 y =? 0)) [1; 2; 3] = [] ->
     Delete 10 (Some r) 7 k1 = Panic) /\
    (filter (fun y => negb (compare_int 7 y =? 0)) [1; 2; 3] <> [] ->
     exists (r' : RedBlackTree Z) (k2 : nat),
       Delete 10 (Some r) 7 k1 = Ok (Some r', k2) /\
       inorder (root r')
       = filter (fun y => negb (compare_int 7 y =? 0)) [1; 2; 3]).
Proof.
  apply (Delete_after_Upsert (mkTree compare_int tree213) 7 10%nat 10%nat).
  - exact compare_int_lawful.
  - reflexivity.
  - simpl. lia.
Defined.

(** X10: with a lawful comparator, on a node of an ordered tree,
    [combinedChildren] returns a tree that holds the items of the left subtree followed by the items of the right
    subtree, no item lost and none added. *)
Theorem combinedChildren_joins_subtrees {T : Type} (c : Compare T)
  (fuel a : nat) (y : T) (col : color) (l r : node T) (k : nat) :
  lawful c ->
  ordered c (Node a y col l r) = true ->
  (2 * size r + size l < fuel)%nat ->
  exists (j : node T) (k' : nat),
    combinedChildren fuel c (Node a y col l r) k = Ok (j, k') /\
    inorder j = inorder l ++ inorder r /\
    size j = (size l + size r)%nat.
Proof.
  intros laws. apply combinedChildren_joins. exact laws.
Qed.

Lemma combinedChildren_joins_subtrees_witness :
  lawful compare_int /\
  exists (j : node Z) (k' : nat),
    combinedChildren 4 compare_int tree213 5%nat = Ok (j, k') /\
    inorder j = [1; 3] /\
    size j = 2%nat.
Proof.
  split; [exact compare_int_lawful|].
  apply (combinedChildren_joins_subtrees compare_int 4%nat 4%nat 2 black
           (Node 1 1 red Nil Nil) (Node 3 3 red Nil Nil) 5%nat compare_int_lawful).
  - reflexivity.
  - simpl. lia.
Defined.

(** X11: [Union] of a tree with an ordered tree, with a lawful comparator and
    enough fuel, returns a tree that has every item of the other tree; every
    item of the receiver is in it too, unless it is equal to an item of the
    other tree; and every item of the result is an item of one of the two
    trees.  (The order of the items in the result is another matter.) *)
Theorem Union_loses_no_key {T : Type} (t o : RedBlackTree T) (fuel k : nat) :
  lawful (compare t) ->
  ordered (compare t) (root o) = true ->
  (2 * size (root o) + size (root t) < fuel)%nat ->
  exists (r : RedBlackTree T) (k' : nat),
    Union fuel (Some t) (Some o) k = Ok (Some r, k') /\
    (forall z, hasItem z (root o) -> hasItem z (root r)) /\
    (forall y, hasItem y (root t) ->
       hasItem y (root r) \/
       exists z, hasItem z (root o) /\ compare t z y = 0) /\
    (forall w, hasItem w (root r) ->
       hasItem w (root t) \/ hasItem w (root o)).
Proof.
  intros laws Ho Hf. pose proof (Union_total t o fuel k Hf) as Hret.
  destruct (Union fuel (Some t) (Some o) k) as [[r k']| |] eqn:E;
    cbn in Hret; try contradiction.
  unfold Union in E. destruct (root t) as [|a y col l rr] eqn:Er.
  - cbn in E. inversion E; subst. do 2 eexists.
    split; [reflexivity|]. split; [auto|]. split; [intros y []|]. auto.
  - destruct (recolor_inv _ _ _ _ _ E) as (R & k1 & R' & E1 & _ & -> & _ & _ & I).
    exists (mkTree (compare t) R'), k'. split; [reflexivity|]. cbn [root].
    destruct (upsert_covers (compare t) laws _ _ _ _ _ _
                (ordered_sorted _ laws _ Ho) E1) as [A B].
    pose proof (upsert_incl (compare t) _ _ _ _ _ _ E1) as C.
    split; [|split].
    + intros z Hz. apply inorder_hasItem. rewrite I. apply A.
      apply inorder_hasItem. exact Hz.
    + intros w Hw. apply inorder_hasItem in Hw.
      destruct (B w Hw) as [H | (z & Hz & Hzw)].
      * left. apply inorder_hasItem. rewrite I. exact H.
      * right. exists z. split; [apply inorder_hasItem; exact Hz | exact Hzw].
    + intros w Hw. apply inorder_hasItem in Hw. rewrite I in Hw.
      destruct (C w Hw) as [H | H]; [left | right];
        apply inorder_hasItem; exact H.
Qed.

Lemma Union_loses_no_key_witness :
  exists (r : RedBlackTree Z) (k' : nat),
    Union 10 (Some (mkTree compare_int tree213))
      (Some (mkTree compare_int tree234)) 10%nat = Ok (Some r, k') /\
    (forall z, hasItem z tree234 -> hasItem z (root r)) /\
    (forall y, hasItem y tree213 ->
       hasItem y (root r) \/
       exists z, hasItem z tree234 /\ compare_int z y = 0) /\
    (forall w, hasItem w (root r) -> hasItem w tree213 \/ hasItem w tree234).
Proof.
  apply (Union_loses_no_key (mkTree compare_int tree213)
           (mkTree compare_int tree234) 10%nat 10%nat).
  - exact compare_int_lawful.
  - reflexivity.
  - simpl. lia.
Defined.

(** X12: with a lawful comparator, when the receiver is not empty, both
    trees are ordered and all the items of the other tree fall between two neighbouring items of the
    receiver (or before its first, or after its last item), [Union] returns
    an ordered tree: the items of the receiver with the items of the other
    tree in that gap. *)
Theorem Union_into_gap {T : Type} (t o : RedBlackTree T) (L Rr : list T)
  (fuel k : nat) :
  lawful (compare t) ->
  ordered (compare t) (root t) = true ->
  ordered (compare t) (root o) = true ->
  root t <> Nil ->
  inorder (root t) = L ++ Rr ->
  (forall y z, In y L -> hasItem z (root o) -> below (compare t) y z) ->
  (forall y z, In y Rr -> hasItem z (root o) -> below (compare t) z y) ->
  (2 * size (root o) + size (root t) < fuel)%nat ->
  exists (r : RedBlackTree T) (k' : nat),
    Union fuel (Some t) (Some o) k = Ok (Some r, k') /\
    inorder (root r) = L ++ inorder (root o) ++ Rr /\
    ordered (compare r) (root r) = true.
Proof.
  intros laws Ht Ho Hn Hcut HL HR Hf. unfold Union.
  destruct (root t) as [|a y col l rr] eqn:Er; [contradiction|].
  destruct (upsert_gap (compare t) laws fuel (Node a y col l rr) (root o) L Rr k)
    as (R & k1 & E & NR & I & _).
  - discriminate.
  - exact Hf.
  - apply (ordered_sorted _ laws). exact Ho.
  - exact Hcut.
  - intros u v Hu Hv. apply HL; [exact Hu | apply inorder_hasItem; exact Hv].
  - intros u v Hu Hv. apply HR; [exact Hu | apply inorder_hasItem; exact Hv].
  - erewrite bind_ok by exact E.
    destruct (copyWithColor R black k1) as [[R' k2]| |] eqn:EC;
      [| destruct R as [|? ? cc ? ?];
         [contradiction | cbn in EC; destruct (Bool.eqb cc black); discriminate]..].
    destruct (copyWithColor_black _ _ _ _ EC) as (_ & _ & C2 & _).
    erewrite bind_ok by exact EC.
    exists (mkTree (compare t) R'), k2. split; [reflexivity|]. cbn [root compare].
    split; [rewrite C2; exact I|].
    apply sorted_ordered. rewrite C2, I.
    pose proof (ordered_sorted _ laws _ Ht) as St. rewrite Hcut in St.
    pose proof (ordered_sorted _ laws _ Ho) as So.
    assert (SL : StronglySorted (below (compare t)) L /\
                 StronglySorted (below (compare t)) Rr /\
                 forall u v, In u L -> In v Rr -> below (compare t) u v).
    { clear - St. induction L as [|u L IH]; cbn [app] in St.
      - split; [constructor|]. split; [exact St | intros u v []].
      - inversion St as [|? ? S1 F1]; subst. destruct (IH S1) as (A & B & C).
        rewrite Forall_forall in F1.
        split; [constructor; [exact A|]; apply Forall_forall; intros v Hv;
                apply F1, in_or_app; left; exact Hv|].
        split; [exact B|].
        intros u' v [<- | Hu] Hv; [apply F1, in_or_app; right; exact Hv|].
        apply C; assumption. }
    destruct SL as (SL & SR & LR).
    apply (StronglySorted_app (compare t)); [exact SL | |].
    + apply (StronglySorted_app (compare t)); [exact So | exact SR |].
      intros u v Hu Hv. apply HR; [exact Hv | apply inorder_hasItem; exact Hu].
    + intros u v Hu Hv. apply in_app_iff in Hv. destruct Hv as [Hv | Hv].
      * apply HL; [exact Hu | apply inorder_hasItem; exact Hv].
      * apply LR; assumption.
Qed.

Lemma Union_into_gap_witness :
  exists (r : RedBlackTree Z) (k' : nat),
    Union 9 (Some (mkTree compare_int tree15))
      (Some (mkTree compare_int tree234)) 10%nat = Ok (Some r, k') /\
    inorder (root r) = [1] ++ [2; 3; 4] ++ [5] /\
    ordered (compare r) (root r) = true.
Proof.
  apply (Union_into_gap (mkTree compare_int tree15)
           (mkTree compare_int tree234) [1] [5] 9%nat 10%nat).
  - exact compare_int_lawful.
  - reflexivity.
  - reflexivity.
  - discriminate.
  - reflexivity.
  - intros y z [<- | []] Hz. simpl in Hz.
    destruct Hz as [<- | [[<- | [[] | []]] | [<- | [[] | []]]]]; reflexivity.
  - intros y z [<- | []] Hz. simpl in Hz.
    destruct Hz as [<- | [[<- | [[] | []]] | [<- | [[] | []]]]]; reflexivity.
  - simpl. lia.
Defined.

(** X13: [Subtract] on an ordered receiver with a lawful comparator and
    enough fuel ends (it may end in a panic); the tree it returns is
    ordered, has only items of the receiver, and has every item of the
    receiver that is equal to no item of the other tree.  The other tree
    need not be ordered. *)
Theorem Subtract_between {T : Type} (t o : RedBlackTree T) (fuel k : nat) :
  lawful (compare t) ->
  ordered (compare t) (root t) = true ->
  (2 * size (root t) + size (root o) < fuel)%nat ->
  finishes
    (fun r : treeptr T =>
       match r with
       | None => False
       | Some r =>
         (forall y, hasItem y (root r) -> hasItem y (root t)) /\
         (forall y, hasItem y (root t) ->
            hasItem y (root r) \/
            exists z, hasItem z (root o) /\ compare t z y = 0) /\
         ordered (compare r) (root r) = true
       end)
    (Subtract fuel (Some t) (Some o) k).
Proof.
  intros laws Ho Hf. apply finishes_strengthen.
  { apply Subtract_finishes. exact Hf. }
  intros r k' E. unfold Subtract in E.
  destruct (root t) as [|a y col l rr] eqn:Er.
  - cbn in E. inversion E; subst. rewrite Er.
    split; [auto|]. split; [intros w []|]. exact Ho.
  - destruct (recolor_inv _ _ _ _ _ E) as (R & k1 & R' & E1 & _ & -> & _ & _ & I).
    cbn [root compare].
    destruct (subtract_keeps (compare t) laws _ _ _ _ _ _
                (ordered_sorted _ laws _ Ho) E1) as [S K].
    pose proof (subtract_incl (compare t) _ _ _ _ _ _ E1) as C.
    split; [|split].
    + intros w Hw. apply inorder_hasItem in Hw. rewrite I in Hw.
      apply inorder_hasItem. exact (C w Hw).
    + intros w Hw. apply inorder_hasItem in Hw.
      destruct (K w Hw) as [H | (z & Hz & Hzw)].
      * left. apply inorder_hasItem. rewrite I. exact H.
      * right. exists z. split; [apply inorder_hasItem; exact Hz | exact Hzw].
    + apply sorted_ordered. rewrite I. exact S.
Qed.

Lemma Subtract_between_witness :
  (exists (r : RedBlackTree Z) (k' : nat),
     Subtract 8 (Some (mkTree compare_int tree213))
       (Some (mkTree compare_int (Node 5 2 black Nil Nil))) 6%nat
     = Ok (Some r, k') /\
     inorder (root r) = [1; 3]) /\
  finishes
    (fun r : treeptr Z =>
       match r with
       | None => False
       | Some r =>
         (forall y, hasItem y (root r) -> hasItem y tree213) /\
         (forall y, hasItem y tree213 ->
            hasItem y (root r) \/
            exists z, hasItem z (Node 5 2 black Nil Nil) /\
                      compare_int z y = 0) /\
         ordered (compare r) (root r) = true
       end)
    (Subtract 8 (Some (mkTree compare_int tree213))
       (Some (mkTree compare_int (Node 5 2 black Nil Nil))) 6%nat).
Proof.
  split.
  - eexists. eexists. split; [vm_compute; reflexivity | reflexivity].
  - apply (Subtract_between (mkTree compare_int tree213)
             (mkTree compare_int (Node 5 2 black Nil Nil)) 8%nat 6%nat).
    + exact compare_int_lawful.
    + reflexivity.
    + simpl. lia.
Defined.

(** X14: [Intersection] on a receiver that satisfies invariant 1, with enough
    fuel, ends (it may end in a panic).  Every item of the tree it returns is
    an item of the receiver that is equal to an item of the other tree; it
    returns the nil pointer only for an empty receiver; and when the receiver
    is not empty and none of its items is equal to an item of the other tree,
    the call panics. *)
Theorem Intersection_sound {T : Type} (t o : RedBlackTree T) (fuel k : nat) :
  noRedRed (root t) = true ->
  (size (root t) + size (root o) < fuel)%nat ->
  finishes
    (fun r : treeptr T =>
       match r with
       | None => root t = Nil
       | Some r =>
         forall y, hasItem y (root r) ->
           hasItem y (root t) /\
           exists z, hasItem z (root o) /\ compare t z y = 0
       end)
    (Intersection fuel (Some t) (Some o) k) /\
  (root t <> Nil ->
   (forall y z, hasItem y (root t) -> hasItem z (root o) ->
                compare t z y <> 0) ->
   Intersection fuel (Some t) (Some o) k = Panic).
Proof.
  intros Hv Hf.
  assert (Hsound : forall R k1,
    intersection fuel (compare t) (root t) (root o) k = Ok (R, k1) ->
    forall y, In y (inorder R) ->
      hasItem y (root t) /\ exists z, hasItem z (root o) /\ compare t z y = 0).
  { intros R k1 E y Hy.
    destruct (intersection_sound (compare t) _ _ _ _ _ _ Hv E y Hy)
      as [Ha (z & Hz & Hzy)].
    split; [apply inorder_hasItem; exact Ha|].
    exists z. split; [apply inorder_hasItem; exact Hz | exact Hzy]. }
  split.
  - apply finishes_strengthen.
    { apply Intersection_finishes. exact Hf. }
    intros r k' E. unfold Intersection in E.
    destruct (root t) as [|a y col l rr] eqn:Er.
    + cbn in E. inversion E; subst. reflexivity.
    + destruct (recolor_inv _ _ _ _ _ E) as (R & k1 & R' & E1 & _ & -> & _ & _ & I).
      cbn [root]. intros w Hw. apply inorder_hasItem in Hw. rewrite I in Hw.
      exact (Hsound R k1 E1 w Hw).
  - intros Hn Hdis. unfold Intersection.
    destruct (root t) as [|a y col l rr] eqn:Er; [contradiction|].
    destruct (intersection_total (compare t) fuel (Node a y col l rr) (root o) k)
      as (R & k1 & E); [exact Hf|].
    erewrite bind_ok by exact E.
    destruct R as [|ra rx rc rl rrr]; [reflexivity|].
    exfalso. destruct (Hsound _ _ E rx) as [Ha (z & Hz & Hzy)].
    + cbn [inorder]. apply in_or_app. right. left. reflexivity.
    + exact (Hdis rx z Ha Hz Hzy).
Qed.

Lemma Intersection_sound_witness :
  finishes
    (fun r : treeptr Z =>
       match r with
       | None => tree213 = Nil
       | Some r =>
         forall y, hasItem y (root r) ->
           hasItem y tree213 /\
           exists z, hasItem z tree234 /\ compare_int z y = 0
       end)
    (Intersection 7 (Some (mkTree compare_int tree213))
       (Some (mkTree compare_int tree234)) 10%nat) /\
  (tree213 <> Nil ->
   (forall y z, hasItem y tree213 -> hasItem z tree234 ->
                compare_int z y <> 0) ->
   Intersection 7 (Some (mkTree compare_int tree213))
     (Some (mkTree compare_int tree234)) 10%nat = Panic).
Proof.
  apply (Intersection_sound (mkTree compare_int tree213)
           (mkTree compare_int tree234) 7%nat 10%nat).
  - reflexivity.
  - simpl. lia.
Defined.



(** X16: after [i] calls of [Next] on the iterator of any tree, [HasElem]
    tells whether [i] is less than the number of nodes of the tree, and
    [Elem] returns the [i]-th item from the left, or the zero value when
    there is none. *)
Theorem iterator_position {T : Type} (zeroVal : T) (t : RedBlackTree T)
  (i : nat) :
  exists it : nodeIterator T,
    Iterator (Some t) = Ok it /\
    HasElem (advance i it) = (i <? size (root t))%nat /\
    Elem zeroVal (advance i it) = nth i (inorder (root t)) zeroVal.
Proof.
  destruct (Iterator_remaining t) as (it & E & R & W).
  exists it. split; [exact E|].
  destruct (advance_remaining i it W) as [A _].
  rewrite HasElem_remaining, Elem_remaining, A, R, hd_skipn.
  split; [|reflexivity].
  rewrite length_skipn, inorder_length.
  destruct (Nat.ltb_spec i (size (root t))) as [H | H];
    [destruct (Nat.eqb_spec (size (root t) - i) 0)
    | destruct (Nat.eqb_spec (size (root t) - i) 0)]; cbn; auto; lia.
Qed.

(** X17: [withMaybeNewLeft] with a non-nil [inserting] returns.  When the
    receiver has no left child, [inserting] becomes its left child: the
    result holds the items of [inserting] followed by those of the receiver.
    When it has one, the result is the merge of that child with [inserting]:
    each of its items is an item of the child or of [inserting], and the
    receiver's own item and right subtree are not part of it.
    [withMaybeNewRight] does the same on the other side. *)
Theorem withMaybeNew_items {T : Type} (c : Compare T) (a : nat) (y : T)
  (col : color) (l r inserting : node T) (fuel k : nat) :
  inserting <> Nil ->
  (2 * size inserting + size l + size r < fuel)%nat ->
  (exists (R : node T) (k' : nat),
     withMaybeNewLeft fuel c (Node a y col l r) inserting k = Ok (R, k') /\
     match l with
     | Nil => inorder R = inorder inserting ++ y :: inorder r
     | Node _ _ _ _ _ =>
       forall z, In z (inorder R) -> In z (inorder l) \/ In z (inorder inserting)
     end) /\
  (exists (R : node T) (k' : nat),
     withMaybeNewRight fuel c (Node a y col l r) inserting k = Ok (R, k') /\
     match r with
     | Nil => inorder R = inorder l ++ y :: inorder inserting
     | Node _ _ _ _ _ =>
       forall z, In z (inorder R) -> In z (inorder r) \/ In z (inorder inserting)
     end).
Proof.
  intros Hi Hf. destruct inserting as [|ia ii ic il ir]; [contradiction|].
  set (ins := Node ia ii ic il ir) in *. split.
  - destruct l as [|la lx lc ll lr].
    + destruct (balance_keeps (Node k y col ins r) (S k))
        as (B & k' & E & I & _).
      exists B, k'. split; [exact E | exact I].
    + destruct (upsert_total c fuel (Node la lx lc ll lr) ins k)
        as (R & k' & E & _); [discriminate | lia |].
      exists R, k'. split; [exact E|].
      exact (upsert_incl c fuel _ _ _ _ _ E).
  - destruct r as [|ra rx rc rl rr].
    + destruct (balance_keeps (Node k y col l ins) (S k))
        as (B & k' & E & I & _).
      exists B, k'. split; [exact E | exact I].
    + destruct (upsert_total c fuel (Node ra rx rc rl rr) ins k)
        as (R & k' & E & _); [discriminate | lia |].
      exists R, k'. split; [exact E|].
      exact (upsert_incl c fuel _ _ _ _ _ E).
Qed.

Lemma withMaybeNew_items_witness :
  (exists (R : node Z) (k' : nat),
     withMaybeNewLeft 9 compare_int tree213 tree15 10%nat = Ok (R, k') /\
     forall z, In z (inorder R) -> In z [1] \/ In z (inorder tree15)) /\
  (exists (R : node Z) (k' : nat),
     withMaybeNewRight 9 compare_int tree213 tree15 10%nat = Ok (R, k') /\
     forall z, In z (inorder R) -> In z [3] \/ In z (inorder tree15)).
Proof.
  apply (withMaybeNew_items compare_int 4%nat 2 black (Node 1 1 red Nil Nil)
           (Node 3 3 red Nil Nil) tree15 9%nat 10%nat).
  - discriminate.
  - simpl. lia.
Defined.

(** X18: the run of [verifyDelete] of example.go for any list and any absent
    key: the tree built by [rb = rb.Upsert(i)] over a list of integers,
    followed by [Delete] of an integer that is not in the list, is a tree
    that satisfies the three invariants and whose iteration yields strictly
    increasing integers, exactly the members of the list. *)
Theorem build_then_delete_absent (items : list Z) (x : Z) (fuel : nat) :
  ~ In x items ->
  (2 + length items < fuel)%nat ->
  exists r : RedBlackTree Z,
    run (t <- build fuel compare_int items ;; Delete fuel t x) = Ok (Some r) /\
    validTree r = true /\
    contents fuel (t <- build fuel compare_int items ;; Delete fuel t x)
    = Ok (inorder (root r)) /\
    StronglySorted Z.lt (inorder (root r)) /\
    forall z, In z (inorder (root r)) <-> In z items.
Proof.
  intros Hx Hf. unfold build, NewRedBlack.
  destruct (upsertAll_valid items fuel (mkTree compare_int Nil) 0%nat
              eq_refl eq_refl ltac:(cbn; lia))
    as (t & k1 & E & C & V & S & I).
  cbn [root size inorder In] in S, I.
  assert (Habs : forall y, hasItem y (root t) -> compare t x y <> 0).
  { intros y Hy. rewrite C, compare_int_zero. intros <-.
    apply inorder_hasItem, I in Hy. destruct Hy as [[] | Hy]. exact (Hx Hy). }
  destruct (Delete_absent t x fuel k1 Habs ltac:(lia))
    as (r & k2 & D & Cr & Ir & V1 & V2 & V3).
  unfold validTree in V. apply andb_true_iff in V. destruct V as [V Vo].
  apply andb_true_iff in V. destruct V as [Va Vb].
  assert (laws : lawful (compare t)) by (rewrite C; exact compare_int_lawful).
  assert (Vr : validTree r = true).
  { unfold validTree. rewrite (V1 Va), (V2 Vb), (V3 Vo laws). reflexivity. }
  exists r. unfold contents, run.
  rewrite (bind_ok _ _ _ _ _ E), D. cbn [value].
  split; [reflexivity|]. split; [exact Vr|].
  split.
  { destruct r as [c n]. cbn [root] in *. apply iterate_inorder.
    rewrite <- inorder_length, Ir, inorder_length. lia. }
  split.
  { apply (StronglySorted_impl (below (compare r))).
    - rewrite Cr, C. intros a b. apply below_compare_int.
    - apply ordered_StronglySorted.
      + rewrite Cr, C. exact compare_int_trans.
      + apply V3; assumption. }
  intros z. rewrite Ir, I. tauto.
Qed.

Lemma build_then_delete_absent_witness :
  exists r : RedBlackTree Z,
    run (t <- build 10 compare_int [1; 2; 3; 4; 5; 6; 7] ;; Delete 10 t 10)
    = Ok (Some r) /\
    validTree r = true /\
    contents 10
      (t <- build 10 compare_int [1; 2; 3; 4; 5; 6; 7] ;; Delete 10 t 10)
    = Ok (inorder (root r)) /\
    StronglySorted Z.lt (inorder (root r)) /\
    forall z, In z (inorder (root r)) <-> In z [1; 2; 3; 4; 5; 6; 7].
Proof.
  apply (build_then_delete_absent [1; 2; 3; 4; 5; 6; 7] 10 10%nat).
  - simpl. lia.
  - simpl. lia.
Defined.
